(** * im64DMSender: the message-dispatch cycle

    A shallow embedding of the two dispatch programs of the repository,
    [TwitterDMScheduler] (DM.py) and [DMSender] (dm_sender.py), and the
    properties of the dispatch cycle stated in the specification.

    Python code is effectful: it raises and catches exceptions, reads and
    writes [message_index.json], calls the messaging gateway, sleeps and
    logs.  The embedding keeps those effects explicit:
    - a program is a function from a world to a result (a value or a raised
      exception), a new world, and the list of events it emitted, in order;
    - everything outside the process (gateway answers, random numbers, the
      clock, the files on disk) is an oracle indexed by a tick that grows at
      every observation, so no assumption is made on what they answer. *)

From Stdlib Require Import ZArith QArith String Ascii List Lia.
From stdpp Require Import gmap strings list.

Local Open Scope Z_scope.

(** ** Python values used by the programs

    A Python [str] is kept as a [string] that holds the UTF-8 bytes of its
    characters, which is how the texts of this file are written.  A
    character starts at every byte that is not a continuation byte
    ([10xxxxxx]); [len] counts characters, slices cut between characters,
    and [strip] removes whole characters. *)

Module Py.

(** Exceptions the programs raise or catch.  All of them derive from
    [Exception], so a bare [except Exception] handler catches each one. *)
Inductive exn :=
| Forbidden          (* tweepy.errors.Forbidden *)
| TooManyRequests    (* tweepy.TooManyRequests *)
| TransportError     (* any other error of a gateway call *)
| OSError            (* os.path.getsize on a missing file *)
| KeyError           (* d[k] on an absent key *)
| IndexError         (* seq[i] out of range, random.choice([]) *)
| GenerationError.   (* the generative model call failed *)

Inductive result (A : Type) :=
| Val (a : A)
| Exc (e : exn).
Arguments Val {A} a.
Arguments Exc {A} e.

(** Truthiness of an optional string: [None] and [''] are falsy. *)
Definition truthy_str (s : option string) : bool :=
  match s with
  | Some (String _ _) => true
  | _ => false
  end.

(** Truthiness of an optional integer: [None] and [0] are falsy. *)
Definition truthy_int (z : option Z) : bool :=
  match z with
  | Some z => negb (Z.eqb z 0)
  | None => false
  end.

(** A continuation byte of UTF-8: [0x80..0xBF]. *)
Definition continuation (c : ascii) : bool :=
  let n := N_of_ascii c in
  N.leb 128 n && N.ltb n 192.

(** The number of characters of a string. *)
Fixpoint characters (s : string) : nat :=
  match s with
  | EmptyString => O
  | String c s' =>
      if continuation c then characters s' else S (characters s')
  end.

(** [len(s)] *)
Definition len (s : string) : Z := Z.of_nat (characters s).

(** [s[:n]] for [0 <= n]: the first [n] characters, each with all its
    bytes. *)
Fixpoint take (n : nat) (s : string) : string :=
  match s with
  | EmptyString => EmptyString
  | String c s' =>
      if continuation c then String c (take n s')
      else match n with
           | O => EmptyString
           | S n' => String c (take n' s')
           end
  end.

Definition slice_to (n : Z) (s : string) : string := take (Z.to_nat n) s.
Arguments slice_to : simpl never.

(** The characters of a string, each as its bytes. *)
Definition starts_with_continuation (s : string) : bool :=
  match s with
  | String c _ => continuation c
  | EmptyString => false
  end.

Fixpoint chars (s : string) : list string :=
  match s with
  | EmptyString => []
  | String c s' =>
      match chars s' with
      | ch :: rest =>
          if starts_with_continuation ch then String c ch :: rest
          else String c EmptyString :: ch :: rest
      | [] => [String c EmptyString]
      end
  end.

(** The characters removed by [str.strip()], those of [str.isspace]:
    U+0009..U+000D, U+001C..U+0020, U+0085, U+00A0, U+1680,
    U+2000..U+200A, U+2028, U+2029, U+202F, U+205F and U+3000, by their
    UTF-8 bytes. *)
Definition isspace (ch : string) : bool :=
  match N_of_ascii <$> list_ascii_of_string ch with
  | [a] => (N.leb 9 a && N.leb a 13) || (N.leb 28 a && N.leb a 32)
  | [a; b] => N.eqb a 194 && (N.eqb b 133 || N.eqb b 160)
  | [a; b; c] =>
      (N.eqb a 225 && N.eqb b 154 && N.eqb c 128)
      || (N.eqb a 226 && N.eqb b 128
          && ((N.leb 128 c && N.leb c 138)
              || N.eqb c 168 || N.eqb c 169 || N.eqb c 175))
      || (N.eqb a 226 && N.eqb b 129 && N.eqb c 159)
      || (N.eqb a 227 && N.eqb b 128 && N.eqb c 128)
  | _ => false
  end.

Fixpoint drop_spaces (l : list string) : list string :=
  match l with
  | ch :: l' => if isspace ch then drop_spaces l' else l
  | [] => []
  end.

Definition lstrip (s : string) : string :=
  String.concat EmptyString (drop_spaces (chars s)).

Definition rstrip (s : string) : string :=
  String.concat EmptyString (rev (drop_spaces (rev (chars s)))).

Definition strip (s : string) : string := rstrip (lstrip s).

(** [os.path.join(a, b)] on POSIX. *)
Definition ends_with_slash (a : string) : bool :=
  match String.rev a with
  | String c _ => Ascii.eqb c "/"%char
  | EmptyString => false
  end.

Definition path_join (a b : string) : string :=
  match b with
  | String c _ =>
      if Ascii.eqb c "/"%char then b
      else if ends_with_slash a then a +:+ b
      else match a with
           | EmptyString => b
           | _ => a +:+ "/" +:+ b
           end
  | EmptyString =>
      if ends_with_slash a then a
      else match a with
           | EmptyString => EmptyString
           | _ => a +:+ "/"
           end
  end.

End Py.
Export Py.

(** ** Programs: state, exceptions and an event trace *)

Module Runtime.

Section Prog.
Context (W Ev : Type).

Definition prog (A : Type) : Type := W -> result A * W * list Ev.

Definition ret {A} (a : A) : prog A := fun w => (Val a, w, []).

Definition bind {A B} (m : prog A) (k : A -> prog B) : prog B :=
  fun w =>
    match m w with
    | (Val a, w1, t1) =>
        match k a w1 with
        | (r, w2, t2) => (r, w2, t1 ++ t2)
        end
    | (Exc e, w1, t1) => (Exc e, w1, t1)
    end.

Definition raise {A} (e : exn) : prog A := fun w => (Exc e, w, []).

(** [try: m  except Exception as e: h e] *)
Definition try_except {A} (m : prog A) (h : exn -> prog A) : prog A :=
  fun w =>
    match m w with
    | (Val a, w1, t1) => (Val a, w1, t1)
    | (Exc e, w1, t1) =>
        match h e w1 with
        | (r, w2, t2) => (r, w2, t1 ++ t2)
        end
    end.

Definition emit (e : Ev) : prog unit := fun w => (Val tt, w, [e]).

Definition get : prog W := fun w => (Val w, w, []).

Definition put (w : W) : prog unit := fun _ => (Val tt, w, []).

(** [for x in l: body x] *)
Fixpoint for_each {A} (l : list A) (body : A -> prog unit) : prog unit :=
  match l with
  | [] => ret tt
  | x :: l' => bind (body x) (fun _ => for_each l' body)
  end.

(** A [for] loop that updates one local variable. *)
Fixpoint fold_each {A S} (l : list A) (acc : S) (body : S -> A -> prog S)
  : prog S :=
  match l with
  | [] => ret acc
  | x :: l' => bind (body acc x) (fun acc' => fold_each l' acc' body)
  end.

(** Lift an outcome decided by an oracle. *)
Definition of_result {A} (r : result A) : prog A :=
  match r with
  | Val a => ret a
  | Exc e => raise e
  end.

End Prog.

Arguments ret {W Ev A} a.
Arguments bind {W Ev A B} m k.
Arguments raise {W Ev A} e.
Arguments try_except {W Ev A} m h.
Arguments emit {W Ev} e.
Arguments get {W Ev}.
Arguments put {W Ev} w.
Arguments for_each {W Ev A} l body.
Arguments fold_each {W Ev A S} l acc body.
Arguments of_result {W Ev A} r.

(** Projections of a run. *)
Definition outcome {W Ev A} (r : result A * W * list Ev) : result A := r.1.1.
Definition final {W Ev A} (r : result A * W * list Ev) : W := r.1.2.
Definition trace {W Ev A} (r : result A * W * list Ev) : list Ev := r.2.

(** A program that returns on every world: no exception escapes it. *)
Definition never_raises {W Ev A} (m : prog W Ev A) : Prop :=
  forall w, exists a, outcome (m w) = Val a.

End Runtime.
Export Runtime.

Declare Scope prog_scope.
Delimit Scope prog_scope with prog.
Notation "x <- m ;; k" := (bind m (fun x => k))
  (at level 100, m at next level, right associativity) : prog_scope.
Notation "m ;; k" := (bind m (fun _ => k))
  (at level 100, right associativity) : prog_scope.
Open Scope prog_scope.

Inductive level := Info | Warning | Error.

(** ** DM.py: [TwitterDMScheduler] *)

Module DM.

(** *** Configuration (config.json) *)

(** An entry of a message list: a dict with the optional keys ['text'] and
    ['image'], or, in the old format, a plain string.  ['text'], when the
    key is there, is a string.  ['image'] is a file name, or is left out;
    a JSON [null] is the same as leaving it out, since the key is only
    read with [.get('image')]. *)
Inductive message :=
| MStr (s : string)
| MDict (text image : option string).

(** An entry of ['recipients'].  Every key is read with [dict.get], so
    every field may be absent. *)
Record recipient := {
  user_id : option string;
  username : option string;
  message_category : option string;
  custom_messages : option (list message);
  enabled : option bool
}.

(** The keys of the configuration that a dispatch cycle reads; nested
    sections ([schedule_settings], [media_settings]) are flattened, an
    absent section being the same as a section without the key. *)
Record config := {
  enable_timestamp : option bool;
  randomize_messages : option bool;
  images_directory : option string;
  max_image_size_mb : option Q;
  message_templates : option (gmap string (list message));
  recipients : option (list recipient)
}.

(** *** Events and world *)

Inductive log_line :=
| CycleStart
| CycleDone
| SkipDisabled (username : option string)
| SkipNoUserId (username : string)
| SkipNoMessages (username : string)
| SendOk (username user_id : string)
| SendFailed (username user_id : string)
| ImageFileMissing (path : string)
| ImageTooBig (path : string)
| UploadOk (path media_id : string)
| UploadError (e : exn)
| DmSent (user_id : string) (with_image : bool)
| DmNoData (user_id : string)
| DmForbidden
| DmNotAllowed
| DmError (e : exn)
| ImageNotFound (filename : string).

Inductive event :=
| Log (lvl : level) (line : log_line)
| IndexRead                           (* json.load of message_index.json *)
| IndexWrite (doc : gmap string Z)    (* json.dump to message_index.json *)
| MediaUpload (path : string)         (* api.media_upload *)
| CreateDM (participant text : string) (media : option string)
                                      (* client.create_direct_message *)
| Sleep (seconds : Z).

(** The durable rotation store is the file [message_index.json]: absent,
    or a JSON object from user ids to integers.  The process is its only
    writer: the file changes only where the program writes it. *)
Record world := {
  index_file : option (gmap string Z);
  tick : nat
}.

(** What the process observes of the outside, per observation. *)
Record env := {
  files : nat -> gmap string Z;       (* files on disk, with their size *)
  media_upload_api : nat -> string -> result string;
  create_direct_message :
    nat -> string -> string -> option string -> result bool;
                                      (* is [response.data] truthy? *)
  random_nat : nat -> nat;
  strftime_now : nat -> string
}.

Abbreviation M := (prog world event).

Definition nl : string := String (ascii_of_nat 10) EmptyString.

Definition truthy_list {A} (l : option (list A)) : bool :=
  match l with
  | Some (_ :: _) => true
  | _ => false
  end.

Definition default_messages : list message :=
  [MDict (Some "デフォルトメッセージ"%string) None].

Definition Qgt_bool (a b : Q) : bool := negb (Qle_bool a b).

Section Scheduler.
Context (E : env) (cfg : config).

(** **** Primitive effects *)

Definition fresh : M nat :=
  fun w => (Val (tick w),
            {| index_file := index_file w; tick := S (tick w) |}, []).

Definition log (lvl : level) (l : log_line) : M unit := emit (Log lvl l).

Definition sleep (seconds : Z) : M unit := emit (Sleep seconds).

Definition os_path_exists (p : string) : M bool :=
  t <- fresh ;;
  ret (bool_decide (is_Some (files E t !! p))).

Definition os_path_getsize (p : string) : M Z :=
  t <- fresh ;;
  match files E t !! p with
  | Some n => ret n
  | None => raise OSError
  end.

(** [seq[i]] for [0 <= i]. *)
Definition index {A} (l : list A) (i : Z) : M A :=
  match l !! Z.to_nat i with
  | Some x => ret x
  | None => raise IndexError
  end.

Definition random_choice {A} (l : list A) : M A :=
  t <- fresh ;;
  match l !! (random_nat E t mod length l)%nat with
  | Some x => ret x
  | None => raise IndexError
  end.

(** **** upload_media

    [filesize / (1024 * 1024)] is a float division by a power of two,
    exact for every size below 2^53, and Python compares floats and
    integers exactly: the test is the same test on rationals. *)
Definition upload_media (image_path : string) : M (option string) :=
  try_except
    (ex <- os_path_exists image_path ;;
     if negb ex then
       log Warning (ImageFileMissing image_path) ;;
       ret None
     else
       let max_size := default (5 # 1)%Q (max_image_size_mb cfg) in
       size <- os_path_getsize image_path ;;
       let file_size_mb := (inject_Z size / inject_Z (1024 * 1024))%Q in
       if Qgt_bool file_size_mb max_size then
         log Warning (ImageTooBig image_path) ;;
         ret None
       else
         t <- fresh ;;
         emit (MediaUpload image_path) ;;
         media_id <- of_result (media_upload_api E t image_path) ;;
         log Info (UploadOk image_path media_id) ;;
         ret (Some media_id))
    (fun e =>
       log Error (UploadError e) ;;
       ret None).

(** **** send_dm *)
Definition send_dm (recipient_id message : string)
    (media_id : option string) : M bool :=
  try_except
    (let media := if truthy_str media_id then media_id else None in
     t <- fresh ;;
     emit (CreateDM recipient_id message media) ;;
     data <- of_result
               (create_direct_message E t recipient_id message media) ;;
     if data : bool then
       log Info (DmSent recipient_id (truthy_str media_id)) ;;
       ret true
     else
       log Warning (DmNoData recipient_id) ;;
       ret false)
    (fun e =>
       match e with
       | Forbidden =>
           log Error DmForbidden ;;
           log Error DmNotAllowed ;;
           ret false
       | _ =>
           log Error (DmError e) ;;
           ret false
       end).

(** **** get_image_path *)
Definition get_image_path (image_filename : option string)
  : M (option string) :=
  if negb (truthy_str image_filename) then ret None
  else
    let filename := default ""%string image_filename in
    let images_dir := default "images"%string (images_directory cfg) in
    let image_path := path_join images_dir filename in
    ex <- os_path_exists image_path ;;
    if ex then ret (Some image_path)
    else
      ex' <- os_path_exists filename ;;
      if ex' then ret (Some filename)
      else
        log Warning (ImageNotFound filename) ;;
        ret None.

(** **** get_messages_for_recipient *)
Definition normalize (msg : message) : message :=
  match msg with
  | MStr s => MDict (Some s) None
  | MDict _ _ => msg
  end.

Definition get_messages_for_recipient (r : recipient) : list message :=
  let messages :=
    if truthy_list (custom_messages r) then
      default [] (custom_messages r)
    else
      let category := default "custom"%string (message_category r) in
      let templates := default ∅ (message_templates cfg) in
      default default_messages (templates !! category) in
  normalize <$> messages.

(** **** get_message_index, update_message_index *)
Definition get_message_index (uid : string) : M Z :=
  w <- get ;;
  match index_file w with
  | Some indices =>
      emit IndexRead ;;
      ret (default 0 (indices !! uid))
  | None => ret 0
  end.

Definition update_message_index (uid : string) (idx : Z) : M unit :=
  w <- get ;;
  indices <- match index_file w with
             | Some indices => emit IndexRead ;; ret indices
             | None => ret ∅
             end ;;
  let indices := <[uid := idx]> indices in
  emit (IndexWrite indices) ;;
  w <- get ;;
  put {| index_file := Some indices; tick := tick w |}.

(** **** send_scheduled_messages

    The body of the loop is cut at the comments of the source: message
    selection, message text, timestamp, image, sending. *)
Definition randomize : bool := default false (randomize_messages cfg).

Definition select_message (uid : string) (messages : list message)
  : M message :=
  if randomize then random_choice messages
  else
    message_index <- get_message_index uid ;;
    message_data <-
      index messages (message_index `mod` Z.of_nat (length messages)) ;;
    update_message_index uid (message_index + 1) ;;
    ret message_data.

Definition message_text_of (message_data : message) : string :=
  match message_data with
  | MDict text _ => default ""%string text
  | MStr s => s
  end.

Definition timestamp_label : string := "送信時刻: ".

Definition add_timestamp (message_text : string) : M string :=
  if default true (enable_timestamp cfg) then
    t <- fresh ;;
    ret (message_text +:+ nl +:+ nl +:+ timestamp_label
         +:+ strftime_now E t)
  else ret message_text.

Definition process_image (message_data : message) : M (option string) :=
  match message_data with
  | MDict _ image =>
      if truthy_str image then
        image_path <- get_image_path image ;;
        if truthy_str image_path then
          upload_media (default ""%string image_path)
        else ret None
      else ret None
  | MStr _ => ret None
  end.

Definition deliver (uid uname full_message : string)
    (media_id : option string) : M unit :=
  success <- send_dm uid full_message media_id ;;
  (if success : bool then log Info (SendOk uname uid)
   else log Warning (SendFailed uname uid)) ;;
  sleep 2.

Definition dispatch_recipient (r : recipient) : M unit :=
  if negb (default true (enabled r)) then
    log Info (SkipDisabled (username r))
  else
    let uid := default ""%string (user_id r) in
    let uname := default "Unknown"%string (username r) in
    if negb (truthy_str (user_id r)) then
      log Warning (SkipNoUserId uname)
    else
      let messages := get_messages_for_recipient r in
      match messages with
      | [] => log Warning (SkipNoMessages uname)
      | _ :: _ =>
          message_data <- select_message uid messages ;;
          full_message <- add_timestamp (message_text_of message_data) ;;
          media_id <- process_image message_data ;;
          deliver uid uname full_message media_id
      end.

Definition send_scheduled_messages : M unit :=
  log Info CycleStart ;;
  for_each (default [] (recipients cfg)) dispatch_recipient ;;
  log Info CycleDone.

(** [n] consecutive cycles, as the scheduler runs them. *)
Fixpoint run_cycles (n : nat) : M unit :=
  match n with
  | O => ret tt
  | S n' => send_scheduled_messages ;; run_cycles n'
  end.

End Scheduler.

(** *** Observations on a run *)

(** The calls of [client.create_direct_message], in order. *)
Definition sends (t : list event) : list (string * string * option string) :=
  omap (fun e => match e with
                 | CreateDM u x m => Some (u, x, m)
                 | _ => None
                 end) t.

(** The recipients a send was attempted for, in order. *)
Definition attempted (t : list event) : list string :=
  (fun s => s.1.1) <$> sends t.

(** The per-recipient outcome that the cycle reports after a send. *)
Definition send_results (t : list event) : list (string * bool) :=
  omap (fun e => match e with
                 | Log _ (SendOk _ u) => Some (u, true)
                 | Log _ (SendFailed _ u) => Some (u, false)
                 | _ => None
                 end) t.

Definition is_index_read (e : event) : bool :=
  match e with IndexRead => true | _ => false end.

Definition is_index_write (e : event) : bool :=
  match e with IndexWrite _ => true | _ => false end.

Definition is_skip_disabled (e : event) : bool :=
  match e with Log _ (SkipDisabled _) => true | _ => false end.

Definition count (p : event -> bool) (t : list event) : nat :=
  length (List.filter p t).

Definition index_reads : list event -> nat := count is_index_read.
Definition index_writes : list event -> nat := count is_index_write.

(** Events that neither touch the rotation store nor send a message. *)
Definition quiet_event (e : event) : bool :=
  match e with
  | IndexRead | IndexWrite _ | CreateDM _ _ _ => false
  | Log _ (SkipDisabled _) | Log _ (SendOk _ _) | Log _ (SendFailed _ _) =>
      false
  | _ => true
  end.

(** What is left of a trace once the quiet events are dropped. *)
Definition loud (t : list event) : list event :=
  List.filter (fun e => negb (quiet_event e)) t.

(** A program that leaves the rotation store alone and sends nothing,
    whether it returns or raises. *)
Definition calm {A} (m : M A) : Prop :=
  forall w, index_file (final (m w)) = index_file w
            /\ loud (trace (m w)) = [].

(** The rotation cursor of a recipient, as [get_message_index] reads it. *)
Definition cursor (w : world) (uid : string) : Z :=
  default 0 (default ∅ (index_file w) !! uid).

(** The recipients that pass the three guards of the loop. *)
Definition dispatchable (cfg : config) (r : recipient) : bool :=
  default true (enabled r) && truthy_str (user_id r)
  && match get_messages_for_recipient cfg r with
     | [] => false
     | _ :: _ => true
     end.

Definition uid_of (r : recipient) : string := default ""%string (user_id r).

Definition uname_of (r : recipient) : string :=
  default "Unknown"%string (username r).

(** The store after the cursor of [uid] is advanced by one. *)
Definition advance (w : world) (uid : string) : gmap string Z :=
  <[uid := cursor w uid + 1]> (default ∅ (index_file w)).

(** The accesses to [message_index.json] made for one recipient under
    rotation: [get_message_index] and [update_message_index] each load the
    file when it exists, and the second rewrites it. *)
Definition rotation_io (w : world) (uid : string) : list event :=
  match index_file w with
  | Some _ => [IndexRead; IndexRead; IndexWrite (advance w uid)]
  | None => [IndexWrite (advance w uid)]
  end.

(** The loads of the store for one recipient under rotation. *)
Definition loads (w : world) : nat :=
  match index_file w with
  | Some _ => 2%nat
  | None => 0%nat
  end.

(** The line the cycle logs after a send. *)
Definition report_line (uname uid : string) (success : bool) : event :=
  if success then Log Info (SendOk uname uid)
  else Log Warning (SendFailed uname uid).

(** The media id that reaches the request: a falsy id is left out. *)
Definition attached (media_id : option string) : option string :=
  if truthy_str media_id then media_id else None.

(** A program that neither reads nor writes the rotation store. *)
Definition store_untouched {A} (m : M A) : Prop :=
  forall w, index_file (final (m w)) = index_file w
            /\ index_reads (trace (m w)) = 0%nat
            /\ index_writes (trace (m w)) = 0%nat.

(** The candidate that rotation resolves for a recipient in a world. *)
Definition candidate_at (cfg : config) (w : world) (r : recipient)
  : option message :=
  let ms := get_messages_for_recipient cfg r in
  ms !! Z.to_nat (cursor w (uid_of r) `mod` Z.of_nat (length ms)).

Definition text_at (cfg : config) (w : world) (r : recipient) : string :=
  from_option message_text_of ""%string (candidate_at cfg w r).

(** A message without an image. *)
Definition no_image (m : message) : bool :=
  match m with
  | MDict _ image => negb (truthy_str image)
  | MStr _ => true
  end.

Definition plain (cfg : config) (r : recipient) : bool :=
  forallb no_image (get_messages_for_recipient cfg r).

(** The three ways an upload fails, for [upload_media] entered in world
    [w]: the file is not there, the file is over the size ceiling, or the
    gateway call raises. *)
Definition max_size_mb (cfg : config) : Q :=
  default (5 # 1)%Q (max_image_size_mb cfg).





(** *** The specification's reading of two properties, to be compared with
    what the code does *)


(** "The store is read once before the cycle and written once after it." *)
Definition store_io_batched (t : list event) : Prop :=
  (index_reads t <= 1)%nat /\ (index_writes t <= 1)%nat.

(** *** Concrete worlds and configurations *)

Definition no_files : nat -> gmap string Z := fun _ => ∅.

(** A gateway that accepts every message and every upload. *)
Definition E_up : env := {|
  files := no_files;
  media_upload_api := fun _ _ => Val "m1"%string;
  create_direct_message := fun _ _ _ _ => Val true;
  random_nat := fun _ => 0%nat;
  strftime_now := fun _ => "2024-01-01 09:00:00"%string
|}.

(** A gateway that refuses every message: the peer does not accept DMs. *)
Definition E_down : env := {|
  files := no_files;
  media_upload_api := fun _ _ => Exc TransportError;
  create_direct_message := fun _ _ _ _ => Exc Forbidden;
  random_nat := fun _ => 0%nat;
  strftime_now := fun _ => "2024-01-01 09:00:00"%string
|}.

(** One image of 6 MB in the images directory. *)
Definition E_big_image : env := {|
  files := fun _ => {[ "images/big.png"%string := 6 * 1024 * 1024 ]};
  media_upload_api := fun _ _ => Val "m1"%string;
  create_direct_message := fun _ _ _ _ => Val true;
  random_nat := fun _ => 0%nat;
  strftime_now := fun _ => "2024-01-01 09:00:00"%string
|}.

Definition fresh_world : world := {| index_file := None; tick := 0 |}.

Definition two_texts (x y : string) : list message :=
  [MDict (Some x) None; MDict (Some y) None].

Definition rotating (uid : string) (ms : list message) : recipient := {|
  user_id := Some uid;
  username := Some uid;
  message_category := None;
  custom_messages := Some ms;
  enabled := Some true
|}.

Definition cfg_of (randomized : bool) (rs : list recipient) : config := {|
  enable_timestamp := Some false;
  randomize_messages := Some randomized;
  images_directory := None;
  max_image_size_mb := None;
  message_templates := None;
  recipients := Some rs
|}.

Definition alice : recipient :=
  rotating "1001" (two_texts "hello" "how are you").

Definition bob : recipient :=
  rotating "1002" (two_texts "good morning" "good evening").

(** The scenario of the specification: three enabled recipients, two
    candidates each, rotation, no timestamp. *)
Definition scenario (a b c a0 a1 b0 b1 c0 c1 : string) : config :=
  cfg_of false [rotating a (two_texts a0 a1);
                rotating b (two_texts b0 b1);
                rotating c (two_texts c0 c1)].

(** A recipient without the ['enabled'] key. *)
Definition carol : recipient := {|
  user_id := Some "1003"%string;
  username := Some "carol"%string;
  message_category := None;
  custom_messages := Some [MStr "hi"];
  enabled := None
|}.


(** A configuration with templates, and recipients for each source. *)
Definition cfg_templates : config := {|
  enable_timestamp := Some false;
  randomize_messages := Some false;
  images_directory := None;
  max_image_size_mb := None;
  message_templates :=
    Some {[ "greeting"%string := [MStr "welcome"; MDict (Some "hey"%string) None] ]};
  recipients := None
|}.

Definition with_category (category : option string)
    (custom : option (list message)) : recipient := {|
  user_id := Some "1005"%string;
  username := None;
  message_category := category;
  custom_messages := custom;
  enabled := None
|}.

End DM.

(** ** dm_sender.py: [DMSender] *)

Module Sender.

(** *** Configuration (config.json) *)

Record user_info := {
  user_id : option string;
  username : option string
}.

(** The keys a dispatch pass reads.  [target_users] is a required section
    ([validate_config] refuses a document without it); the credentials of
    the [twitter] section are only warned about, so they may be missing
    when a message is sent. *)
Record config := {
  message_prompts : option (list string);
  fallback_messages : option (list string);
  image_enabled : option bool;          (* image_settings.enabled *)
  send_probability : option Q;          (* image_settings.send_probability *)
  twitter_credentials : bool;           (* the four keys are present *)
  target_users : list user_info
}.

(** *** Events and world *)

Inductive log_line :=
| Generated (head : string)
| GenerationFailed (e : exn)
| ImageTooBig (size : Z)
| UploadDone (media_id : Z)
| UploadError (e : exn)
| ImageDmSent (user_id : string)
| TextDmSent (user_id : string)
| RateLimited
| Rejected (user_id : string)
| DmError (e : exn)
| BatchStart (now : string)
| TargetCount (n : Z)
| MissingUserId
| ImagePrepared (path : string)
| UploadFallbackText
| UserImageDone (username user_id : string)
| UserTextDone (username user_id : string)
| UserFailed (username user_id : string)
| BatchDone (success total : Z)
| Separator.

Inductive event :=
| Log (lvl : level) (line : log_line)
| GenerateContent (prompt : string)     (* gemini_model.generate_content *)
| MediaUpload (path : string)           (* twitter_api.media_upload *)
| CreateDM (conversation text : string) (media : option Z)
                                        (* client.create_direct_message *)
| Sleep (seconds : Z).

Record world := { tick : nat }.

(** What the process observes of the outside, per observation.
    [get_random_image] only decides which image file, if any, is offered
    for upload; it catches every exception and returns a path or [None],
    so it is taken as an oracle, and its log lines are left out. *)
Record env := {
  files : nat -> gmap string Z;
  generate_content : nat -> string -> result string;   (* response.text *)
  media_upload_api : nat -> string -> result Z;        (* media.media_id *)
  create_direct_message :
    nat -> string -> string -> option Z -> result unit;
  random_nat : nat -> nat;
  random_unit : nat -> Q;                              (* random.random() *)
  get_random_image : nat -> option string;
  strftime_now : nat -> string
}.

Abbreviation M := (prog world event).

Definition default_fallback : list string :=
  ["このメッセージは表示されないはずだよ。https://github.com/coffin399/im64DMSender"%string].

Definition Qlt_bool (a b : Q) : bool := negb (Qle_bool b a).

Section DMSender.
Context (E : env) (cfg : config).

(** **** Primitive effects *)

Definition fresh : M nat :=
  fun w => (Val (tick w), {| tick := S (tick w) |}, []).

Definition log (lvl : level) (l : log_line) : M unit := emit (Log lvl l).

Definition sleep (seconds : Z) : M unit := emit (Sleep seconds).

Definition os_path_getsize (p : string) : M Z :=
  t <- fresh ;;
  match files E t !! p with
  | Some n => ret n
  | None => raise OSError
  end.

Definition random_choice {A} (l : list A) : M A :=
  t <- fresh ;;
  match l !! (random_nat E t mod length l)%nat with
  | Some x => ret x
  | None => raise IndexError
  end.

(** [d[k]] on a key that may be absent. *)
Definition item {A} (o : option A) : M A :=
  match o with
  | Some x => ret x
  | None => raise KeyError
  end.

(** **** generate_message *)
Definition limit_length (message : string) : string :=
  if len message >? 9500 then slice_to 9500 message +:+ "..."
  else message.

(** The body of the [try] block. *)
Definition generate_message_try : M string :=
  prompts <- item (message_prompts cfg) ;;
  selected_prompt <- random_choice prompts ;;
  t <- fresh ;;
  emit (GenerateContent selected_prompt) ;;
  text <- of_result (generate_content E t selected_prompt) ;;
  let message := limit_length (strip text) in
  log Info (Generated (slice_to 50 message)) ;;
  ret message.

Definition fallback_pool : list string :=
  default default_fallback (fallback_messages cfg).

Definition generate_message : M string :=
  try_except generate_message_try
    (fun e =>
       log Error (GenerationFailed e) ;;
       random_choice fallback_pool).

(** **** upload_media *)
Definition upload_media (image_path : string) : M (option Z) :=
  try_except
    (file_size <- os_path_getsize image_path ;;
     if file_size >? 5 * 1024 * 1024 then
       log Warning (ImageTooBig file_size) ;;
       ret None
     else
       t <- fresh ;;
       emit (MediaUpload image_path) ;;
       media_id <- of_result (media_upload_api E t image_path) ;;
       log Info (UploadDone media_id) ;;
       ret (Some media_id))
    (fun e =>
       log Error (UploadError e) ;;
       ret None).

(** **** send_dm_to_user *)
Definition send_dm_to_user (uid message : string) (media_id : option Z)
  : M bool :=
  try_except
    ((if twitter_credentials cfg then ret tt else raise KeyError) ;;
     (if truthy_int media_id then
        t <- fresh ;;
        emit (CreateDM uid message media_id) ;;
        of_result (create_direct_message E t uid message media_id) ;;
        log Info (ImageDmSent uid)
      else
        t <- fresh ;;
        emit (CreateDM uid message None) ;;
        of_result (create_direct_message E t uid message None) ;;
        log Info (TextDmSent uid)) ;;
     ret true)
    (fun e =>
       match e with
       | TooManyRequests =>
           log Warning RateLimited ;;
           sleep 900 ;;
           ret false
       | Forbidden =>
           log Error (Rejected uid) ;;
           ret false
       | _ =>
           log Error (DmError e) ;;
           ret false
       end).

(** **** send_messages_to_all *)
Definition attach_random_image : M (option Z) :=
  if default false (image_enabled cfg) then
    t <- fresh ;;
    if Qlt_bool (random_unit E t) (default (1 # 2)%Q (send_probability cfg))
    then
      t' <- fresh ;;
      match get_random_image E t' with
      | Some (String _ _ as image_path) =>
          media_id <- upload_media image_path ;;
          (if truthy_int media_id then log Info (ImagePrepared image_path)
           else log Warning UploadFallbackText) ;;
          ret media_id
      | _ => ret None
      end
    else ret None
  else ret None.

Definition report (uname uid : string) (media_id : option Z) (sent : bool)
    (success_count : Z) : M Z :=
  if sent then
    (if truthy_int media_id then log Info (UserImageDone uname uid)
     else log Info (UserTextDone uname uid)) ;;
    ret (success_count + 1)
  else
    log Warning (UserFailed uname uid) ;;
    ret success_count.

Definition dispatch_user (success_count : Z) (u : user_info) : M Z :=
  let uid := default ""%string (user_id u) in
  let uname := default "Unknown"%string (username u) in
  if negb (truthy_str (user_id u)) then
    log Warning MissingUserId ;;
    ret success_count
  else
    message <- generate_message ;;
    media_id <- attach_random_image ;;
    sent <- send_dm_to_user uid message media_id ;;
    success_count <- report uname uid media_id sent success_count ;;
    sleep 3 ;;
    ret success_count.

Definition send_messages_to_all : M unit :=
  let users := target_users cfg in
  t <- fresh ;;
  log Info (BatchStart (strftime_now E t)) ;;
  log Info (TargetCount (Z.of_nat (length users))) ;;
  success_count <- fold_each users 0 dispatch_user ;;
  log Info (BatchDone success_count (Z.of_nat (length users))) ;;
  log Info Separator.

End DMSender.

(** *** Observations on a run *)

(** The calls of [client.create_direct_message], in order. *)
Definition sends (t : list event) : list (string * string * option Z) :=
  omap (fun e => match e with
                 | CreateDM u x m => Some (u, x, m)
                 | _ => None
                 end) t.

(** The pauses of the process, in seconds, in order. *)
Definition sleeps (t : list event) : list Z :=
  omap (fun e => match e with
                 | Sleep n => Some n
                 | _ => None
                 end) t.


Definition uid_of (u : user_info) : string := default ""%string (user_id u).

Definition uname_of (u : user_info) : string :=
  default "Unknown"%string (username u).

(** The media id that reaches the request: a falsy id is left out. *)
Definition attached (media_id : option Z) : option Z :=
  if truthy_int media_id then media_id else None.


(** *** The specification's reading of the length bound *)

(** "The producer always returns a string of at most 9503 characters." *)
Definition always_bounded (E : env) (cfg : config) (w : world) : Prop :=
  forall m, outcome (generate_message E cfg w) = Val m -> len m <= 9503.

(** *** Concrete worlds and configurations *)

Fixpoint replicate_char (n : nat) (c : ascii) : string :=
  match n with
  | O => EmptyString
  | S n' => String c (replicate_char n' c)
  end.

(** A fallback message of 9600 characters. *)
Definition long_fallback : string := replicate_char (Z.to_nat 9600) "x"%char.

Definition start : world := {| tick := 0 |}.

(** The generative model is down; the gateway is rate limited. *)
Definition E_limited : env := {|
  files := fun _ => ∅;
  generate_content := fun _ _ => Exc GenerationError;
  media_upload_api := fun _ _ => Exc TransportError;
  create_direct_message := fun _ _ _ _ => Exc TooManyRequests;
  random_nat := fun _ => 0%nat;
  random_unit := fun _ => (1 # 1)%Q;
  get_random_image := fun _ => None;
  strftime_now := fun _ => "2024-01-01 09:00:00"%string
|}.

(** The generative model answers a short text, padded with blanks. *)
Definition E_chatty : env := {|
  files := fun _ => ∅;
  generate_content := fun _ _ => Val "  hello there  "%string;
  media_upload_api := fun _ _ => Exc TransportError;
  create_direct_message := fun _ _ _ _ => Val tt;
  random_nat := fun _ => 0%nat;
  random_unit := fun _ => (1 # 1)%Q;
  get_random_image := fun _ => None;
  strftime_now := fun _ => "2024-01-01 09:00:00"%string
|}.

Definition cfg_with (fallback : option (list string))
    (users : list user_info) : config := {|
  message_prompts := Some ["say hello"%string];
  fallback_messages := fallback;
  image_enabled := None;
  send_probability := None;
  twitter_credentials := true;
  target_users := users
|}.

Definition erin : user_info :=
  {| user_id := Some "2001"%string; username := Some "erin"%string |}.

Definition frank : user_info :=
  {| user_id := Some "2002"%string; username := Some "frank"%string |}.

End Sender.

(** ** Further observations on the scheduler *)

Module DMObs.
Import DM.

(** The pauses of the process, in seconds, in order. *)
Definition sleeps (t : list event) : list Z :=
  omap (fun e => match e with
                 | Sleep n => Some n
                 | _ => None
                 end) t.

(** The files offered to [api.media_upload], in order. *)
Definition uploads (t : list event) : list string :=
  omap (fun e => match e with
                 | MediaUpload p => Some p
                 | _ => None
                 end) t.

(** A program that never pauses. *)
Definition no_pause {A} (m : M A) : Prop :=
  forall w, sleeps (trace (m w)) = [].

(** How many recipients of a list pass the guards with a given user id. *)
Definition dispatches (cfg : config) (u : string) (rs : list recipient)
  : nat :=
  length (List.filter
            (fun r => dispatchable cfg r && String.eqb (uid_of r) u) rs).



(** [file_size_mb > max_size] of [upload_media], on a size in bytes. *)
Definition over_ceiling (cfg : config) (size : Z) : bool :=
  Qgt_bool (inject_Z size / inject_Z (1024 * 1024))%Q (max_size_mb cfg).

(** An image of exactly 5 MB, and one a byte larger. *)
Definition E_edge : env := {|
  files := fun _ => {[ "images/edge.png"%string := 5 * 1024 * 1024;
                       "images/over.png"%string := 5 * 1024 * 1024 + 1 ]};
  media_upload_api := fun _ _ => Val "m7"%string;
  create_direct_message := fun _ _ _ _ => Val true;
  random_nat := fun _ => 0%nat;
  strftime_now := fun _ => "2024-01-01 09:00:00"%string
|}.

(** A recipient that is switched off. *)
Definition mallory : recipient := {|
  user_id := Some "1009"%string;
  username := Some "mallory"%string;
  message_category := None;
  custom_messages := Some [MStr "psst"];
  enabled := Some false
|}.

(** The same user id configured twice. *)
Definition alice_again : recipient :=
  rotating "1001" (two_texts "one" "two").

(** A configuration whose timestamp option is left out. *)
Definition cfg_default_stamp (rs : list recipient) : config := {|
  enable_timestamp := None;
  randomize_messages := Some false;
  images_directory := None;
  max_image_size_mb := None;
  message_templates := None;
  recipients := Some rs
|}.

End DMObs.

(** ** Further observations on the sender *)

Module SenderObs.
Import Sender.

(** The files offered to [twitter_api.media_upload], in order. *)
Definition uploads (t : list event) : list string :=
  omap (fun e => match e with
                 | MediaUpload p => Some p
                 | _ => None
                 end) t.

(** The per-user success lines of a pass. *)
Definition is_success (e : event) : bool :=
  match e with
  | Log _ (UserImageDone _ _) | Log _ (UserTextDone _ _) => true
  | _ => false
  end.

Definition successes (t : list event) : nat :=
  length (List.filter is_success t).

(** The summary lines of a pass: successes out of target users. *)
Definition reported (t : list event) : list (Z * Z) :=
  omap (fun e => match e with
                 | Log _ (BatchDone n total) => Some (n, total)
                 | _ => None
                 end) t.

(** The users a pass does not skip. *)
Definition with_id (u : user_info) : bool := truthy_str (user_id u).

(** Events that are neither a request, a pause, a success line nor a
    summary line. *)
Definition minor (e : event) : bool :=
  match e with
  | CreateDM _ _ _ | Sleep _ => false
  | Log _ (UserImageDone _ _) | Log _ (UserTextDone _ _)
  | Log _ (BatchDone _ _) => false
  | _ => true
  end.

(** A program all of whose events are minor. *)
Definition unremarkable {A} (m : M A) : Prop :=
  forall w, forallb minor (trace (m w)) = true.

(** What the gateway answers to the request of [send_dm_to_user]. *)
Definition answer (E : env) (uid message : string) (media_id : option Z)
    (w : world) : result unit :=
  create_direct_message E (tick w) uid message (attached media_id).

Definition accepted (r : result unit) : bool :=
  match r with Val _ => true | Exc _ => false end.

Definition cooldown (r : result unit) : list Z :=
  match r with Exc TooManyRequests => [900] | _ => [] end.

(** An image of exactly 5 MB, and one a byte larger. *)
Definition E_sizes : env := {|
  files := fun _ => {[ "edge.png"%string := 5 * 1024 * 1024;
                       "over.png"%string := 5 * 1024 * 1024 + 1 ]};
  generate_content := fun _ _ => Val "hello"%string;
  media_upload_api := fun _ _ => Val 77;
  create_direct_message := fun _ _ _ _ => Val tt;
  random_nat := fun _ => 0%nat;
  random_unit := fun _ => (1 # 1)%Q;
  get_random_image := fun _ => None;
  strftime_now := fun _ => "2024-01-01 09:00:00"%string
|}.

(** A user entry without a user id. *)
Definition nobody : user_info :=
  {| user_id := None; username := Some "nobody"%string |}.

End SenderObs.

(** ** DM.py: [ConfigManager] *)

Module ConfigManager.
Import DM.

(** The values of ['schedule_settings']: integers and booleans. *)
Inductive setting :=
| SInt (n : Z)
| SBool (b : bool).

(** The sections of the configuration document that [validate_config]
    looks at. *)
Record document := {
  api_credentials : option (gmap string string);
  schedule_settings : option (gmap string setting);
  doc_recipients : option (list recipient)
}.

Inductive complaint :=
| MissingField (field : string)
| MissingSubfield (field subfield : string)
| ApiKeyNotSet
| NoRecipients.

Definition required_credentials : list string :=
  ["api_key"; "api_secret"; "access_token"; "access_token_secret"]%string.

Definition placeholder_key : string := "YOUR_API_KEY".

(** The first key of a list that a dict lacks. *)
Fixpoint first_missing {V} (keys : list string) (section : gmap string V)
  : option string :=
  match keys with
  | [] => None
  | k :: keys' =>
      match section !! k with
      | Some _ => first_missing keys' section
      | None => Some k
      end
  end.

(** One round of the loop over [required_fields]. *)
Definition check_field {V} (field : string) (subfields : list string)
    (section : option (gmap string V)) : option complaint :=
  match section with
  | None => Some (MissingField field)
  | Some m =>
      match first_missing subfields m with
      | Some k => Some (MissingSubfield field k)
      | None => None
      end
  end.

(** **** validate_config: the verdict and the lines it logs *)
Definition validate_config (doc : document) : bool * list (level * complaint) :=
  match check_field "api_credentials" required_credentials
          (api_credentials doc) with
  | Some c => (false, [(Error, c)])
  | None =>
      match check_field "schedule_settings" ["interval_hours"%string]
              (schedule_settings doc) with
      | Some c => (false, [(Error, c)])
      | None =>
          match doc_recipients doc with
          | None => (false, [(Error, MissingField "recipients")])
          | Some rs =>
              let creds := default ∅ (api_credentials doc) in
              if bool_decide (creds !! "api_key"%string = Some placeholder_key)
              then (false, [(Error, ApiKeyNotSet)])
              else (true, match rs with
                          | [] => [(Warning, NoRecipients)]
                          | _ :: _ => []
                          end)
          end
      end
  end.

(** **** add_message_template, on the content of the configuration file *)
Definition add_message_template (category : string)
    (messages : list message) (cfg : config) : config := {|
  enable_timestamp := enable_timestamp cfg;
  randomize_messages := randomize_messages cfg;
  images_directory := images_directory cfg;
  max_image_size_mb := max_image_size_mb cfg;
  message_templates :=
    Some (<[category := messages]> (default ∅ (message_templates cfg)));
  recipients := recipients cfg
|}.

(** **** add_recipient, on the content of the configuration file *)
Definition new_recipient (uid uname category : string)
    (custom : option (list message)) : recipient := {|
  user_id := Some uid;
  username := Some uname;
  message_category := Some category;
  custom_messages :=
    Some (if truthy_list custom then default [] custom else []);
  enabled := Some true
|}.

Definition add_recipient (uid uname category : string)
    (custom : option (list message)) (cfg : config) : result config :=
  match recipients cfg with
  | None => Exc KeyError
  | Some rs =>
      Val {| enable_timestamp := enable_timestamp cfg;
             randomize_messages := randomize_messages cfg;
             images_directory := images_directory cfg;
             max_image_size_mb := max_image_size_mb cfg;
             message_templates := message_templates cfg;
             recipients :=
               Some (rs ++ [new_recipient uid uname category custom]) |}
  end.

(** A document with the credentials and the schedule of the template that
    [load_config] writes when there is no file, and an empty recipient
    list. *)
Definition template_document : document := {|
  api_credentials :=
    Some {[ "api_key"%string := "YOUR_API_KEY"%string;
            "api_secret"%string := "YOUR_API_SECRET"%string;
            "access_token"%string := "YOUR_ACCESS_TOKEN"%string;
            "access_token_secret"%string := "YOUR_ACCESS_TOKEN_SECRET"%string;
            "bearer_token"%string := "YOUR_BEARER_TOKEN"%string ]};
  schedule_settings :=
    Some {[ "interval_hours"%string := SInt 6;
            "enable_timestamp"%string := SBool true;
            "randomize_messages"%string := SBool false ]};
  doc_recipients := Some []
|}.

(** The same document once the API key is filled in, the other
    credentials left as they are. *)
Definition keyed_document : document := {|
  api_credentials :=
    Some (<["api_key"%string := "k-123"%string]>
            (default ∅ (api_credentials template_document)));
  schedule_settings := schedule_settings template_document;
  doc_recipients := Some []
|}.

End ConfigManager.

(** ** image_helper.py: [ImageHelper], resizing *)

Module ImageHelper.

(** The two factors the scale is multiplied by: 0.7 and 0.9. *)
Inductive factor := Times07 | Times09.

(** The lines that are printed; a size is kept in bytes. *)
Inductive line :=
| AlreadySmall (size : Z)
| Resizing (new_size : Z * Z) (size : Z)
| Finished (path : string) (size : Z)
| Target (path : string) (size : Z)   (* the file whose name is printed *)
| Validating
| Found (label name : string) (size : Z)
| Missing (label name : string)
| ResultHeader
| FoundCount (n : nat)
| MissingCount (n : nat)
| LargeHeader
| Large (label name : string) (size : Z).

Inductive event :=
| Print (l : line)
| Saved (path : string) (new_size : Z * Z) (quality : Z).
                                        (* resized.save(path, quality=...) *)

(** The files on disk, with their size in bytes; the functions write
    them, so they are part of the world. *)
Record world := {
  disk : gmap string Z;
  tick : nat
}.

(** A key of the configuration file: left out, [null], or a value. *)
Inductive field (A : Type) :=
| Absent
| Null
| Given (a : A).
Arguments Absent {A}.
Arguments Null {A}.
Arguments Given {A} a.

(** The configuration file, as far as [validate_images_in_config] reads
    it: the templates, in the order of the file, and the recipients.  A
    section that has a value is an object of message lists (the templates)
    or a list (the recipients), as in the template file. *)
Record document := {
  message_templates : field (list (string * list DM.message));
  recipients : field (list DM.recipient)
}.

(** [config.get(key, default)]: the default for a key that is left out,
    [None] for a [null]. *)
Definition get_or {A} (f : field A) (d : A) : option A :=
  match f with
  | Absent => Some d
  | Null => None
  | Given a => Some a
  end.

(** The ways out of [validate_images_in_config] that are its own: its
    answer, or the error of using [None] as a dict ([None.items()]) or as
    a list ([for recipient in None]).  The function has no handler and
    nothing follows the error. *)
Inductive way_out :=
| Returned (answer : bool)
| AttributeError
| TypeError.

(** Pillow and pathlib, as far as the functions use them.  The scale is a
    float, [1.0] multiplied by 0.7 or 0.9 at every round: it is kept as the
    list of its factors, oldest first, and [scaled] stands for
    [int(dimension * scale)]. *)
Record env := {
  open_image : nat -> string -> result (Z * Z);   (* Image.open: the size *)
  scaled : Z -> list factor -> Z;
  resize_api : nat -> Z * Z -> result unit;       (* img.resize *)
  save_api : nat -> string -> Z * Z -> Z -> result Z;
                                  (* resized.save: the bytes written *)
  iterdir : nat -> string -> result (list string);
                                  (* Path(directory).iterdir(), as paths *)
  suffix_lower : string -> string;       (* Path(p).suffix.lower() *)
  resized_name : string -> string;       (* parent / (stem + '_resized' + suffix) *)
  json_load : nat -> string -> result document
                                  (* open(config_file), json.load *)
}.

Abbreviation M := (prog world event).

(** A size in bytes, in MB: [size / (1024 * 1024)].  The division is a
    float division by a power of two, exact for every size below 2^53, and
    doubling a limit is exact as well: the comparisons of the code are the
    same comparisons on rationals. *)
Definition mb (size : Z) : Q := (inject_Z size / inject_Z (1024 * 1024))%Q.

(** [mb size > limit] *)
Definition over (size : Z) (limit : Q) : bool :=
  negb (Qle_bool (mb size) limit).

Definition supported_formats : list string :=
  [".jpg"; ".jpeg"; ".png"; ".gif"; ".webp"]%string.

Section Resizing.
Context (E : env).

Definition fresh : M nat :=
  fun w => (Val (tick w), {| disk := disk w; tick := S (tick w) |}, []).

Definition print (l : line) : M unit := emit (Print l).

Definition os_path_getsize (p : string) : M Z :=
  w <- get ;;
  match disk w !! p with
  | Some n => ret n
  | None => raise OSError
  end.

(** [resized.save(output_path, quality=quality, optimize=True)] *)
Definition save (path : string) (new_size : Z * Z) (quality : Z) : M unit :=
  t <- fresh ;;
  written <- of_result (save_api E t path new_size quality) ;;
  w <- get ;;
  put {| disk := <[path := written]> (disk w); tick := tick w |} ;;
  emit (Saved path new_size quality).

(** **** resize_image: the [while] loop

    The loop stops by itself, since the quality goes down by 5 at every
    round; [fuel] bounds the rounds, and [None] tells that it ran out. *)
Fixpoint shrink (fuel : nat) (img : Z * Z) (output_path : string)
    (max_size_mb : Q) (current_size : Z) (quality : Z) (scale : list factor)
  : M (option Z) :=
  if over current_size max_size_mb && (20 <? quality) then
    match fuel with
    | O => ret None
    | S fuel' =>
        let scale :=
          scale ++ [if over current_size (max_size_mb * (2 # 1))%Q
                    then Times07 else Times09] in
        let new_size := (scaled E img.1 scale, scaled E img.2 scale) in
        t <- fresh ;;
        of_result (resize_api E t new_size) ;;
        save output_path new_size quality ;;
        current_size <- os_path_getsize output_path ;;
        print (Resizing new_size current_size) ;;
        shrink fuel' img output_path max_size_mb current_size (quality - 5)
          scale
    end
  else ret (Some current_size).

(** **** resize_image *)
Definition resize_image_fuel (fuel : nat) (input_path : string)
    (output_path : option string) (max_size_mb : Q) : M (option unit) :=
  let output_path :=
    if truthy_str output_path then default ""%string output_path
    else resized_name E input_path in
  t <- fresh ;;
  img <- of_result (open_image E t input_path) ;;
  current_size <- os_path_getsize input_path ;;
  if Qle_bool (mb current_size) max_size_mb then
    print (AlreadySmall current_size) ;;
    ret (Some tt)
  else
    final_size <- shrink fuel img output_path max_size_mb current_size 95 [] ;;
    match final_size with
    | Some size =>
        print (Finished output_path size) ;;
        ret (Some tt)
    | None => ret None
    end.

(** Fifteen rounds are all the loop can make from quality 95. *)
Definition resize_image : string -> option string -> Q -> M (option unit) :=
  resize_image_fuel 15.

(** **** batch_resize_images *)
Definition batch_file (max_size_mb : Q) (file_path : string) : M unit :=
  if existsb (String.eqb (suffix_lower E file_path)) supported_formats then
    file_size <- os_path_getsize file_path ;;
    if over file_size max_size_mb then
      print (Target file_path file_size) ;;
      resize_image file_path None (5 # 1)%Q ;;
      ret tt
    else ret tt
  else ret tt.

Definition batch_resize_images (directory : string) (max_size_mb : Q)
  : M unit :=
  t <- fresh ;;
  files <- of_result (iterdir E t directory) ;;
  for_each files (batch_file max_size_mb).

End Resizing.

(** **** validate_images_in_config *)

(** [isinstance(msg, dict) and msg.get('image')], and then
    [msg['image']]. *)
Definition image_of (msg : DM.message) : option string :=
  match msg with
  | DM.MDict _ image => if truthy_str image then image else None
  | DM.MStr _ => None
  end.

(** [found_images] and [missing_images] *)
Definition lists : Type := list (string * string * Z) * list (string * string).

Section Validation.
Context (E : env).

Definition os_path_exists (p : string) : M bool :=
  w <- get ;;
  ret (bool_decide (is_Some (disk w !! p))).

(** The body that both inner loops run for a message with an image. *)
Definition check_image (images_dir label image_name : string) (acc : lists)
  : M lists :=
  let image_path := path_join images_dir image_name in
  ex <- os_path_exists image_path ;;
  if ex : bool then
    size <- os_path_getsize image_path ;;
    print (Found label image_name size) ;;
    ret (acc.1 ++ [(label, image_name, size)], acc.2)
  else
    print (Missing label image_name) ;;
    ret (acc.1, acc.2 ++ [(label, image_name)]).

(** [for msg in messages: ...] *)
Definition check_messages (images_dir label : string)
    (messages : list DM.message) (acc : lists) : M lists :=
  fold_each messages acc
    (fun acc msg =>
       match image_of msg with
       | Some image_name => check_image images_dir label image_name acc
       | None => ret acc
       end).

Definition check_recipient (images_dir : string) (acc : lists)
    (recipient : DM.recipient) : M lists :=
  if DM.truthy_list (DM.custom_messages recipient) then
    let username := default "Unknown"%string (DM.username recipient) in
    check_messages images_dir ("user:" ++ username)%string
      (default [] (DM.custom_messages recipient)) acc
  else ret acc.

(** The summary, the warning about the large images, and the answer. *)
Definition summarize (acc : lists) : M way_out :=
  let found_images := acc.1 in
  let missing_images := acc.2 in
  print ResultHeader ;;
  print (FoundCount (length found_images)) ;;
  print (MissingCount (length missing_images)) ;;
  let large_images :=
    List.filter (fun x => over x.2 (5 # 1)%Q) found_images in
  (match large_images with
   | _ :: _ =>
       print LargeHeader ;;
       for_each large_images (fun x => print (Large x.1.1 x.1.2 x.2))
   | [] => ret tt
   end) ;;
  ret (Returned (Nat.eqb (length missing_images) 0)).

(** The images of the recipients' own messages, and what follows. *)
Definition check_custom_messages (images_dir : string) (config : document)
    (acc : lists) : M way_out :=
  match get_or (recipients config) [] with
  | None => ret TypeError
  | Some recipients =>
      acc <- fold_each recipients acc (check_recipient images_dir) ;;
      summarize acc
  end.

(** The function is cut at the comments of the source: the images of the
    templates, the images of the recipients' own messages, the summary. *)
Definition validate_images_in_config (config_file images_dir : string)
  : M way_out :=
  print Validating ;;
  t <- fresh ;;
  config <- of_result (json_load E t config_file) ;;
  match get_or (message_templates config) [] with
  | None => ret AttributeError
  | Some templates =>
      acc <- fold_each templates (([], []) : lists)
               (fun acc entry =>
                  check_messages images_dir entry.1 entry.2 acc) ;;
      check_custom_messages images_dir config acc
  end.

End Validation.

(** *** Observations on a run *)

(** The images that a validation reports, found or missing, in order. *)
Definition reported (t : list event) : list (string * string) :=
  omap (fun e => match e with
                 | Print (Found l n _) | Print (Missing l n) => Some (l, n)
                 | _ => None
                 end) t.

(** The images that a message list refers to, under a label. *)
Definition message_refs (label : string) (messages : list DM.message)
  : list (string * string) :=
  (fun n => (label, n)) <$> omap image_of messages.

Definition recipient_refs (r : DM.recipient) : list (string * string) :=
  if DM.truthy_list (DM.custom_messages r) then
    message_refs ("user:" ++ default "Unknown" (DM.username r))%string
      (default [] (DM.custom_messages r))
  else [].

(** The list that a section holds, if any. *)
Definition listed {A} (f : field (list A)) : list A :=
  match f with
  | Given l => l
  | _ => []
  end.

(** The images that the templates refer to. *)
Definition template_references (config : document)
  : list (string * string) :=
  flat_map (fun entry => message_refs entry.1 entry.2)
    (listed (message_templates config)).

(** Every image that a configuration refers to: the templates first, then
    the recipients' own messages. *)
Definition references (config : document) : list (string * string) :=
  template_references config
  ++ flat_map recipient_refs (listed (recipients config)).

(** Is the image of a reference in the directory? *)
Definition present (d : gmap string Z) (images_dir : string)
    (ref : string * string) : bool :=
  bool_decide (is_Some (d !! path_join images_dir ref.2)).

(** The two lists after a run over some references. *)
Definition found_of (d : gmap string Z) (images_dir : string)
    (refs : list (string * string)) : list (string * string * Z) :=
  omap (fun ref => (fun size => (ref.1, ref.2, size))
                   <$> d !! path_join images_dir ref.2) refs.

Definition missing_of (d : gmap string Z) (images_dir : string)
    (refs : list (string * string)) : list (string * string) :=
  List.filter (fun ref => negb (present d images_dir ref)) refs.

(** The two lists, once the images of some references are looked up. *)
Definition extend (d : gmap string Z) (images_dir : string) (acc : lists)
    (refs : list (string * string)) : lists :=
  (acc.1 ++ found_of d images_dir refs, acc.2 ++ missing_of d images_dir refs).

(** A step of the validation that looks up the given references: it
    reports each of them, extends the two lists, and leaves the world as
    it is. *)
Definition checks (images_dir : string) (refs : list (string * string))
    (acc : lists) (m : M lists) : Prop :=
  forall w, exists t,
    m w = (Val (extend (disk w) images_dir acc refs), w, t)
    /\ reported t = refs.

(** The qualities of the saves, in order. *)
Definition qualities (t : list event) : list Z :=
  omap (fun e => match e with
                 | Saved _ _ q => Some q
                 | _ => None
                 end) t.

(** The files that are announced as resize targets, in order. *)
Definition targets (t : list event) : list string :=
  omap (fun e => match e with
                 | Print (Target p _) => Some p
                 | _ => None
                 end) t.

(** The qualities of [k] rounds that start at quality [q]: q, q - 5, ... *)
Definition descending (q : Z) (k : nat) : list Z :=
  (fun i => q - 5 * Z.of_nat i) <$> seq 0 k.

(** No file on disk is above 5 MB. *)
Definition all_small (w : world) : Prop :=
  forall p size, disk w !! p = Some size -> size <= 5 * 1024 * 1024.

(** A program that, on a disk without a file above 5 MB, saves nothing
    and leaves the disk as it is. *)
Definition harmless {A} (m : M A) : Prop :=
  forall w, all_small w ->
            qualities (trace (m w)) = [] /\ disk (final (m w)) = disk w.

(** Every resize and every save succeeds, and leaves a file above the
    limit. *)
Definition never_small_enough (E : env) (limit : Q) : Prop :=
  (forall t new_size, resize_api E t new_size = Val tt)
  /\ forall t path new_size quality,
       exists written, save_api E t path new_size quality = Val written
                       /\ over written limit = true.

(** *** Concrete worlds *)

(** A format that does not compress: every save writes 9 MB. *)
Definition E_stubborn : env := {|
  open_image := fun _ _ => Val (4000, 3000);
  scaled := fun d _ => d;
  resize_api := fun _ _ => Val tt;
  save_api := fun _ _ _ _ => Val (9 * 1024 * 1024);
  iterdir := fun _ _ => Val ["photos/a.jpg"; "photos/notes.txt"]%string;
  suffix_lower := fun p => if String.eqb p "photos/a.jpg" then ".jpg"%string
                           else ".txt"%string;
  resized_name := fun _ => "photos/a_resized.jpg"%string;
  json_load := fun _ _ => Exc OSError
|}.

(** A 3 MB picture and a text file. *)
Definition shelf : world := {|
  disk := {[ "photos/a.jpg"%string := 3 * 1024 * 1024;
             "photos/notes.txt"%string := 10 ]};
  tick := 0
|}.

(** A 12 MB picture. *)
Definition heavy : world := {|
  disk := {[ "photos/a.jpg"%string := 12 * 1024 * 1024 ]};
  tick := 0
|}.

(** A configuration with two images in a template and one in a
    recipient's own messages. *)
Definition album : document := {|
  message_templates :=
    Given [("greeting"%string,
           [DM.MDict (Some "good morning"%string) (Some "morning.jpg"%string);
            DM.MDict (Some "hello"%string) None;
            DM.MStr "hi";
            DM.MDict None (Some "sun.png"%string)])];
  recipients :=
    Given [DM.alice;
          {| DM.user_id := Some "1002"%string;
             DM.username := Some "bob"%string;
             DM.message_category := None;
             DM.custom_messages :=
               Some [DM.MDict (Some "for you"%string)
                       (Some "special.png"%string)];
             DM.enabled := None |}]
|}.

Definition E_album : env := {|
  open_image := fun _ _ => Exc OSError;
  scaled := fun d _ => d;
  resize_api := fun _ _ => Val tt;
  save_api := fun _ _ _ _ => Exc OSError;
  iterdir := fun _ _ => Val [];
  suffix_lower := fun _ => ""%string;
  resized_name := fun p => p;
  json_load := fun _ p =>
    if String.eqb p "config.json" then Val album
    else Val {| message_templates := Given []; recipients := Null |}
|}.

(** All three images, the first one of 6 MB. *)
Definition full_album : world := {|
  disk := {[ "images/morning.jpg"%string := 6 * 1024 * 1024;
             "images/sun.png"%string := 1000;
             "images/special.png"%string := 2000 ]};
  tick := 0
|}.

(** The recipient's image is not there. *)
Definition partial_album : world := {|
  disk := {[ "images/morning.jpg"%string := 6 * 1024 * 1024;
             "images/sun.png"%string := 1000 ]};
  tick := 0
|}.

End ImageHelper.

(** ** DM.py: [MediaManager] *)

Module MediaManager.

Inductive log_line :=
| ImageTooLarge (path : string) (size : Z)
| UnsupportedFormat (extension : string).

Inductive event := Log (lvl : level) (line : log_line).

Record world := { tick : nat }.

Abbreviation M := (prog world event).

Definition supported_formats : list string :=
  ["jpg"; "jpeg"; "png"; "gif"; "webp"]%string.

Section Validation.
(** The files are those of the scheduler's environment; [extension_of]
    stands for [Path(p).suffix[1:].lower()]. *)
Context (E : DM.env) (extension_of : string -> string).

Definition fresh : M nat :=
  fun w => (Val (tick w), {| tick := S (tick w) |}, []).

Definition os_path_exists (p : string) : M bool :=
  t <- fresh ;;
  ret (bool_decide (is_Some (DM.files E t !! p))).

Definition os_path_getsize (p : string) : M Z :=
  t <- fresh ;;
  match DM.files E t !! p with
  | Some n => ret n
  | None => raise OSError
  end.

(** **** validate_image *)
Definition validate_image (image_path : string) (max_size_mb : Q) : M bool :=
  ex <- os_path_exists image_path ;;
  if negb ex then ret false
  else
    size <- os_path_getsize image_path ;;
    let file_size_mb := (inject_Z size / inject_Z (1024 * 1024))%Q in
    if DM.Qgt_bool file_size_mb max_size_mb then
      emit (Log Warning (ImageTooLarge image_path size)) ;;
      ret false
    else
      let extension := extension_of image_path in
      if negb (existsb (String.eqb extension) supported_formats) then
        emit (Log Warning (UnsupportedFormat extension)) ;;
        ret false
      else ret true.

End Validation.

(** The part of a path after its last dot, for the paths of the examples. *)
Definition ext3 (p : string) : string :=
  String.substring (String.length p - 3) 3 p.

End MediaManager.

(** ** dm_sender.py: [DMSender.validate_config] *)

Module SenderConfig.

(** The configuration document, as far as [validate_config] reads it.  The
    sections have the types of the example file; an absent key is
    [None]. *)
Record image_section := {
  enabled : option bool;
  folder_path : option string
}.

Record document := {
  twitter : option (gmap string string);
  gemini : option (gmap string string);
  target_users : option (list Sender.user_info);
  image_settings : option image_section
}.

Inductive log_line :=
| TwitterIncomplete (key : string)
| GeminiIncomplete
| NoTargetUsers
| SampleUserId (username : string)
| FolderMissing (path : string)
| FolderCreated (path : string)
| FolderFailed (e : exn)
| ValidationDone.

Inductive event :=
| Log (lvl : level) (line : log_line)
| MakeDirs (path : string).            (* os.makedirs *)

Record world := { tick : nat }.

Abbreviation M := (prog world event).

(** The two ways out of [validate_config]: [raise ValueError(...)] with the
    missing sections, which comes before every other effect, or the end of
    the function. *)
Inductive verdict :=
| ValueError (missing_sections : list string)
| Validated.

Definition required_sections : list string :=
  ["twitter"; "gemini"; "target_users"]%string.

Definition twitter_keys : list string :=
  ["consumer_key"; "consumer_secret"; "access_token";
   "access_token_secret"]%string.

Definition sample_ids : list string := ["123456789"; "987654321"]%string.

Definition given {A} (o : option A) : bool :=
  match o with
  | Some _ => true
  | None => false
  end.

(** [section in config] *)
Definition has_section (config : document) (section : string) : bool :=
  if String.eqb section "twitter" then given (twitter config)
  else if String.eqb section "gemini" then given (gemini config)
  else if String.eqb section "target_users" then given (target_users config)
  else if String.eqb section "image_settings" then
    given (image_settings config)
  else false.

Section Validation.
(** [os.path.exists] and [os.makedirs], per observation. *)
Context (path_exists : nat -> string -> bool)
        (makedirs : nat -> string -> result unit).

Definition fresh : M nat :=
  fun w => (Val (tick w), {| tick := S (tick w) |}, []).

Definition log (lvl : level) (l : log_line) : M unit := emit (Log lvl l).

Definition os_path_exists (p : string) : M bool :=
  t <- fresh ;;
  ret (path_exists t p).

(** [d[k]] *)
Definition getitem {V} (d : option V) : M V :=
  match d with
  | Some v => ret v
  | None => raise KeyError
  end.

(** [not d.get(key) or d[key].startswith('YOUR_')] *)
Definition unset (d : gmap string string) (key : string) : M bool :=
  if negb (truthy_str (d !! key)) then ret true
  else
    v <- getitem (d !! key) ;;
    ret (String.prefix "YOUR_" v).

(** The body of the loop over [config['target_users']]. *)
Definition check_user (user : Sender.user_info) : M unit :=
  sample <- (if negb (truthy_str (Sender.user_id user)) then ret true
             else
               uid <- getitem (Sender.user_id user) ;;
               ret (existsb (String.eqb uid) sample_ids)) ;;
  if sample : bool then
    log Warning (SampleUserId (default "Unknown"%string
                                 (Sender.username user)))
  else ret tt.

(** **** validate_config *)
Definition validate_config (config : document) : M verdict :=
  let missing_sections :=
    List.filter (fun section => negb (has_section config section))
      required_sections in
  match missing_sections with
  | _ :: _ => ret (ValueError missing_sections)
  | [] =>
      for_each twitter_keys
        (fun key =>
           section <- getitem (twitter config) ;;
           b <- unset section key ;;
           if b : bool then log Warning (TwitterIncomplete key)
           else ret tt) ;;
      section <- getitem (gemini config) ;;
      b <- unset section "api_key" ;;
      (if b : bool then log Warning GeminiIncomplete else ret tt) ;;
      users <- getitem (target_users config) ;;
      (match users with
       | [] => log Warning NoTargetUsers
       | _ :: _ => for_each users check_user
       end) ;;
      let image_settings :=
        default {| enabled := None; folder_path := None |}
          (image_settings config) in
      (if default false (enabled image_settings) then
         let folder_path :=
           default "./images"%string (folder_path image_settings) in
         ex <- os_path_exists folder_path ;;
         if negb ex then
           log Warning (FolderMissing folder_path) ;;
           try_except
             (t <- fresh ;;
              emit (MakeDirs folder_path) ;;
              of_result (makedirs t folder_path) ;;
              log Info (FolderCreated folder_path))
             (fun e => log Error (FolderFailed e))
         else ret tt
       else ret tt) ;;
      log Info ValidationDone ;;
      ret Validated
  end.

End Validation.

(** *** Observations on a run *)

(** A program that passes the validation: it returns [Validated], its
    last line being the closing one. *)
Definition concludes (m : M verdict) : Prop :=
  forall w, outcome (m w) = Val Validated
            /\ last (trace (m w)) = Some (Log Info ValidationDone).

(** *** Concrete documents *)

(** The three sections as they come in the example file: placeholders for
    every credential, a sample user id. *)
Definition untouched_example : document := {|
  twitter :=
    Some {[ "consumer_key"%string := "YOUR_CONSUMER_KEY"%string;
            "consumer_secret"%string := "YOUR_CONSUMER_SECRET"%string;
            "access_token"%string := "YOUR_ACCESS_TOKEN"%string;
            "access_token_secret"%string
              := "YOUR_ACCESS_TOKEN_SECRET"%string ]};
  gemini := Some {[ "api_key"%string := "YOUR_GEMINI_API_KEY"%string ]};
  target_users :=
    Some [{| Sender.user_id := Some "123456789"%string;
             Sender.username := Some "sample"%string |}];
  image_settings :=
    Some {| enabled := Some true; folder_path := None |}
|}.

(** A document without the generative model's section. *)
Definition no_gemini : document := {|
  twitter := Some ∅;
  gemini := None;
  target_users := Some [];
  image_settings := None
|}.

End SenderConfig.

(** * Properties *)

(** ** Running programs *)

Module RuntimeFacts.

Section Run.
Context {W Ev : Type}.
Implicit Types w : W.


Lemma outcome_mk {A} (r : result A) w (t : list Ev) : outcome (r, w, t) = r.
Proof. done. Qed.

Lemma final_mk {A} (r : result A) w (t : list Ev) : final (r, w, t) = w.
Proof. done. Qed.

Lemma trace_mk {A} (r : result A) w (t : list Ev) : trace (r, w, t) = t.
Proof. done. Qed.

Lemma bind_val {A B} (m : prog W Ev A) (k : A -> prog W Ev B) w a w1 t1 :
  m w = (Val a, w1, t1) ->
  bind m k w = (outcome (k a w1), final (k a w1), t1 ++ trace (k a w1)).
Proof.
  intros Hm. unfold bind. rewrite Hm.
  by destruct (k a w1) as [[? ?] ?].
Qed.

Lemma bind_exc {A B} (m : prog W Ev A) (k : A -> prog W Ev B) w e w1 t1 :
  m w = (Exc e, w1, t1) -> bind m k w = (Exc e, w1, t1).
Proof. intros Hm. unfold bind. by rewrite Hm. Qed.

Lemma try_val {A} (m : prog W Ev A) h w a w1 t1 :
  m w = (Val a, w1, t1) -> try_except m h w = (Val a, w1, t1).
Proof. intros Hm. unfold try_except. by rewrite Hm. Qed.

Lemma try_exc {A} (m : prog W Ev A) h w e w1 t1 :
  m w = (Exc e, w1, t1) ->
  try_except m h w
  = (outcome (h e w1), final (h e w1), t1 ++ trace (h e w1)).
Proof.
  intros Hm. unfold try_except. rewrite Hm.
  by destruct (h e w1) as [[? ?] ?].
Qed.

Lemma never_raises_run {A} (m : prog W Ev A) w :
  never_raises m -> exists a w1 t1, m w = (Val a, w1, t1).
Proof.
  intros Hm. destruct (Hm w) as [a Ha].
  destruct (m w) as [[r w1] t1]. unfold outcome in Ha. simpl in Ha.
  subst r. eauto.
Qed.

Lemma never_raises_ret {A} (a : A) : never_raises (@ret W Ev A a).
Proof. intros w. by exists a. Qed.

Lemma never_raises_emit (e : Ev) : never_raises (@emit W Ev e).
Proof. intros w. by exists tt. Qed.

Lemma never_raises_get : never_raises (@get W Ev).
Proof. intros w. by exists w. Qed.

Lemma never_raises_put w : never_raises (@put W Ev w).
Proof. intros w'. by exists tt. Qed.

Lemma never_raises_bind {A B} (m : prog W Ev A) (k : A -> prog W Ev B) :
  never_raises m -> (forall a, never_raises (k a)) -> never_raises (bind m k).
Proof.
  intros Hm Hk w.
  destruct (never_raises_run m w Hm) as (a & w1 & t1 & Hrun).
  rewrite (bind_val _ _ _ _ _ _ Hrun). apply Hk.
Qed.

(** A [try] whose handler returns on every exception never raises. *)
Lemma never_raises_try {A} (m : prog W Ev A) h :
  (forall e, never_raises (h e)) -> never_raises (try_except m h).
Proof.
  intros Hh w. destruct (m w) as [[[a|e] w1] t1] eqn:Hm.
  - rewrite (try_val _ _ _ _ _ _ Hm). by exists a.
  - rewrite (try_exc _ _ _ _ _ _ Hm). apply Hh.
Qed.

Lemma never_raises_for_each {A} (l : list A) (body : A -> prog W Ev unit) :
  (forall x, never_raises (body x)) -> never_raises (for_each l body).
Proof.
  intros Hb. induction l as [|x l IH]; simpl.
  - apply never_raises_ret.
  - apply never_raises_bind; auto.
Qed.

(** The trace of a loop whose body never raises is the traces of its
    iterations, one after the other. *)
Lemma for_each_cons_run {A} (x : A) l (body : A -> prog W Ev unit) w :
  never_raises (body x) ->
  for_each (x :: l) body w
  = (outcome (for_each l body (final (body x w))),
     final (for_each l body (final (body x w))),
     trace (body x w) ++ trace (for_each l body (final (body x w)))).
Proof.
  intros Hb. destruct (never_raises_run _ w Hb) as ([] & w1 & t1 & Hrun).
  simpl. rewrite (bind_val _ _ _ _ _ _ Hrun). by rewrite Hrun.
Qed.

End Run.

End RuntimeFacts.

(** ** DM.py *)

Module DMFacts.
Import DM RuntimeFacts.

Lemma loud_app t1 t2 : loud (t1 ++ t2) = loud t1 ++ loud t2.
Proof. apply List.filter_app. Qed.

Lemma loud_idemp t : loud (loud t) = loud t.
Proof.
  unfold loud. induction t as [|e t IH]; simpl; [done|].
  destruct (negb (quiet_event e)) eqn:He; simpl; rewrite ?He, IH; done.
Qed.

(** Every observation of the development only looks at loud events. *)
Lemma sends_loud t : sends (loud t) = sends t.
Proof.
  induction t as [|e t IH]; simpl; [done|].
  destruct e as [lvl []| | | | |]; simpl; rewrite ?IH; done.
Qed.

Lemma send_results_loud t : send_results (loud t) = send_results t.
Proof.
  induction t as [|e t IH]; simpl; [done|].
  destruct e as [lvl []| | | | |]; simpl; rewrite ?IH; done.
Qed.

Lemma count_loud p t :
  (forall e, p e = true -> quiet_event e = false) ->
  count p (loud t) = count p t.
Proof.
  intros Hp. unfold count. induction t as [|e t IH]; simpl; [done|].
  destruct (p e) eqn:Hpe.
  - rewrite (Hp e Hpe). simpl. rewrite Hpe. simpl. by rewrite IH.
  - destruct (negb (quiet_event e)); simpl; rewrite ?Hpe; done.
Qed.

Lemma index_reads_loud t : index_reads (loud t) = index_reads t.
Proof. apply count_loud. by intros []. Qed.

Lemma index_writes_loud t : index_writes (loud t) = index_writes t.
Proof. apply count_loud. by intros []. Qed.

Lemma skip_disabled_loud t :
  count is_skip_disabled (loud t) = count is_skip_disabled t.
Proof. apply count_loud. by intros [? []| | | | |]. Qed.

Lemma count_app p t1 t2 : count p (t1 ++ t2) = (count p t1 + count p t2)%nat.
Proof. unfold count. by rewrite List.filter_app, length_app. Qed.

Lemma index_reads_app t1 t2 :
  index_reads (t1 ++ t2) = (index_reads t1 + index_reads t2)%nat.
Proof. apply count_app. Qed.

Lemma index_writes_app t1 t2 :
  index_writes (t1 ++ t2) = (index_writes t1 + index_writes t2)%nat.
Proof. apply count_app. Qed.

Lemma sends_app t1 t2 : sends (t1 ++ t2) = sends t1 ++ sends t2.
Proof. apply omap_app. Qed.

Lemma attempted_app t1 t2 : attempted (t1 ++ t2) = attempted t1 ++ attempted t2.
Proof. unfold attempted. by rewrite sends_app, fmap_app. Qed.

Lemma send_results_app t1 t2 :
  send_results (t1 ++ t2) = send_results t1 ++ send_results t2.
Proof. apply omap_app. Qed.

(** *** Calm programs *)

Section Calm.
Context (E : env) (cfg : config).

Lemma calm_ret {A} (a : A) : calm (ret a).
Proof. by intros w. Qed.

Lemma calm_raise {A} e : calm (@raise world event A e).
Proof. by intros w. Qed.

Lemma calm_emit e : quiet_event e = true -> calm (emit e).
Proof. intros He w. split; [done|]. unfold loud. simpl. by rewrite He. Qed.

Lemma calm_fresh : calm fresh.
Proof. by intros w. Qed.

Lemma calm_of_result {A} (r : result A) : calm (of_result r).
Proof. destruct r; [apply calm_ret | apply calm_raise]. Qed.

Lemma calm_bind {A B} (m : M A) (k : A -> M B) :
  calm m -> (forall a, calm (k a)) -> calm (bind m k).
Proof.
  intros Hm Hk w. destruct (Hm w) as [Hi Ht].
  destruct (m w) as [[[a|e] w1] t1] eqn:Hrun.
  - rewrite (bind_val _ _ _ _ _ _ Hrun). destruct (Hk a w1) as [Hi' Ht'].
    unfold final, trace in *. simpl in *. split; [congruence|].
    by rewrite loud_app, Ht, Ht'.
  - by rewrite (bind_exc _ _ _ _ _ _ Hrun).
Qed.

Lemma calm_try {A} (m : M A) h :
  calm m -> (forall e, calm (h e)) -> calm (try_except m h).
Proof.
  intros Hm Hh w. destruct (Hm w) as [Hi Ht].
  destruct (m w) as [[[a|e] w1] t1] eqn:Hrun.
  - by rewrite (try_val _ _ _ _ _ _ Hrun).
  - rewrite (try_exc _ _ _ _ _ _ Hrun). destruct (Hh e w1) as [Hi' Ht'].
    unfold final, trace in *. simpl in *. split; [congruence|].
    by rewrite loud_app, Ht, Ht'.
Qed.

End Calm.

Lemma never_raises_fresh : never_raises fresh.
Proof. intros w. by exists (tick w). Qed.

Ltac calm_step :=
  first [ apply calm_ret | apply calm_raise | apply calm_fresh
        | apply calm_of_result
        | apply calm_emit; reflexivity
        | apply calm_bind; [|intros ?]
        | apply calm_try; [|intros ?]
        | progress unfold log, sleep
        | case_match ].
Ltac solve_calm := repeat calm_step.

Ltac total_step :=
  first [ apply never_raises_ret | apply never_raises_fresh
        | apply never_raises_emit | apply never_raises_get
        | apply never_raises_put
        | apply never_raises_try; intros ?
        | apply never_raises_bind; [|intros ?]
        | progress unfold log, sleep
        | case_match ].
Ltac solve_total := repeat total_step.

(** *** The phases of an iteration that do not touch the store *)

Section Phases.
Context (E : env) (cfg : config).

Lemma calm_os_path_exists p : calm (os_path_exists E p).
Proof. unfold os_path_exists. solve_calm. Qed.

Lemma calm_os_path_getsize p : calm (os_path_getsize E p).
Proof. unfold os_path_getsize. solve_calm. Qed.

Lemma calm_random_choice {A} (l : list A) : calm (random_choice E l).
Proof. unfold random_choice. solve_calm. Qed.

Lemma calm_index {A} (l : list A) i : calm (index l i).
Proof. unfold index. solve_calm. Qed.

Lemma calm_upload_media p : calm (upload_media E cfg p).
Proof.
  unfold upload_media.
  apply calm_try; [|intros ?; solve_calm].
  apply calm_bind; [apply calm_os_path_exists|intros ex].
  destruct ex; simpl; [|solve_calm].
  apply calm_bind; [apply calm_os_path_getsize|intros size].
  solve_calm.
Qed.

Lemma calm_get_image_path f : calm (get_image_path E cfg f).
Proof.
  unfold get_image_path. destruct (negb (truthy_str f)); [solve_calm|].
  apply calm_bind; [apply calm_os_path_exists|intros ex].
  destruct ex; [solve_calm|].
  apply calm_bind; [apply calm_os_path_exists|intros ex'].
  destruct ex'; solve_calm.
Qed.

Lemma calm_process_image md : calm (process_image E cfg md).
Proof.
  unfold process_image. destruct md as [s|text image]; [solve_calm|].
  destruct (truthy_str image); [|solve_calm].
  apply calm_bind; [apply calm_get_image_path|intros path].
  destruct (truthy_str path); [apply calm_upload_media|solve_calm].
Qed.

Lemma calm_add_timestamp x : calm (add_timestamp E cfg x).
Proof. unfold add_timestamp. solve_calm. Qed.

Lemma never_raises_os_path_exists p : never_raises (os_path_exists E p).
Proof. unfold os_path_exists. solve_total. Qed.

(** [upload_media] returns on every path and every world: whatever goes
    wrong inside is caught and answered with [None]. *)
Lemma never_raises_upload_media p : never_raises (upload_media E cfg p).
Proof. unfold upload_media. solve_total. Qed.

Lemma never_raises_get_image_path f : never_raises (get_image_path E cfg f).
Proof.
  unfold get_image_path. destruct (negb (truthy_str f)); [solve_total|].
  apply never_raises_bind; [apply never_raises_os_path_exists|intros ex].
  destruct ex; [solve_total|].
  apply never_raises_bind; [apply never_raises_os_path_exists|intros ex'].
  destruct ex'; solve_total.
Qed.

Lemma never_raises_process_image md : never_raises (process_image E cfg md).
Proof.
  unfold process_image. destruct md as [s|text image]; [solve_total|].
  destruct (truthy_str image); [|solve_total].
  apply never_raises_bind; [apply never_raises_get_image_path|intros path].
  destruct (truthy_str path); [apply never_raises_upload_media|solve_total].
Qed.

Lemma never_raises_add_timestamp x : never_raises (add_timestamp E cfg x).
Proof. unfold add_timestamp. solve_total. Qed.

End Phases.

(** *** Sending *)

Section Sending.
Context (E : env) (cfg : config).

Lemma calm_total_run {A} (m : M A) w :
  calm m -> never_raises m ->
  exists a w' t, m w = (Val a, w', t)
                 /\ index_file w' = index_file w /\ loud t = [].
Proof.
  intros Hc Ht. destruct (never_raises_run m w Ht) as (a & w' & t & Hrun).
  destruct (Hc w) as [Hi Hl]. rewrite Hrun in Hi, Hl.
  exists a, w', t. auto.
Qed.

(** [send_dm] always returns; it issues exactly one request, and answers
    [True] exactly when the request returned data. *)
Lemma send_dm_run uid msg media w :
  exists b t,
    send_dm E uid msg media w
    = (Val b, {| index_file := index_file w; tick := S (tick w) |}, t)
    /\ loud t = [CreateDM uid msg (attached media)]
    /\ (b = true <->
        create_direct_message E (tick w) uid msg (attached media) = Val true).
Proof.
  unfold send_dm, try_except, bind, fresh, emit, of_result, log, attached.
  simpl.
  destruct (create_direct_message E (tick w) uid msg _) as [[|]|e]; simpl.
  - exists true. eexists. split; [reflexivity|]. by split.
  - exists false. eexists. split; [reflexivity|]. split; [done|].
    split; intros; done.
  - exists false. destruct e; simpl;
      (eexists; split; [reflexivity|]; split; [done|]; split; intros; done).
Qed.

Lemma deliver_run uid uname full media w :
  exists b t,
    deliver E uid uname full media w
    = (Val tt, {| index_file := index_file w; tick := S (tick w) |}, t)
    /\ loud t = [CreateDM uid full (attached media); report_line uname uid b]
    /\ (b = true <->
        create_direct_message E (tick w) uid full (attached media) = Val true).
Proof.
  destruct (send_dm_run uid full media w) as (b & t & Hrun & Hl & Hb).
  exists b. unfold deliver. rewrite (bind_val _ _ _ _ _ _ Hrun).
  destruct b; (eexists; split; [reflexivity|]; split; [|done]);
    by rewrite loud_app, Hl.
Qed.

End Sending.

(** *** Message selection *)

Section Selection.
Context (E : env) (cfg : config).

Lemma rotation_index_in_range (ms : list message) (c : Z) :
  ms <> [] -> is_Some (ms !! Z.to_nat (c `mod` Z.of_nat (length ms))).
Proof.
  intros Hne. apply lookup_lt_is_Some.
  assert (0 < Z.of_nat (length ms)) as Hlen
    by (destruct ms; [done|simpl; lia]).
  pose proof (Z.mod_pos_bound c _ Hlen). lia.
Qed.

(** Rotation: the candidate at [cursor mod length] is selected and the
    cursor is rewritten to [cursor + 1] at once. *)
Lemma select_message_rotate uid ms w :
  randomize cfg = false -> ms <> [] ->
  exists md,
    select_message E cfg uid ms w
    = (Val md, {| index_file := Some (advance w uid); tick := tick w |},
       rotation_io w uid)
    /\ ms !! Z.to_nat (cursor w uid `mod` Z.of_nat (length ms)) = Some md.
Proof.
  intros Hr Hne.
  destruct (rotation_index_in_range ms (cursor w uid) Hne) as [md Hmd].
  exists md. split; [|done].
  unfold select_message. rewrite Hr.
  unfold get_message_index, update_message_index, index, rotation_io,
    advance, cursor in *.
  unfold bind, get, put, emit, ret. simpl.
  destruct (index_file w) as [m|] eqn:Hf; simpl in *;
    rewrite ?lookup_empty in *; simpl in *; rewrite Hmd; simpl;
    rewrite Hf; simpl; done.
Qed.

(** Random selection: some candidate of the list, and nothing else. *)
Lemma select_message_random uid ms w :
  randomize cfg = true -> ms <> [] ->
  exists md,
    select_message E cfg uid ms w
    = (Val md, {| index_file := index_file w; tick := S (tick w) |}, [])
    /\ md ∈ ms.
Proof.
  intros Hr Hne. unfold select_message. rewrite Hr.
  unfold random_choice, bind, fresh, ret. simpl.
  assert (is_Some (ms !! (random_nat E (tick w) mod length ms)%nat))
    as [md Hmd].
  { apply lookup_lt_is_Some. apply Nat.mod_upper_bound.
    destruct ms; [done|simpl; lia]. }
  exists md. rewrite Hmd. simpl. split; [done|].
  by eapply list_elem_of_lookup_2.
Qed.

End Selection.

(** *** One iteration of the loop *)

Section Iteration.
Context (E : env) (cfg : config).

(** A recipient stopped by a guard: nothing is read, written or sent. *)
Lemma dispatch_skip r w :
  dispatchable cfg r = false ->
  exists t,
    dispatch_recipient E cfg r w = (Val tt, w, t)
    /\ loud t = if negb (default true (enabled r))
                then [Log Info (SkipDisabled (username r))] else [].
Proof.
  unfold dispatchable, dispatch_recipient. intros Hd.
  destruct (default true (enabled r)); simpl in *; [|by eexists].
  destruct (truthy_str (user_id r)); simpl in *; [|by eexists].
  destruct (get_messages_for_recipient cfg r); [by eexists|done].
Qed.

(** A recipient that passes the guards: a message is selected, the image
    is processed, and one request is sent, whose outcome is reported. *)
Lemma dispatch_send r w :
  dispatchable cfg r = true ->
  let uid := uid_of r in
  let ms := get_messages_for_recipient cfg r in
  exists md full media b w' t,
    dispatch_recipient E cfg r w = (Val tt, w', t)
    /\ index_file w'
       = (if randomize cfg then index_file w else Some (advance w uid))
    /\ loud t
       = (if randomize cfg then [] else rotation_io w uid)
         ++ [CreateDM uid full (attached media);
             report_line (uname_of r) uid b]
    /\ (exists tk, b = true <->
          create_direct_message E tk uid full (attached media) = Val true)
    /\ md ∈ ms
    /\ (randomize cfg = false ->
        ms !! Z.to_nat (cursor w uid `mod` Z.of_nat (length ms)) = Some md)
    /\ (exists w1, outcome (add_timestamp E cfg (message_text_of md) w1)
                   = Val full)
    /\ (exists w2, outcome (process_image E cfg md w2) = Val media).
Proof.
  intros Hd uid ms. unfold dispatchable in Hd.
  apply andb_prop in Hd as [Hd Hms]. apply andb_prop in Hd as [Hen Hid].
  unfold dispatch_recipient. rewrite Hen, Hid. simpl.
  fold uid (uname_of r) ms.
  assert (ms <> []) as Hne by (subst ms; by destruct (get_messages_for_recipient cfg r)).
  destruct ms as [|m0 ms'] eqn:Hmseq; [done|]. rewrite <- Hmseq in *.
  assert (exists md w1 t1,
    select_message E cfg uid ms w = (Val md, w1, t1)
    /\ index_file w1
       = (if randomize cfg then index_file w else Some (advance w uid))
    /\ loud t1 = (if randomize cfg then [] else rotation_io w uid)
    /\ md ∈ ms
    /\ (randomize cfg = false ->
        ms !! Z.to_nat (cursor w uid `mod` Z.of_nat (length ms)) = Some md))
    as (md & w1 & t1 & Hsel & Hi1 & Hl1 & Hin & Hidx).
  { destruct (randomize cfg) eqn:Hr.
    - destruct (select_message_random E cfg uid ms w Hr Hne) as (md & Hrun & Hin).
      exists md. do 2 eexists. split; [exact Hrun|]. by repeat split.
    - destruct (select_message_rotate E cfg uid ms w Hr Hne) as (md & Hrun & Hmd).
      exists md. do 2 eexists. split; [exact Hrun|].
      repeat split; try done.
      + unfold rotation_io. by destruct (index_file w).
      + by eapply list_elem_of_lookup_2. }
  destruct (calm_total_run (add_timestamp E cfg (message_text_of md)) w1
              (calm_add_timestamp E cfg _) (never_raises_add_timestamp E cfg _))
    as (full & w2 & t2 & Hts & Hi2 & Hl2).
  destruct (calm_total_run (process_image E cfg md) w2
              (calm_process_image E cfg _) (never_raises_process_image E cfg _))
    as (media & w3 & t3 & Himg & Hi3 & Hl3).
  destruct (deliver_run E uid (uname_of r) full media w3)
    as (b & t4 & Hdel & Hl4 & Hb).
  exists md, full, media, b. do 2 eexists.
  rewrite (bind_val _ _ _ _ _ _ Hsel); cbv beta.
  rewrite (bind_val _ _ _ _ _ _ Hts); cbv beta.
  rewrite (bind_val _ _ _ _ _ _ Himg); cbv beta.
  change (default ""%string (user_id r)) with uid.
  rewrite Hdel.
  unfold outcome, final, trace. simpl.
  split; [reflexivity|]. split; [by rewrite Hi3, Hi2, Hi1|]. split.
  { rewrite !loud_app, Hl1, Hl2, Hl3, Hl4. done. }
  split; [by exists (tick w3)|]. split; [done|]. split; [done|].
  split; [exists w1; by rewrite Hts | exists w2; by rewrite Himg].
Qed.

End Iteration.

(** *** What one iteration shows *)

Section Observed.
Context (E : env) (cfg : config).

Lemma dispatch_never_raises r : never_raises (dispatch_recipient E cfg r).
Proof.
  intros w. destruct (dispatchable cfg r) eqn:Hd.
  - destruct (dispatch_send E cfg r w Hd)
      as (? & ? & ? & ? & ? & ? & Hrun & _).
    exists tt. by rewrite Hrun.
  - destruct (dispatch_skip E cfg r w Hd) as (? & Hrun & _).
    exists tt. by rewrite Hrun.
Qed.

Lemma rotation_io_sends w uid : sends (rotation_io w uid) = [].
Proof. unfold rotation_io. by destruct (index_file w). Qed.

Lemma rotation_io_results w uid : send_results (rotation_io w uid) = [].
Proof. unfold rotation_io. by destruct (index_file w). Qed.

Lemma rotation_io_writes w uid : index_writes (rotation_io w uid) = 1%nat.
Proof. unfold rotation_io. by destruct (index_file w). Qed.

Lemma rotation_io_reads w uid :
  index_reads (rotation_io w uid) = loads w.
Proof. unfold rotation_io, loads. by destruct (index_file w). Qed.

Lemma rotation_io_skips w uid :
  count is_skip_disabled (rotation_io w uid) = 0%nat.
Proof. unfold rotation_io. by destruct (index_file w). Qed.

Lemma iteration_sends r w :
  dispatchable cfg r = true ->
  exists full media,
    sends (trace (dispatch_recipient E cfg r w))
    = [(uid_of r, full, attached media)].
Proof.
  intros Hd. destruct (dispatch_send E cfg r w Hd)
    as (md & full & media & b & w' & t & Hrun & _ & Hl & _).
  exists full, media. rewrite Hrun. unfold trace. simpl.
  rewrite <- sends_loud, Hl, sends_app.
  destruct (randomize cfg); [|rewrite rotation_io_sends]; by destruct b.
Qed.

Lemma iteration_attempted r w :
  attempted (trace (dispatch_recipient E cfg r w))
  = if dispatchable cfg r then [uid_of r] else [].
Proof.
  unfold attempted. destruct (dispatchable cfg r) eqn:Hd.
  - destruct (iteration_sends r w Hd) as (full & media & ->). done.
  - destruct (dispatch_skip E cfg r w Hd) as (t & Hrun & Hl).
    rewrite Hrun. unfold trace. simpl. rewrite <- sends_loud, Hl.
    by destruct (negb _).
Qed.

Lemma iteration_results r w :
  (fun x => x.1) <$> send_results (trace (dispatch_recipient E cfg r w))
  = if dispatchable cfg r then [uid_of r] else [].
Proof.
  destruct (dispatchable cfg r) eqn:Hd.
  - destruct (dispatch_send E cfg r w Hd)
      as (md & full & media & b & w' & t & Hrun & _ & Hl & _).
    rewrite Hrun. unfold trace. simpl.
    rewrite <- send_results_loud, Hl, send_results_app.
    destruct (randomize cfg); [|rewrite rotation_io_results]; by destruct b.
  - destruct (dispatch_skip E cfg r w Hd) as (t & Hrun & Hl).
    rewrite Hrun. unfold trace. simpl. rewrite <- send_results_loud, Hl.
    by destruct (negb _).
Qed.

Lemma iteration_writes r w :
  index_writes (trace (dispatch_recipient E cfg r w))
  = if dispatchable cfg r && negb (randomize cfg) then 1%nat else 0%nat.
Proof.
  destruct (dispatchable cfg r) eqn:Hd.
  - destruct (dispatch_send E cfg r w Hd)
      as (md & full & media & b & w' & t & Hrun & _ & Hl & _).
    rewrite Hrun. unfold trace. simpl.
    rewrite <- index_writes_loud, Hl. unfold index_writes.
    rewrite count_app. fold index_writes.
    destruct (randomize cfg); [|rewrite rotation_io_writes]; by destruct b.
  - destruct (dispatch_skip E cfg r w Hd) as (t & Hrun & Hl).
    rewrite Hrun. unfold trace. simpl. rewrite <- index_writes_loud, Hl.
    by destruct (negb _).
Qed.

Lemma iteration_reads r w :
  index_reads (trace (dispatch_recipient E cfg r w))
  = if dispatchable cfg r && negb (randomize cfg) then loads w else 0%nat.
Proof.
  destruct (dispatchable cfg r) eqn:Hd.
  - destruct (dispatch_send E cfg r w Hd)
      as (md & full & media & b & w' & t & Hrun & _ & Hl & _).
    rewrite Hrun. unfold trace. simpl.
    rewrite <- index_reads_loud, Hl. unfold index_reads.
    rewrite count_app. fold index_reads.
    destruct (randomize cfg); [|rewrite rotation_io_reads];
      destruct b; unfold index_reads, count; simpl; lia.
  - destruct (dispatch_skip E cfg r w Hd) as (t & Hrun & Hl).
    rewrite Hrun. unfold trace. simpl. rewrite <- index_reads_loud, Hl.
    by destruct (negb _).
Qed.

Lemma iteration_skips r w :
  count is_skip_disabled (trace (dispatch_recipient E cfg r w))
  = if default true (enabled r) then 0%nat else 1%nat.
Proof.
  destruct (dispatchable cfg r) eqn:Hd.
  - destruct (dispatch_send E cfg r w Hd)
      as (md & full & media & b & w' & t & Hrun & _ & Hl & _).
    rewrite Hrun. unfold trace. simpl.
    rewrite <- skip_disabled_loud, Hl, count_app.
    unfold dispatchable in Hd. destruct (default true (enabled r)); [|done].
    destruct (randomize cfg); [|rewrite rotation_io_skips]; by destruct b.
  - destruct (dispatch_skip E cfg r w Hd) as (t & Hrun & Hl).
    rewrite Hrun. unfold trace. simpl. rewrite <- skip_disabled_loud, Hl.
    by destruct (default true (enabled r)).
Qed.

Lemma iteration_store r w :
  index_file (final (dispatch_recipient E cfg r w))
  = if dispatchable cfg r && negb (randomize cfg)
    then Some (advance w (uid_of r)) else index_file w.
Proof.
  destruct (dispatchable cfg r) eqn:Hd.
  - destruct (dispatch_send E cfg r w Hd)
      as (md & full & media & b & w' & t & Hrun & Hi & _).
    rewrite Hrun. unfold final. simpl. rewrite Hi.
    by destruct (randomize cfg).
  - destruct (dispatch_skip E cfg r w Hd) as (t & Hrun & Hl).
    by rewrite Hrun.
Qed.

End Observed.

(** *** The loop over the recipients *)

Section Loop.
Context (E : env) (cfg : config).

Abbreviation body := (dispatch_recipient E cfg).

Lemma loop_step r l w :
  for_each (r :: l) body w
  = (outcome (for_each l body (final (body r w))),
     final (for_each l body (final (body r w))),
     trace (body r w) ++ trace (for_each l body (final (body r w)))).
Proof. apply for_each_cons_run, dispatch_never_raises. Qed.

Lemma loop_returns l w : outcome (for_each l body w) = Val tt.
Proof.
  destruct (never_raises_for_each l body (dispatch_never_raises E cfg) w)
    as [[] H]. exact H.
Qed.

Lemma filter_dispatchable_cons r l :
  uid_of <$> List.filter (dispatchable cfg) (r :: l)
  = (if dispatchable cfg r then [uid_of r] else [])
    ++ (uid_of <$> List.filter (dispatchable cfg) l).
Proof. simpl. by destruct (dispatchable cfg r). Qed.

Lemma loop_attempted l w :
  attempted (trace (for_each l body w))
  = uid_of <$> List.filter (dispatchable cfg) l.
Proof.
  revert w. induction l as [|r l IH]; intros w; [done|].
  rewrite loop_step, filter_dispatchable_cons, trace_mk.
  by rewrite attempted_app, iteration_attempted, IH.
Qed.

Lemma loop_results l w :
  (fun x => x.1) <$> send_results (trace (for_each l body w))
  = uid_of <$> List.filter (dispatchable cfg) l.
Proof.
  revert w. induction l as [|r l IH]; intros w; [done|].
  rewrite loop_step, filter_dispatchable_cons, trace_mk.
  by rewrite send_results_app, fmap_app, iteration_results, IH.
Qed.

Lemma loop_writes l w :
  randomize cfg = false ->
  index_writes (trace (for_each l body w))
  = length (List.filter (dispatchable cfg) l).
Proof.
  intros Hr. revert w. induction l as [|r l IH]; intros w; [done|].
  rewrite loop_step, trace_mk, index_writes_app, iteration_writes, IH, Hr.
  simpl. by destruct (dispatchable cfg r).
Qed.

Lemma loop_reads l w :
  randomize cfg = false ->
  index_reads (trace (for_each l body w))
  = (2 * length (List.filter (dispatchable cfg) l) - (2 - loads w))%nat.
Proof.
  intros Hr. revert w. induction l as [|r l IH]; intros w.
  { simpl. unfold loads. by destruct (index_file w). }
  rewrite loop_step, trace_mk, index_reads_app, iteration_reads, IH, Hr.
  assert (loads (final (body r w))
          = if dispatchable cfg r then 2%nat else loads w) as ->.
  { unfold loads at 1. rewrite iteration_store, Hr.
    by destruct (dispatchable cfg r). }
  cbn [List.filter]. destruct (dispatchable cfg r); cbn [andb negb length];
    unfold loads; destruct (index_file w); lia.
Qed.

Lemma loop_store_untouched l :
  randomize cfg = true -> store_untouched (for_each l body).
Proof.
  intros Hr. induction l as [|r l IH]; intros w; [done|].
  rewrite loop_step, final_mk, trace_mk.
  destruct (IH (final (body r w))) as (Hi & Hrd & Hwr).
  rewrite index_reads_app, index_writes_app, Hi, Hrd, Hwr.
  by rewrite iteration_store, iteration_reads, iteration_writes, Hr,
    andb_false_r.
Qed.

(** The cycle is the loop between two quiet log lines. *)
Lemma cycle_run w :
  send_scheduled_messages E cfg w
  = (Val tt,
     final (for_each (default [] (recipients cfg)) body w),
     Log Info CycleStart
       :: trace (for_each (default [] (recipients cfg)) body w)
       ++ [Log Info CycleDone]).
Proof.
  unfold send_scheduled_messages, bind, log, emit. simpl.
  pose proof (loop_returns (default [] (recipients cfg)) w) as Hret.
  destruct (for_each _ _ w) as [[res w1] t1].
  unfold outcome, final, trace in *. simpl in *. by subst res.
Qed.

Lemma cycle_loud w :
  loud (trace (send_scheduled_messages E cfg w))
  = loud (trace (for_each (default [] (recipients cfg)) body w)).
Proof.
  rewrite cycle_run. unfold trace at 1. simpl.
  change (loud (Log Info CycleStart :: ?t)) with (loud t).
  by rewrite loud_app, app_nil_r.
Qed.

Lemma cycle_store_untouched :
  randomize cfg = true -> store_untouched (send_scheduled_messages E cfg).
Proof.
  intros Hr w.
  destruct (loop_store_untouched (default [] (recipients cfg)) Hr w)
    as (Hi & Hrd & Hwr).
  rewrite <- index_reads_loud, <- index_writes_loud, cycle_loud,
    index_reads_loud, index_writes_loud.
  by rewrite cycle_run, final_mk.
Qed.

Lemma cycles_step n w :
  run_cycles E cfg (S n) w
  = (outcome (run_cycles E cfg n (final (send_scheduled_messages E cfg w))),
     final (run_cycles E cfg n (final (send_scheduled_messages E cfg w))),
     trace (send_scheduled_messages E cfg w)
       ++ trace (run_cycles E cfg n
                   (final (send_scheduled_messages E cfg w)))).
Proof.
  simpl. erewrite bind_val; [|apply cycle_run]. by rewrite cycle_run.
Qed.

Lemma cycles_store_untouched n :
  randomize cfg = true -> store_untouched (run_cycles E cfg n).
Proof.
  intros Hr. induction n as [|n IH]; intros w; [done|].
  rewrite cycles_step, final_mk, trace_mk.
  destruct (IH (final (send_scheduled_messages E cfg w))) as (Hi & Hrd & Hwr).
  destruct (cycle_store_untouched Hr w) as (Hi' & Hrd' & Hwr').
  rewrite index_reads_app, index_writes_app, Hrd, Hwr, Hrd', Hwr'.
  by rewrite Hi, Hi'.
Qed.

End Loop.

(** *** Properties of the dispatch cycle *)

Lemma attempted_loud t : attempted (loud t) = attempted t.
Proof. unfold attempted. by rewrite sends_loud. Qed.

(** C3, failure isolation.  Whatever the gateway and the file system
    answer during a cycle (an upload that fails, a forbidden recipient, a
    rate limit, a transport error, for any recipient and any number of
    them), the cycle returns normally, a send is attempted for every
    recipient that passes the guards, in configuration order, and each of
    them gets its outcome reported: the failure of recipient k stops neither
    the loop nor the process, and recipients k+1..N are still attempted. *)
Theorem failure_isolation (E : env) (cfg : config) (w : world) :
  let run := send_scheduled_messages E cfg w in
  outcome run = Val tt
  /\ attempted (trace run)
     = uid_of <$> List.filter (dispatchable cfg) (default [] (recipients cfg))
  /\ (fun x => x.1) <$> send_results (trace run) = attempted (trace run).
Proof.
  intros run. subst run. split; [by rewrite cycle_run|].
  rewrite <- attempted_loud, <- send_results_loud, cycle_loud,
    attempted_loud, send_results_loud.
  by rewrite loop_attempted, loop_results.
Qed.

(** C6, randomize never mutates the cursor.  Under the Randomize policy,
    after any number of cycles the rotation store is what it was, so the
    cursor of every recipient is unchanged, and the cycles neither loaded
    nor wrote the store. *)
Theorem randomize_leaves_cursor (E : env) (cfg : config) (n : nat)
    (w : world) (uid : string) :
  randomize cfg = true ->
  let run := run_cycles E cfg n w in
  cursor (final run) uid = cursor w uid
  /\ index_file (final run) = index_file w
  /\ index_reads (trace run) = 0%nat
  /\ index_writes (trace run) = 0%nat.
Proof.
  intros Hr run. destruct (cycles_store_untouched E cfg n Hr w)
    as (Hi & Hrd & Hwr).
  unfold cursor. fold run in Hi, Hrd, Hwr. by rewrite Hi.
Qed.

Lemma randomize_leaves_cursor_witness :
  randomize (cfg_of true [alice; bob]) = true
  /\ cursor (final (run_cycles E_up (cfg_of true [alice; bob]) 3
                     fresh_world)) "1001"
     = cursor fresh_world "1001".
Proof.
  split; [reflexivity|].
  apply (randomize_leaves_cursor E_up (cfg_of true [alice; bob]) 3
           fresh_world "1001"). reflexivity.
Defined.

(** C2 as the specification states it fails: in a cycle over two rotating
    recipients the store is written twice (and loaded twice). *)
Lemma store_io_not_batched :
  ~ store_io_batched
      (trace (send_scheduled_messages E_up (cfg_of false [alice; bob])
                fresh_world)).
Proof.
  intros [_ Hw]. rewrite <- index_writes_loud, cycle_loud,
    index_writes_loud, loop_writes in Hw by reflexivity.
  vm_compute in Hw. lia.
Qed.

(** C2, amended.  Under rotation the store is accessed per recipient:
    every recipient that passes the guards has the whole store written
    once, and loaded twice when the file exists (it exists from the first
    write on).  A cycle that dispatches n recipients writes the store n
    times. *)
Theorem store_io_per_recipient (E : env) (cfg : config) (w : world) :
  randomize cfg = false ->
  let t := trace (send_scheduled_messages E cfg w) in
  let n := length (List.filter (dispatchable cfg)
                     (default [] (recipients cfg))) in
  index_writes t = n
  /\ index_reads t = (2 * n - (2 - loads w))%nat.
Proof.
  intros Hr t n. subst t n.
  rewrite <- index_reads_loud, <- index_writes_loud, cycle_loud,
    index_reads_loud, index_writes_loud.
  by rewrite loop_writes, loop_reads.
Qed.

Lemma store_io_per_recipient_witness :
  randomize (cfg_of false [alice; bob]) = false
  /\ index_writes (trace (send_scheduled_messages E_up
                            (cfg_of false [alice; bob]) fresh_world))
     = 2%nat.
Proof.
  split; [reflexivity|].
  apply (store_io_per_recipient E_up (cfg_of false [alice; bob])
           fresh_world). reflexivity.
Defined.

(** C9, a recipient without the ['enabled'] key is enabled.  It is not
    reported as disabled, and a send is attempted for it once it has a user
    id and a message; a recipient is reported as disabled exactly when the
    key is present and false. *)
Theorem enabled_defaults_to_true (E : env) (cfg : config) (r : recipient)
    (w : world) :
  let run := dispatch_recipient E cfg r w in
  (enabled r = None ->
   count is_skip_disabled (trace run) = 0%nat
   /\ (truthy_str (user_id r) = true ->
       get_messages_for_recipient cfg r <> [] ->
       attempted (trace run) = [uid_of r]))
  /\ (count is_skip_disabled (trace run) <> 0%nat <-> enabled r = Some false).
Proof.
  intros run. subst run. rewrite iteration_skips, iteration_attempted.
  split.
  - intros Hen. rewrite Hen. split; [done|]. intros Hid Hms.
    unfold dispatchable. rewrite Hen, Hid. simpl.
    by destruct (get_messages_for_recipient cfg r).
  - destruct (enabled r) as [[|]|]; simpl; split; intros; done.
Qed.

Lemma enabled_defaults_to_true_witness :
  enabled carol = None
  /\ count is_skip_disabled
       (trace (dispatch_recipient E_up (cfg_of false [carol]) carol
                 fresh_world)) = 0%nat
  /\ attempted (trace (dispatch_recipient E_up (cfg_of false [carol]) carol
                         fresh_world)) = ["1003"%string].
Proof.
  destruct (enabled_defaults_to_true E_up (cfg_of false [carol]) carol
              fresh_world) as [H _].
  destruct (H eq_refl) as [H1 H2].
  split; [reflexivity|]. split; [exact H1|]. by apply H2.
Defined.

(** C7, source priority.  A present, non-empty inline list is used; failing
    that, the list of the recipient's category in the template mapping
    (category ['custom'] when the recipient names none); failing that, the
    fixed default list.  Plain strings are normalized to text-only
    messages. *)
Theorem message_source_priority (cfg : config) (r : recipient) :
  let category := default "custom"%string (message_category r) in
  let templates := default ∅ (message_templates cfg) in
  (forall l, custom_messages r = Some l -> l <> [] ->
     get_messages_for_recipient cfg r = normalize <$> l)
  /\ (forall l, truthy_list (custom_messages r) = false ->
       templates !! category = Some l ->
       get_messages_for_recipient cfg r = normalize <$> l)
  /\ (truthy_list (custom_messages r) = false ->
      templates !! category = None ->
      get_messages_for_recipient cfg r = default_messages).
Proof.
  intros category templates. unfold get_messages_for_recipient.
  fold category templates. repeat split.
  - intros l Hl Hne. rewrite Hl. by destruct l.
  - intros l Hc Ht. by rewrite Hc, Ht.
  - intros Hc Ht. by rewrite Hc, Ht.
Qed.

Lemma message_source_priority_witness :
  get_messages_for_recipient cfg_templates
    (with_category (Some "greeting"%string) (Some [MStr "only for you"]))
  = [MDict (Some "only for you"%string) None]
  /\ get_messages_for_recipient cfg_templates
       (with_category (Some "greeting"%string) (Some []))
     = [MDict (Some "welcome"%string) None; MDict (Some "hey"%string) None]
  /\ get_messages_for_recipient cfg_templates
       (with_category (Some "reminder"%string) None)
     = default_messages.
Proof.
  pose proof (message_source_priority cfg_templates
                (with_category (Some "greeting"%string)
                               (Some [MStr "only for you"]))) as (H1 & _ & _).
  pose proof (message_source_priority cfg_templates
                (with_category (Some "greeting"%string) (Some [])))
    as (_ & H2 & _).
  pose proof (message_source_priority cfg_templates
                (with_category (Some "reminder"%string) None)) as (_ & _ & H3).
  split; [|split].
  - by apply (H1 [MStr "only for you"]).
  - by apply (H2 [MStr "welcome"; MDict (Some "hey"%string) None]).
  - by apply H3.
Defined.

(** *** Rotation *)

Lemma cursor_advance w uid : default 0 (advance w uid !! uid) = cursor w uid + 1.
Proof. unfold advance. by rewrite lookup_insert_eq. Qed.

Lemma cursor_advance_ne w uid u :
  uid <> u -> default 0 (advance w uid !! u) = cursor w u.
Proof. intros Hne. unfold advance, cursor. by rewrite lookup_insert_ne. Qed.

Lemma add_timestamp_off E cfg x w :
  enable_timestamp cfg = Some false ->
  add_timestamp E cfg x w = (Val x, w, []).
Proof. intros H. unfold add_timestamp. by rewrite H. Qed.


(** *** Images *)

Section Upload.
Context (E : env) (cfg : config).


End Upload.



(** *** Rotation over text-only candidates, every send accepted *)

Section Plain.
Context (E : env) (cfg : config).
Hypothesis Hrotate : randomize cfg = false.
Hypothesis Hstamp : enable_timestamp cfg = Some false.
Hypothesis Haccept :
  forall tk u x m, create_direct_message E tk u x m = Val true.

Lemma process_image_plain md w :
  no_image md = true -> process_image E cfg md w = (Val None, w, []).
Proof.
  destruct md as [s|text image]; simpl; [done|].
  intros Hno. apply negb_true_iff in Hno. by rewrite Hno.
Qed.

Lemma dispatch_plain r w :
  dispatchable cfg r = true -> plain cfg r = true ->
  exists w' t,
    dispatch_recipient E cfg r w = (Val tt, w', t)
    /\ index_file w' = Some (advance w (uid_of r))
    /\ sends t = [(uid_of r, text_at cfg w r, None)]
    /\ send_results t = [(uid_of r, true)].
Proof.
  intros Hd Hp.
  destruct (dispatch_send E cfg r w Hd)
    as (md & full & media & b & w' & t & Hrun & Hi & Hl & [tk Hb] & Hin
        & Hidx & [w1 Hfull] & [w2 Hmedia]).
  rewrite Hrotate in Hi, Hl. specialize (Hidx Hrotate).
  assert (full = message_text_of md) as ->.
  { rewrite (add_timestamp_off _ _ _ _ Hstamp) in Hfull. by injection Hfull. }
  assert (media = None) as ->.
  { unfold plain in Hp. rewrite forallb_forall in Hp.
    assert (no_image md = true) as Hno
      by (apply Hp; by apply list_elem_of_In).
    rewrite (process_image_plain md w2 Hno) in Hmedia. by injection Hmedia. }
  assert (b = true) as -> by (apply Hb, Haccept).
  exists w', t. split; [done|]. split; [done|].
  assert (text_at cfg w r = message_text_of md) as ->.
  { unfold text_at, candidate_at. by rewrite Hidx. }
  rewrite <- sends_loud, <- send_results_loud, Hl, sends_app,
    send_results_app, rotation_io_sends, rotation_io_results. done.
Qed.

Lemma text_at_cursor w1 w2 r :
  cursor w1 (uid_of r) = cursor w2 (uid_of r) ->
  text_at cfg w1 r = text_at cfg w2 r.
Proof. intros Hc. unfold text_at, candidate_at. by rewrite Hc. Qed.

Lemma loop_plain l w :
  NoDup (uid_of <$> l) ->
  Forall (fun r => dispatchable cfg r = true /\ plain cfg r = true) l ->
  let run := for_each l (dispatch_recipient E cfg) w in
  sends (trace run) = (fun r => (uid_of r, text_at cfg w r, None)) <$> l
  /\ send_results (trace run) = (fun r => (uid_of r, true)) <$> l
  /\ forall u,
       cursor (final run) u
       = if bool_decide (u ∈ uid_of <$> l) then cursor w u + 1
         else cursor w u.
Proof.
  revert w. induction l as [|r l IH]; intros w Hnd Hall run; subst run.
  { by repeat split. }
  rewrite fmap_cons in Hnd. apply NoDup_cons in Hnd as [Hnotin Hnd].
  apply Forall_cons in Hall as [[Hd Hp] Hall].
  destruct (dispatch_plain r w Hd Hp) as (w1 & t1 & Hrun & Hi & Hs & Hres).
  rewrite loop_step, Hrun, !final_mk, !trace_mk.
  destruct (IH w1 Hnd Hall) as (IHs & IHres & IHc).
  assert (forall u, cursor w1 u
                    = if decide (uid_of r = u) then cursor w u + 1
                      else cursor w u) as Hc1.
  { intros u. unfold cursor at 1. rewrite Hi. simpl.
    destruct (decide (uid_of r = u)) as [<-|Hne];
      [apply cursor_advance|by apply cursor_advance_ne]. }
  split; [|split].
  - rewrite sends_app, Hs, IHs, fmap_cons. simpl. f_equal.
    apply Forall_fmap_ext_1, Forall_forall. intros r' Hr'.
    f_equal. f_equal. apply text_at_cursor. rewrite Hc1.
    destruct (decide (uid_of r = uid_of r')) as [Heq|]; [|done].
    exfalso. apply Hnotin. rewrite Heq. by apply list_elem_of_fmap_2.
  - by rewrite send_results_app, Hres, IHres.
  - intros u. rewrite IHc, Hc1, fmap_cons.
    destruct (decide (uid_of r = u)) as [<-|Hne].
    + rewrite (bool_decide_eq_false_2 _ Hnotin).
      by rewrite bool_decide_eq_true_2 by (apply elem_of_cons; by left).
    + destruct (decide (u ∈ uid_of <$> l)) as [Hin|Hout].
      * rewrite (bool_decide_eq_true_2 _ Hin).
        by rewrite bool_decide_eq_true_2 by (apply elem_of_cons; by right).
      * rewrite (bool_decide_eq_false_2 _ Hout).
        by rewrite bool_decide_eq_false_2
          by (apply not_elem_of_cons; by split).
Qed.

Lemma cycle_plain w :
  let rs := default [] (recipients cfg) in
  NoDup (uid_of <$> rs) ->
  Forall (fun r => dispatchable cfg r = true /\ plain cfg r = true) rs ->
  let run := send_scheduled_messages E cfg w in
  sends (trace run) = (fun r => (uid_of r, text_at cfg w r, None)) <$> rs
  /\ send_results (trace run) = (fun r => (uid_of r, true)) <$> rs
  /\ forall u,
       cursor (final run) u
       = if bool_decide (u ∈ uid_of <$> rs) then cursor w u + 1
         else cursor w u.
Proof.
  intros rs Hnd Hall run. subst run.
  destruct (loop_plain rs w Hnd Hall) as (Hs & Hres & Hc).
  rewrite <- sends_loud, <- send_results_loud, cycle_loud, sends_loud,
    send_results_loud.
  rewrite cycle_run, final_mk. done.
Qed.

End Plain.

(** *** The scenario of the specification *)

Section Scenario.
Context (E : env) (a b c a0 a1 b0 b1 c0 c1 : string).
Hypothesis Ha : a <> ""%string.
Hypothesis Hb : b <> ""%string.
Hypothesis Hc : c <> ""%string.
Hypothesis Hab : a <> b.
Hypothesis Hac : a <> c.
Hypothesis Hbc : b <> c.
Hypothesis Haccept :
  forall tk u x m, create_direct_message E tk u x m = Val true.

Abbreviation cfg := (scenario a b c a0 a1 b0 b1 c0 c1).

Lemma text_at_even w u x y :
  cursor w u `mod` 2 = 0 -> text_at cfg w (rotating u (two_texts x y)) = x.
Proof.
  intros Hk. unfold text_at, candidate_at. simpl.
  change (cursor w (uid_of (rotating u (two_texts x y))))
    with (cursor w u).
  change (Z.of_nat 2) with 2. by rewrite Hk.
Qed.

Lemma text_at_odd w u x y :
  cursor w u `mod` 2 = 1 -> text_at cfg w (rotating u (two_texts x y)) = y.
Proof.
  intros Hk. unfold text_at, candidate_at. simpl.
  change (cursor w (uid_of (rotating u (two_texts x y))))
    with (cursor w u).
  change (Z.of_nat 2) with 2. by rewrite Hk.
Qed.

Lemma scenario_cycle w :
  let run := send_scheduled_messages E cfg w in
  sends (trace run)
  = [(a, text_at cfg w (rotating a (two_texts a0 a1)), None);
     (b, text_at cfg w (rotating b (two_texts b0 b1)), None);
     (c, text_at cfg w (rotating c (two_texts c0 c1)), None)]
  /\ send_results (trace run) = [(a, true); (b, true); (c, true)]
  /\ cursor (final run) a = cursor w a + 1
  /\ cursor (final run) b = cursor w b + 1
  /\ cursor (final run) c = cursor w c + 1.
Proof.
  intros run. subst run.
  assert (NoDup (uid_of <$> default [] (recipients cfg))) as Hnd.
  { simpl. repeat (apply NoDup_cons; split); [| |apply not_elem_of_nil|
      apply NoDup_nil_2]; rewrite !not_elem_of_cons;
      repeat split; try done; apply not_elem_of_nil. }
  assert (Forall (fun r => dispatchable cfg r = true /\ plain cfg r = true)
            (default [] (recipients cfg))) as Hall.
  { simpl. repeat constructor; try reflexivity; unfold dispatchable; simpl.
    - by destruct a.
    - by destruct b.
    - by destruct c. }
  destruct (cycle_plain E cfg eq_refl eq_refl Haccept w Hnd Hall)
    as (Hs & Hres & Hcur).
  split; [exact Hs|]. split; [exact Hres|].
  repeat split; rewrite Hcur; simpl;
    rewrite bool_decide_eq_true_2; try done;
    rewrite !elem_of_cons; auto.
Qed.

End Scenario.

(** C8, the rotation scenario.  Three enabled recipients with two
    candidates each, rotation, no timestamp, every send accepted, cursors
    at 0: the first cycle sends candidate 0 to each and leaves every cursor
    at 1; the second sends candidate 1 and leaves every cursor at 2; the
    third sends candidate 0 again, since 2 mod 2 = 0. *)
Theorem rotation_scenario (E : env) (a b c a0 a1 b0 b1 c0 c1 : string)
    (w : world) :
  a <> ""%string -> b <> ""%string -> c <> ""%string ->
  a <> b -> a <> c -> b <> c ->
  (forall tk u x m, create_direct_message E tk u x m = Val true) ->
  cursor w a = 0 -> cursor w b = 0 -> cursor w c = 0 ->
  let cfg := scenario a b c a0 a1 b0 b1 c0 c1 in
  let run1 := send_scheduled_messages E cfg w in
  let run2 := send_scheduled_messages E cfg (final run1) in
  let run3 := send_scheduled_messages E cfg (final run2) in
  (sends (trace run1) = [(a, a0, None); (b, b0, None); (c, c0, None)]
   /\ send_results (trace run1) = [(a, true); (b, true); (c, true)]
   /\ cursor (final run1) a = 1 /\ cursor (final run1) b = 1
   /\ cursor (final run1) c = 1)
  /\ (sends (trace run2) = [(a, a1, None); (b, b1, None); (c, c1, None)]
      /\ send_results (trace run2) = [(a, true); (b, true); (c, true)]
      /\ cursor (final run2) a = 2 /\ cursor (final run2) b = 2
      /\ cursor (final run2) c = 2)
  /\ (sends (trace run3) = [(a, a0, None); (b, b0, None); (c, c0, None)]
      /\ send_results (trace run3) = [(a, true); (b, true); (c, true)]).
Proof.
  intros Ha Hb Hc Hab Hac Hbc Hok Hwa Hwb Hwc cfg run1 run2 run3.
  subst cfg.
  pose proof (scenario_cycle E a b c a0 a1 b0 b1 c0 c1 Ha Hb Hc Hab Hac Hbc
                Hok) as Hcycle.
  destruct (Hcycle w) as (Hs1 & Hr1 & Ha1 & Hb1 & Hc1).
  fold run1 in Hs1, Hr1, Ha1, Hb1, Hc1.
  rewrite Hwa in Ha1. rewrite Hwb in Hb1. rewrite Hwc in Hc1.
  destruct (Hcycle (final run1)) as (Hs2 & Hr2 & Ha2 & Hb2 & Hc2).
  fold run2 in Hs2, Hr2, Ha2, Hb2, Hc2.
  rewrite Ha1 in Ha2. rewrite Hb1 in Hb2. rewrite Hc1 in Hc2.
  destruct (Hcycle (final run2)) as (Hs3 & Hr3 & _).
  fold run3 in Hs3, Hr3.
  rewrite !text_at_even in Hs1 by (by rewrite ?Hwa, ?Hwb, ?Hwc).
  rewrite !text_at_odd in Hs2 by (by rewrite ?Ha1, ?Hb1, ?Hc1).
  rewrite !text_at_even in Hs3 by (by rewrite ?Ha2, ?Hb2, ?Hc2).
  done.
Qed.

Lemma rotation_scenario_witness :
  sends (trace (send_scheduled_messages E_up
                  (scenario "1" "2" "3" "a0" "a1" "b0" "b1" "c0" "c1")
                  fresh_world))
  = [("1"%string, "a0"%string, None); ("2"%string, "b0"%string, None);
     ("3"%string, "c0"%string, None)].
Proof.
  apply (rotation_scenario E_up "1" "2" "3" "a0" "a1" "b0" "b1" "c0" "c1"
           fresh_world); done.
Defined.

End DMFacts.

(** ** dm_sender.py *)

Module SenderFacts.
Import Sender RuntimeFacts.

(** *** Lengths *)

Lemma length_append s1 s2 :
  characters (s1 +:+ s2) = (characters s1 + characters s2)%nat.
Proof.
  induction s1 as [|c s1 IH]; simpl; [done|].
  destruct (continuation c); by rewrite IH.
Qed.

Lemma length_take n s :
  characters (take n s) = Nat.min n (characters s).
Proof.
  revert n. induction s as [|c s IH]; intros n; simpl.
  { by destruct n. }
  destruct (continuation c) eqn:Hc; simpl; rewrite ?Hc.
  - apply IH.
  - destruct n as [|n]; simpl; rewrite ?Hc; [done|]. by rewrite IH.
Qed.

Lemma len_slice_to n s : 0 <= n -> len (slice_to n s) = Z.min n (len s).
Proof. intros Hn. unfold len, slice_to. rewrite length_take. lia. Qed.

Lemma len_append s1 s2 : len (s1 +:+ s2) = len s1 + len s2.
Proof. unfold len. rewrite length_append. lia. Qed.

Lemma limit_length_short s : len s <= 9500 -> limit_length s = s.
Proof.
  intros Hs. unfold limit_length.
  destruct (Z.gtb_spec (len s) 9500); [lia|done].
Qed.

Lemma limit_length_long s :
  len s > 9500 ->
  limit_length s = slice_to 9500 s +:+ "..."
  /\ len (limit_length s) = 9503.
Proof.
  intros Hs. unfold limit_length.
  destruct (Z.gtb_spec (len s) 9500); [|lia]. split; [done|].
  rewrite len_append, len_slice_to by lia.
  change (len "...") with 3. lia.
Qed.

Lemma len_limit_length s : len (limit_length s) <= 9503.
Proof.
  destruct (Z_le_gt_dec (len s) 9500) as [Hs|Hs].
  - rewrite (limit_length_short s Hs). lia.
  - destruct (limit_length_long s Hs) as [_ ->]. lia.
Qed.

(** *** generate_message *)

Section Generation.
Context (E : env) (cfg : config).

(** The [try] block, case by case: the prompts are missing, the prompt
    list is empty, the model raises, or the model answers. *)
Lemma generate_try_run w :
  generate_message_try E cfg w
  = match message_prompts cfg with
    | None => (Exc KeyError, w, [])
    | Some prompts =>
        match prompts !! (random_nat E (tick w) mod length prompts)%nat with
        | None => (Exc IndexError, {| tick := S (tick w) |}, [])
        | Some prompt =>
            match generate_content E (S (tick w)) prompt with
            | Val text =>
                (Val (limit_length (strip text)),
                 {| tick := S (S (tick w)) |},
                 [GenerateContent prompt;
                  Log Info
                    (Generated (slice_to 50 (limit_length (strip text))))])
            | Exc e =>
                (Exc e, {| tick := S (S (tick w)) |},
                 [GenerateContent prompt])
            end
        end
    end.
Proof.
  unfold generate_message_try, item, random_choice, of_result, log.
  unfold bind, fresh, emit, ret, raise.
  destruct (message_prompts cfg) as [prompts|]; [|done]. cbn [fst snd].
  destruct (prompts !! _) as [prompt|]; [|done]. cbn [fst snd tick].
  by destruct (generate_content E _ prompt) as [text|e].
Qed.

(** A draw in a non-empty list gives the element at the drawn position. *)
Lemma drawn_position {A} (l : list A) (r : nat) :
  l <> [] -> is_Some (l !! (r mod length l)%nat).
Proof.
  intros Hne. apply lookup_lt_is_Some, Nat.mod_upper_bound.
  destruct l; [done|simpl; lia].
Qed.

Lemma random_choice_pool (pool : list string) w :
  pool <> [] ->
  exists m, random_choice E pool w = (Val m, {| tick := S (tick w) |}, [])
            /\ m ∈ pool.
Proof.
  intros Hne. unfold random_choice, bind, fresh, ret.
  assert (is_Some (pool !! (random_nat E (tick w) mod length pool)%nat))
    as [m Hm].
  { apply lookup_lt_is_Some, Nat.mod_upper_bound.
    destruct pool; [done|simpl; lia]. }
  exists m. cbn [fst snd]. rewrite Hm. split; [done|].
  by eapply list_elem_of_lookup_2.
Qed.

End Generation.

(** C10 as stated fails: when the model is down the fallback message is
    returned as it is configured, here with 9600 characters. *)
Lemma long_fallback_returned :
  ~ always_bounded E_limited (cfg_with (Some [long_fallback]) []) start.
Proof.
  intros H. specialize (H long_fallback).
  assert (outcome (generate_message E_limited
                     (cfg_with (Some [long_fallback]) []) start)
          = Val long_fallback) as Hout by (vm_compute; reflexivity).
  specialize (H Hout). vm_compute in H. by apply H.
Qed.

(** C10, amended.  When the generation succeeds the producer returns the
    text that the model answered to the selected prompt, stripped, if it
    has at most 9500 characters, and otherwise its first 9500 characters
    followed by ['...'], so at most 9503 characters.  The generation fails
    when the prompts are missing or empty or when the model raises; on any
    such error the producer returns the message of the fallback pool (the
    built-in one when none is configured) at the position that
    [random.choice] draws, uniformly as the library does, and returns it
    unchanged, whatever its length. *)
Theorem generate_message_result (E : env) (cfg : config) (w : world) :
  let run := generate_message E cfg w in
  let pool := fallback_pool cfg in
  (forall prompts prompt text,
     message_prompts cfg = Some prompts ->
     prompts !! (random_nat E (tick w) mod length prompts)%nat = Some prompt ->
     generate_content E (S (tick w)) prompt = Val text ->
     outcome run = Val (limit_length (strip text))
     /\ len (limit_length (strip text)) <= 9503
     /\ (len (strip text) <= 9500 -> limit_length (strip text) = strip text)
     /\ (len (strip text) > 9500 ->
         limit_length (strip text) = slice_to 9500 (strip text) +:+ "..."
         /\ len (limit_length (strip text)) = 9503))
  /\ (forall e,
        outcome (generate_message_try E cfg w) = Exc e <->
        (message_prompts cfg = None /\ e = KeyError)
        \/ (message_prompts cfg = Some [] /\ e = IndexError)
        \/ (exists prompts prompt,
              message_prompts cfg = Some prompts
              /\ prompts !! (random_nat E (tick w) mod length prompts)%nat
                 = Some prompt
              /\ generate_content E (S (tick w)) prompt = Exc e))
  /\ (forall e w1 t1,
        generate_message_try E cfg w = (Exc e, w1, t1) ->
        pool <> [] ->
        exists m,
          outcome run = Val m
          /\ pool !! (random_nat E (tick w1) mod length pool)%nat = Some m
          /\ forall k, random_nat E (tick w1) = k -> (k < length pool)%nat ->
                       pool !! k = Some m).
Proof.
  intros run pool. subst run pool. split; [|split].
  - intros prompts prompt text Hp Hsel Hgen.
    unfold generate_message, try_except.
    rewrite generate_try_run, Hp, Hsel, Hgen, outcome_mk.
    split; [done|]. split; [apply len_limit_length|]. split.
    + apply limit_length_short.
    + intros Hlong. by destruct (limit_length_long _ Hlong) as [-> ?].
  - intros e. rewrite generate_try_run.
    destruct (message_prompts cfg) as [prompts|] eqn:Hp.
    2:{ rewrite outcome_mk. split.
        - intros [= <-]. by left.
        - intros [[_ ->]|[[? _]|(? & ? & ? & _)]]; done. }
    destruct (prompts !! _) as [prompt|] eqn:Hsel.
    2:{ rewrite outcome_mk.
        assert (prompts = []) as ->.
        { destruct prompts as [|p0 ps]; [done|].
          destruct (drawn_position (p0 :: ps) (random_nat E (tick w)))
            as [x Hx]; [done|]. congruence. }
        split.
        - intros [= <-]. right. by left.
        - intros [[? _]|[[_ ->]|(ps & p & [= <-] & Hl & _)]]; done. }
    destruct (generate_content E (S (tick w)) prompt) as [text|e'] eqn:Hgen;
      rewrite outcome_mk.
    + split; [done|].
      intros [[? _]|[[[= ->] _]|(ps & p & [= <-] & Hl & Hg)]];
        [done|done|]. congruence.
    + split.
      * intros [= <-]. right. right. by exists prompts, prompt.
      * intros [[? _]|[[[= ->] _]|(ps & p & [= <-] & Hl & Hg)]];
          [done|done|]. congruence.
  - intros e w1 t1 Htry Hpool.
    unfold generate_message. rewrite (try_exc _ _ _ _ _ _ Htry), outcome_mk.
    unfold log, emit. unfold bind at 1. cbn [fst snd].
    destruct (drawn_position (fallback_pool cfg) (random_nat E (tick w1))
                Hpool) as [m Hm].
    exists m. unfold random_choice, bind, fresh, ret. cbn [fst snd].
    rewrite Hm, outcome_mk. split; [done|]. split; [done|].
    intros k Hk Hlt. by rewrite <- Hk, <- Hm, Nat.mod_small by lia.
Qed.

Lemma generate_message_result_witness :
  outcome (generate_message E_chatty (cfg_with None []) start)
  = Val (limit_length (strip "  hello there  "))
  /\ limit_length (strip "  hello there  ") = "hello there"%string.
Proof.
  destruct (generate_message_result E_chatty (cfg_with None []) start)
    as [H _].
  destruct (H ["say hello"%string] "say hello"%string
              "  hello there  "%string eq_refl eq_refl eq_refl)
    as (H1 & _ & H2 & _).
  split; [exact H1|]. apply H2. by vm_compute.
Defined.

(** *** Programs that neither send nor pause *)

Lemma requests_app t1 t2 : sends (t1 ++ t2) = sends t1 ++ sends t2.
Proof. apply omap_app. Qed.












Section Idle.
Context (E : env) (cfg : config).





(** **** A rate-limited send *)


End Idle.



End SenderFacts.

(** ** DM.py: further properties *)

Module DMMore.
Import DM DMObs RuntimeFacts DMFacts.

(** *** The rotation store *)

(** X1, round trip of the rotation store.  [update_message_index] always
    returns and leaves a file holding the new index for the user and every
    other entry as it was; [get_message_index] then reads that index back,
    reads for other users what it read before, and changes nothing. *)
Theorem index_round_trip (uid : string) (idx : Z) (w : world) :
  let w' := final (update_message_index uid idx w) in
  outcome (update_message_index uid idx w) = Val tt
  /\ index_file w' = Some (<[uid := idx]> (default ∅ (index_file w)))
  /\ outcome (get_message_index uid w') = Val idx
  /\ (forall u, u <> uid ->
        outcome (get_message_index u w') = outcome (get_message_index u w))
  /\ final (get_message_index uid w') = w'.
Proof.
  unfold update_message_index, get_message_index.
  unfold bind, get, put, emit, ret, outcome, final.
  destruct w as [[m|] tk]; simpl.
  - rewrite lookup_insert_eq. repeat split; try done.
    intros u Hne. by rewrite lookup_insert_ne.
  - rewrite lookup_insert_eq. repeat split; try done.
    intros u Hne. by rewrite lookup_insert_ne, lookup_empty.
Qed.

(** *** Uploading *)

(** X2, what [upload_media] answers.  It never raises.  It returns a media
    id exactly when the file is there at both looks, its size is within the
    ceiling, and the gateway returns that id; and the gateway is asked
    exactly when the file is there and within the ceiling, so a missing or
    oversized file is never offered to it. *)
Theorem upload_media_outcome (E : env) (cfg : config) (path : string)
    (w : world) :
  let run := upload_media E cfg path w in
  let acceptable :=
    is_Some (files E (tick w) !! path)
    /\ exists size, files E (S (tick w)) !! path = Some size
                    /\ over_ceiling cfg size = false in
  (exists r, outcome run = Val r)
  /\ (forall mid,
        outcome run = Val (Some mid) <->
        acceptable /\ media_upload_api E (S (S (tick w))) path = Val mid)
  /\ (acceptable -> uploads (trace run) = [path])
  /\ (~ acceptable -> uploads (trace run) = []).
Proof.
  unfold over_ceiling, max_size_mb.
  unfold upload_media, os_path_exists, os_path_getsize, log, of_result;
    unfold try_except, bind, fresh, emit, ret, raise; simpl.
  destruct (files E (tick w) !! path) as [z|] eqn:Hex; simpl.
  - destruct (files E (S (tick w)) !! path) as [size|] eqn:Hsz; simpl.
    + destruct (Qgt_bool _ _) eqn:Hbig; simpl.
      * split; [by eexists|]. split; [|split].
        -- intros mid. split; [done|].
           intros [(_ & size' & [= <-] & Hok) _]. congruence.
        -- intros (_ & size' & [= <-] & Hok). congruence.
        -- done.
      * destruct (media_upload_api E (S (S (tick w))) path) as [mid'|e]
          eqn:Hup; simpl.
        -- split; [by eexists|]. split; [|split]; [|done|].
           ++ intros mid. split.
              ** intros [= <-]. split; [|done]. split; [by eexists|].
                 by exists size.
              ** by intros [_ [= <-]].
           ++ intros Hn. exfalso. apply Hn. split; [by eexists|].
              by exists size.
        -- split; [by eexists|]. split; [|split]; [|done|].
           ++ intros mid. split; [done|]. by intros [_ ?].
           ++ intros Hn. exfalso. apply Hn. split; [by eexists|].
              by exists size.
    + split; [by eexists|]. split; [|split].
      * intros mid. split; [done|]. by intros [(_ & size & ? & _) _].
      * by intros (_ & size & ? & _).
      * done.
  - split; [by eexists|]. split; [|split].
    + intros mid. split; [done|]. by intros [([? ?] & _) _].
    + by intros ([? ?] & _).
    + done.
Qed.

(** The ceiling is inclusive: with the default of 5 MB, a file of exactly
    5 * 1024 * 1024 bytes is uploaded, and one more byte is refused. *)
Lemma upload_media_outcome_witness :
  outcome (upload_media E_edge (cfg_of false []) "images/edge.png"
             fresh_world) = Val (Some "m7"%string)
  /\ uploads (trace (upload_media E_edge (cfg_of false []) "images/over.png"
                       fresh_world)) = [].
Proof.
  destruct (upload_media_outcome E_edge (cfg_of false []) "images/edge.png"
              fresh_world) as (_ & H1 & _).
  destruct (upload_media_outcome E_edge (cfg_of false []) "images/over.png"
              fresh_world) as (_ & _ & _ & H2).
  split.
  - apply H1. split; [|reflexivity]. split; [by eexists|].
    exists (5 * 1024 * 1024). by split.
  - apply H2. intros (_ & size & Hs & Hok).
    vm_compute in Hs. injection Hs as <-. vm_compute in Hok. discriminate.
Defined.

(** *** Sending *)

(** X3, what [send_dm] does.  It never raises and leaves the rotation store
    alone; it issues exactly one request, in which a falsy media id is left
    out; and it answers [True] exactly when the request returned data. *)
Theorem send_dm_outcome (E : env) (uid msg : string)
    (media : option string) (w : world) :
  let run := send_dm E uid msg media w in
  exists b,
    outcome run = Val b
    /\ index_file (final run) = index_file w
    /\ sends (trace run) = [(uid, msg, attached media)]
    /\ (b = true <->
        create_direct_message E (tick w) uid msg (attached media) = Val true).
Proof.
  intros run. subst run.
  destruct (send_dm_run E uid msg media w) as (b & t & Hrun & Hl & Hb).
  exists b. rewrite Hrun, outcome_mk, final_mk, trace_mk.
  split; [done|]. split; [done|]. split; [|done].
  by rewrite <- sends_loud, Hl.
Qed.

(** *** Resolving an image *)

(** X4, how an image name is resolved.  No name, or an empty one, gives
    [None] without looking at the disk.  Otherwise the file of that name in
    the images directory is preferred; failing that, the name itself taken
    as a path; failing that, [None].  The function never raises. *)
Theorem get_image_path_result (E : env) (cfg : config) (f : option string)
    (w : world) :
  let run := get_image_path E cfg f w in
  let dir := default "images"%string (images_directory cfg) in
  (truthy_str f = false -> run = (Val None, w, []))
  /\ (forall name,
        f = Some name -> name <> ""%string ->
        let joined := path_join dir name in
        (is_Some (files E (tick w) !! joined) ->
         outcome run = Val (Some joined))
        /\ (files E (tick w) !! joined = None ->
            is_Some (files E (S (tick w)) !! name) ->
            outcome run = Val (Some name))
        /\ (files E (tick w) !! joined = None ->
            files E (S (tick w)) !! name = None ->
            outcome run = Val None)).
Proof.
  intros run dir. subst run dir. split.
  - intros Hf. unfold get_image_path. by rewrite Hf.
  - intros name -> Hne joined. subst joined.
    assert (truthy_str (Some name) = true) as Ht by (by destruct name).
    unfold get_image_path. rewrite Ht.
    unfold os_path_exists, log, bind, fresh, emit, ret, outcome. simpl.
    change (default ""%string (Some name)) with name.
    repeat split.
    + intros Hj. by rewrite bool_decide_eq_true_2.
    + intros Hj Hn. rewrite Hj. simpl.
      by rewrite bool_decide_eq_true_2.
    + intros Hj Hn. rewrite Hj. simpl. rewrite Hn. done.
Qed.

Lemma get_image_path_result_witness :
  outcome (get_image_path E_big_image (cfg_of false []) (Some "big.png")
             fresh_world) = Val (Some "images/big.png"%string).
Proof.
  destruct (get_image_path_result E_big_image (cfg_of false [])
              (Some "big.png"%string) fresh_world) as [_ H].
  destruct (H "big.png"%string eq_refl) as (H1 & _); [done|].
  apply H1. by eexists.
Defined.

(** *** The message list of a recipient *)

(** X5, the resolved message list.  Every entry is a dict (no plain string
    is left), normalizing again changes nothing, and the list is empty
    exactly when there is no inline list and the recipient's category is
    mapped to an empty list: a category that is missing from the templates
    never leaves a recipient without a message. *)
Theorem messages_are_normalized (cfg : config) (r : recipient) :
  let ms := get_messages_for_recipient cfg r in
  Forall (fun m => exists text image, m = MDict text image) ms
  /\ normalize <$> ms = ms
  /\ (ms = [] <->
      truthy_list (custom_messages r) = false
      /\ default ∅ (message_templates cfg)
           !! default "custom"%string (message_category r) = Some []).
Proof.
  intros ms. subst ms. unfold get_messages_for_recipient.
  split; [|split].
  - apply Forall_fmap, Forall_forall. intros [s|text image] _; simpl; eauto.
  - rewrite <- list_fmap_compose. apply list_fmap_ext.
    by intros i [s|text image] _.
  - destruct (custom_messages r) as [[|m l]|]; simpl.
    + destruct (_ !! _) as [[|m l]|]; simpl; split; try done;
        by intros [_ ?].
    + split; [done|by intros [? _]].
    + destruct (_ !! _) as [[|m l]|]; simpl; split; try done;
        by intros [_ ?].
Qed.

(** *** Skipped recipients *)

(** X6, a recipient stopped by a guard (disabled, no user id, or no
    message) costs one log line and nothing else: the world is what it was,
    no request is sent, nothing is uploaded, the store is not accessed and
    the loop does not pause. *)
Theorem skipped_recipient_is_untouched (E : env) (cfg : config)
    (r : recipient) (w : world) :
  dispatchable cfg r = false ->
  exists lvl line,
    dispatch_recipient E cfg r w = (Val tt, w, [Log lvl line]).
Proof.
  unfold dispatchable, dispatch_recipient. intros Hd.
  destruct (default true (enabled r)); simpl in *; [|by do 2 eexists].
  destruct (truthy_str (user_id r)); simpl in *; [|by do 2 eexists].
  destruct (get_messages_for_recipient cfg r); [by do 2 eexists|done].
Qed.

Lemma skipped_recipient_is_untouched_witness :
  exists lvl line,
    dispatch_recipient E_up (cfg_of false [mallory]) mallory fresh_world
    = (Val tt, fresh_world, [Log lvl line]).
Proof.
  apply (skipped_recipient_is_untouched E_up (cfg_of false [mallory])
           mallory fresh_world). reflexivity.
Defined.

(** *** How far the cursor moves *)

Section Cursor.
Context (E : env) (cfg : config).
Hypothesis Hrotate : randomize cfg = false.

Lemma cursor_after_iteration r w u :
  cursor (final (dispatch_recipient E cfg r w)) u
  = cursor w u + Z.of_nat (dispatches cfg u [r]).
Proof.
  unfold cursor at 1. rewrite iteration_store, Hrotate, andb_true_r.
  unfold dispatches. simpl.
  destruct (dispatchable cfg r); simpl; [|unfold cursor; lia].
  destruct (String.eqb_spec (uid_of r) u) as [<-|Hne]; simpl.
  - rewrite cursor_advance. lia.
  - rewrite cursor_advance_ne by done. lia.
Qed.

Lemma dispatches_cons u r l :
  dispatches cfg u (r :: l)
  = (dispatches cfg u [r] + dispatches cfg u l)%nat.
Proof.
  unfold dispatches. simpl.
  by destruct (dispatchable cfg r && String.eqb (uid_of r) u).
Qed.

Lemma cursor_after_loop l w u :
  cursor (final (for_each l (dispatch_recipient E cfg) w)) u
  = cursor w u + Z.of_nat (dispatches cfg u l).
Proof.
  revert w. induction l as [|r l IH]; intros w.
  { unfold dispatches, final. simpl. lia. }
  rewrite loop_step, final_mk, IH, cursor_after_iteration,
    (dispatches_cons u r l). lia.
Qed.

Lemma cursor_after_cycles n w u :
  cursor (final (run_cycles E cfg n w)) u
  = cursor w u
    + Z.of_nat n * Z.of_nat (dispatches cfg u (default [] (recipients cfg))).
Proof.
  revert w. induction n as [|n IH]; intros w.
  { simpl. unfold final. simpl. lia. }
  rewrite cycles_step, final_mk, IH, cycle_run, final_mk, cursor_after_loop.
  lia.
Qed.

End Cursor.

(** X7, how far the cursor moves.  Under rotation, after n cycles the
    cursor of a user id has grown by n times the number of recipients that
    pass the guards with that id: the stored value grows without bound and
    is never wrapped, and two recipients configured with the same id share
    one cursor and advance it twice per cycle. *)
Theorem cursor_counts_dispatches (E : env) (cfg : config) (n : nat)
    (w : world) (u : string) :
  randomize cfg = false ->
  cursor (final (run_cycles E cfg n w)) u
  = cursor w u
    + Z.of_nat n * Z.of_nat (dispatches cfg u (default [] (recipients cfg))).
Proof. intros Hr. by apply cursor_after_cycles. Qed.

Lemma cursor_counts_dispatches_witness :
  cursor (final (run_cycles E_down (cfg_of false [alice; alice_again]) 3
                   fresh_world)) "1001" = 6.
Proof.
  rewrite (cursor_counts_dispatches E_down
             (cfg_of false [alice; alice_again]) 3 fresh_world "1001")
    by reflexivity.
  reflexivity.
Defined.

(** X8, round robin.  Under rotation, for a recipient that is the only one
    dispatched with its user id, the candidate resolved after k cycles is
    the one at [(cursor + k) mod count]; after as many cycles as it has
    candidates the recipient is back at the candidate it started from. *)
Theorem rotation_is_periodic (E : env) (cfg : config) (r : recipient)
    (k : nat) (w : world) :
  randomize cfg = false ->
  dispatches cfg (uid_of r) (default [] (recipients cfg)) = 1%nat ->
  let ms := get_messages_for_recipient cfg r in
  candidate_at cfg (final (run_cycles E cfg k w)) r
  = ms !! Z.to_nat ((cursor w (uid_of r) + Z.of_nat k)
                    `mod` Z.of_nat (length ms))
  /\ candidate_at cfg (final (run_cycles E cfg (length ms) w)) r
     = candidate_at cfg w r.
Proof.
  intros Hr Hone ms. unfold candidate_at. fold ms.
  rewrite !(cursor_after_cycles E cfg Hr), Hone.
  split; [do 3 f_equal; lia|].
  do 2 f_equal. rewrite Z.mul_1_r.
  rewrite <- (Z.mul_1_l (Z.of_nat (length ms))) at 1.
  apply Z_mod_plus_full.
Qed.

Lemma rotation_is_periodic_witness :
  candidate_at (cfg_of false [alice; bob])
    (final (run_cycles E_up (cfg_of false [alice; bob]) 2 fresh_world)) alice
  = candidate_at (cfg_of false [alice; bob]) fresh_world alice.
Proof.
  apply (rotation_is_periodic E_up (cfg_of false [alice; bob]) alice 2
           fresh_world); reflexivity.
Defined.

(** *** Pacing *)

Lemma pauses_app t1 t2 : sleeps (t1 ++ t2) = sleeps t1 ++ sleeps t2.
Proof. apply omap_app. Qed.

Lemma no_pause_ret {A} (a : A) : no_pause (ret a).
Proof. by intros w. Qed.

Lemma no_pause_raise {A} e : no_pause (@raise world event A e).
Proof. by intros w. Qed.

Lemma no_pause_fresh : no_pause fresh.
Proof. by intros w. Qed.

Lemma no_pause_get : no_pause (@get world event).
Proof. by intros w. Qed.

Lemma no_pause_put w : no_pause (@put world event w).
Proof. by intros w'. Qed.

Lemma no_pause_of_result {A} (r : result A) : no_pause (of_result r).
Proof. destruct r; [apply no_pause_ret|apply no_pause_raise]. Qed.

Lemma no_pause_emit e :
  match e with Sleep _ => False | _ => True end -> no_pause (emit e).
Proof. intros He w. by destruct e. Qed.

Lemma no_pause_bind {A B} (m : M A) (k : A -> M B) :
  no_pause m -> (forall a, no_pause (k a)) -> no_pause (bind m k).
Proof.
  intros Hm Hk w. pose proof (Hm w) as Hs.
  destruct (m w) as [[[a|e] w1] t1] eqn:Hrun.
  - rewrite (bind_val _ _ _ _ _ _ Hrun), trace_mk, pauses_app.
    rewrite trace_mk in Hs. by rewrite Hs, (Hk a w1).
  - by rewrite (bind_exc _ _ _ _ _ _ Hrun).
Qed.

Lemma no_pause_try {A} (m : M A) h :
  no_pause m -> (forall e, no_pause (h e)) -> no_pause (try_except m h).
Proof.
  intros Hm Hh w. pose proof (Hm w) as Hs.
  destruct (m w) as [[[a|e] w1] t1] eqn:Hrun.
  - by rewrite (try_val _ _ _ _ _ _ Hrun).
  - rewrite (try_exc _ _ _ _ _ _ Hrun), trace_mk, pauses_app.
    rewrite trace_mk in Hs. by rewrite Hs, (Hh e w1).
Qed.

Ltac pause_step :=
  first [ apply no_pause_ret | apply no_pause_raise | apply no_pause_fresh
        | apply no_pause_get | apply no_pause_put | apply no_pause_of_result
        | apply no_pause_emit; exact I
        | apply no_pause_bind; [|intros ?]
        | apply no_pause_try; [|intros ?]
        | progress unfold log
        | case_match ].
Ltac solve_pause := repeat pause_step.

Section Pacing.
Context (E : env) (cfg : config).

Lemma no_pause_upload_media p : no_pause (upload_media E cfg p).
Proof. unfold upload_media, os_path_exists, os_path_getsize. solve_pause. Qed.

Lemma no_pause_get_image_path f : no_pause (get_image_path E cfg f).
Proof. unfold get_image_path, os_path_exists. solve_pause. Qed.

Lemma no_pause_process_image md : no_pause (process_image E cfg md).
Proof.
  unfold process_image. destruct md as [s|text image]; [solve_pause|].
  destruct (truthy_str image); [|solve_pause].
  apply no_pause_bind; [apply no_pause_get_image_path|intros path].
  destruct (truthy_str path); [apply no_pause_upload_media|solve_pause].
Qed.

Lemma no_pause_add_timestamp x : no_pause (add_timestamp E cfg x).
Proof. unfold add_timestamp. solve_pause. Qed.

Lemma no_pause_select_message uid ms : no_pause (select_message E cfg uid ms).
Proof.
  unfold select_message, random_choice, get_message_index,
    update_message_index, index.
  solve_pause.
Qed.

Lemma no_pause_send_dm uid msg media : no_pause (send_dm E uid msg media).
Proof. unfold send_dm. solve_pause. Qed.

Lemma never_raises_select_message uid ms :
  ms <> [] -> never_raises (select_message E cfg uid ms).
Proof.
  intros Hne w. destruct (randomize cfg) eqn:Hr.
  - destruct (select_message_random E cfg uid ms w Hr Hne) as (md & -> & _).
    by exists md.
  - destruct (select_message_rotate E cfg uid ms w Hr Hne) as (md & -> & _).
    by exists md.
Qed.

(** Sequencing after a program that returns and does not pause. *)
Lemma sleeps_bind {A B} (m : M A) (k : A -> M B) l :
  never_raises m -> no_pause m ->
  (forall a w1, sleeps (trace (k a w1)) = l) ->
  forall w, sleeps (trace (bind m k w)) = l.
Proof.
  intros Ht Hp Hk w.
  destruct (never_raises_run m w Ht) as (a & w1 & t1 & Hrun).
  pose proof (Hp w) as Hs. rewrite Hrun, trace_mk in Hs.
  by rewrite (bind_val _ _ _ _ _ _ Hrun), trace_mk, pauses_app, Hs, Hk.
Qed.

Lemma deliver_sleeps uid uname full media w :
  sleeps (trace (deliver E uid uname full media w)) = [2].
Proof.
  revert w. unfold deliver. apply sleeps_bind.
  - intros w. destruct (send_dm_run E uid full media w) as (b & t & -> & _).
    by exists b.
  - apply no_pause_send_dm.
  - by intros [|] w1.
Qed.

Lemma dispatch_skip_exact r w :
  dispatchable cfg r = false ->
  exists lvl line,
    dispatch_recipient E cfg r w = (Val tt, w, [Log lvl line]).
Proof.
  unfold dispatchable, dispatch_recipient. intros Hd.
  destruct (default true (enabled r)); simpl in *; [|by do 2 eexists].
  destruct (truthy_str (user_id r)); simpl in *; [|by do 2 eexists].
  destruct (get_messages_for_recipient cfg r); [by do 2 eexists|done].
Qed.

Lemma dispatch_sleeps r w :
  sleeps (trace (dispatch_recipient E cfg r w))
  = if dispatchable cfg r then [2] else [].
Proof.
  destruct (dispatchable cfg r) eqn:Hd.
  - unfold dispatchable in Hd.
    apply andb_prop in Hd as [Hd Hms]. apply andb_prop in Hd as [Hen Hid].
    unfold dispatch_recipient. rewrite Hen, Hid. simpl.
    destruct (get_messages_for_recipient cfg r) as [|m0 ms'] eqn:Hms';
      [done|].
    revert w. apply sleeps_bind;
      [by apply never_raises_select_message
      |apply no_pause_select_message|].
    intros md. apply sleeps_bind;
      [apply never_raises_add_timestamp|apply no_pause_add_timestamp|].
    intros full. apply sleeps_bind;
      [apply never_raises_process_image|apply no_pause_process_image|].
    intros media w1. apply deliver_sleeps.
  - destruct (dispatch_skip_exact r w Hd) as (lvl & line & ->). done.
Qed.

Lemma loop_sleeps l w :
  sleeps (trace (for_each l (dispatch_recipient E cfg) w))
  = replicate (length (List.filter (dispatchable cfg) l)) 2.
Proof.
  revert w. induction l as [|r l IH]; intros w; [done|].
  rewrite loop_step, trace_mk, pauses_app, dispatch_sleeps, IH. simpl.
  by destruct (dispatchable cfg r).
Qed.

End Pacing.

(** X9, pacing.  A cycle pauses 2 seconds after every send attempt and at
    no other moment: one pause per recipient that passes the guards, none
    for a skipped recipient, and none added by a failed send or a failed
    upload. *)
Theorem cycle_pacing (E : env) (cfg : config) (w : world) :
  sleeps (trace (send_scheduled_messages E cfg w))
  = replicate (length (List.filter (dispatchable cfg)
                         (default [] (recipients cfg)))) 2.
Proof.
  rewrite cycle_run, trace_mk. simpl. rewrite pauses_app, loop_sleeps.
  simpl. by rewrite app_nil_r.
Qed.

(** X10, the timestamp.  With the option on, or left out of the
    configuration, the text that is sent is the text of a candidate of the
    recipient (a string, [''] when the candidate has no ['text'] key)
    followed by an empty line, the label and the clock reading; the
    candidate itself is not changed. *)
Theorem timestamp_is_appended (E : env) (cfg : config) (r : recipient)
    (w : world) :
  default true (enable_timestamp cfg) = true ->
  dispatchable cfg r = true ->
  exists md tk media,
    md ∈ get_messages_for_recipient cfg r
    /\ sends (trace (dispatch_recipient E cfg r w))
       = [(uid_of r,
           message_text_of md +:+ nl +:+ nl +:+ timestamp_label
             +:+ strftime_now E tk,
           media)].
Proof.
  intros Hts Hd.
  destruct (dispatch_send E cfg r w Hd)
    as (md & full & media & b & w' & t & Hrun & _ & Hl & _ & Hin & _
        & [w1 Hfull] & _).
  unfold add_timestamp in Hfull. rewrite Hts in Hfull.
  unfold bind, fresh, ret, outcome in Hfull. simpl in Hfull.
  injection Hfull as <-.
  exists md, (tick w1), (attached media). split; [done|].
  rewrite Hrun, trace_mk, <- sends_loud, Hl, sends_app.
  destruct (randomize cfg); [|rewrite rotation_io_sends]; by destruct b.
Qed.

Lemma timestamp_is_appended_witness :
  exists md tk media,
    md ∈ get_messages_for_recipient (cfg_default_stamp [carol]) carol
    /\ sends (trace (dispatch_recipient E_up (cfg_default_stamp [carol])
                       carol fresh_world))
       = [(uid_of carol,
           message_text_of md +:+ nl +:+ nl +:+ timestamp_label
             +:+ strftime_now E_up tk,
           media)].
Proof.
  apply (timestamp_is_appended E_up (cfg_default_stamp [carol]) carol
           fresh_world); reflexivity.
Defined.

End DMMore.

(** ** DM.py: the rotation over two cycles *)

Module DMRotation.
Import DM DMObs RuntimeFacts DMFacts DMMore.





Section Rotation.
Context (E : env) (cfg : config).
Hypothesis Hrotate : randomize cfg = false.







End Rotation.



End DMRotation.

(** ** dm_sender.py: further properties *)

Module SenderMore.
Import Sender SenderObs RuntimeFacts SenderFacts.

(** *** Uploading *)

(** X11, what the sender's [upload_media] answers.  It never raises, a
    missing file included.  It returns a media id exactly when the file is
    there, has at most 5 * 1024 * 1024 bytes, and the gateway returns that
    id; and the gateway is asked exactly when the file is there and within
    that fixed ceiling. *)
Theorem sender_upload_outcome (E : env) (path : string) (w : world) :
  let run := upload_media E path w in
  let acceptable :=
    exists size, files E (tick w) !! path = Some size
                 /\ size <= 5 * 1024 * 1024 in
  (exists r, outcome run = Val r)
  /\ (forall mid,
        outcome run = Val (Some mid) <->
        acceptable /\ media_upload_api E (S (tick w)) path = Val mid)
  /\ (acceptable -> uploads (trace run) = [path])
  /\ (~ acceptable -> uploads (trace run) = []).
Proof.
  unfold upload_media, os_path_getsize, log, of_result;
    unfold try_except, bind, fresh, emit, ret, raise; simpl.
  destruct (files E (tick w) !! path) as [size|] eqn:Hsz; simpl.
  - destruct (Z.gtb_spec size (5 * 1024 * 1024)) as [Hbig|Hok]; simpl.
    + split; [by eexists|]. split; [|split]; [| |done].
      * intros mid. split; [done|]. intros [(size' & [= <-] & ?) _]. lia.
      * intros (size' & [= <-] & ?). lia.
    + destruct (media_upload_api E (S (tick w)) path) as [mid'|e] eqn:Hup;
        simpl.
      * split; [by eexists|]. split; [|split]; [|done|].
        -- intros mid. split.
           ++ intros [= <-]. split; [by exists size|done].
           ++ by intros [_ [= <-]].
        -- intros Hn. exfalso. apply Hn. by exists size.
      * split; [by eexists|]. split; [|split]; [|done|].
        -- intros mid. split; [done|]. by intros [_ ?].
        -- intros Hn. exfalso. apply Hn. by exists size.
  - split; [by eexists|]. split; [|split]; [| |done].
    + intros mid. split; [done|]. by intros [(size & ? & _) _].
    + by intros (size & ? & _).
Qed.

Lemma sender_upload_outcome_witness :
  outcome (upload_media E_sizes "edge.png" start) = Val (Some 77)
  /\ uploads (trace (upload_media E_sizes "over.png" start)) = [].
Proof.
  destruct (sender_upload_outcome E_sizes "edge.png" start) as (_ & H1 & _).
  destruct (sender_upload_outcome E_sizes "over.png" start)
    as (_ & _ & _ & H2).
  split.
  - apply H1. split; [|reflexivity]. exists (5 * 1024 * 1024). by split.
  - apply H2. intros (size & Hs & Hok).
    vm_compute in Hs. injection Hs as <-. vm_compute in Hok. by apply Hok.
Defined.

(** *** Sending to one user *)

Section Send.
Context (E : env) (cfg : config).

Lemma send_dm_to_user_run uid msg media w :
  exists b t,
    send_dm_to_user E cfg uid msg media w
    = (Val b, {| tick := if twitter_credentials cfg then S (tick w)
                         else tick w |}, t)
    /\ b = twitter_credentials cfg && accepted (answer E uid msg media w)
    /\ sends t = (if twitter_credentials cfg
                  then [(uid, msg, attached media)] else [])
    /\ sleeps t = (if twitter_credentials cfg
                   then cooldown (answer E uid msg media w) else [])
    /\ successes t = 0%nat /\ reported t = [].
Proof.
  unfold answer, attached, send_dm_to_user, of_result, log, sleep.
  unfold try_except, bind, fresh, emit, ret, raise.
  destruct (twitter_credentials cfg); cbn [fst snd tick].
  - destruct (truthy_int media); cbn [fst snd tick];
      destruct (create_direct_message E (tick w) uid msg _) as [[]|[]];
      cbn; do 2 eexists; (split; [reflexivity|]); by repeat split.
  - destruct w as [tk]. cbn. do 2 eexists. split; [reflexivity|].
    by repeat split.
Qed.

End Send.

(** X12, what [send_dm_to_user] does.  It never raises.  Without the
    credentials no request is made and the answer is [False].  With them it
    issues exactly one request, in which a falsy media id is left out, and
    answers [True] exactly when the request returns without an exception,
    whatever it returns; it pauses, 900 seconds, only when the gateway
    signals a rate limit. *)
Theorem send_dm_to_user_outcome (E : env) (cfg : config) (uid msg : string)
    (media : option Z) (w : world) :
  let run := send_dm_to_user E cfg uid msg media w in
  let reply := answer E uid msg media w in
  (twitter_credentials cfg = false ->
   outcome run = Val false /\ sends (trace run) = []
   /\ sleeps (trace run) = [])
  /\ (twitter_credentials cfg = true ->
      outcome run = Val (accepted reply)
      /\ sends (trace run) = [(uid, msg, attached media)]
      /\ sleeps (trace run) = cooldown reply).
Proof.
  intros run reply. subst run reply.
  destruct (send_dm_to_user_run E cfg uid msg media w)
    as (b & t & Hrun & -> & Hs & Hp & _).
  rewrite Hrun, outcome_mk, trace_mk.
  split; intros Hc; rewrite Hc in *; by repeat split.
Qed.

Lemma send_dm_to_user_outcome_witness :
  outcome (send_dm_to_user E_limited (cfg_with None []) "2001" "hi" None
             start) = Val false
  /\ sleeps (trace (send_dm_to_user E_limited (cfg_with None []) "2001" "hi"
                      None start)) = [900].
Proof.
  destruct (send_dm_to_user_outcome E_limited (cfg_with None []) "2001" "hi"
              None start) as [_ H].
  destruct (H eq_refl) as (H1 & _ & H3). split; [exact H1|exact H3].
Defined.

(** *** Programs whose events are all minor *)

Lemma minor_sends t : forallb minor t = true -> sends t = [].
Proof.
  induction t as [|e t IH]; simpl; [done|].
  intros [He Ht]%andb_prop. rewrite (IH Ht).
  by destruct e as [lvl []| | | |].
Qed.

Lemma minor_sleeps t : forallb minor t = true -> sleeps t = [].
Proof.
  induction t as [|e t IH]; simpl; [done|].
  intros [He Ht]%andb_prop. rewrite (IH Ht).
  by destruct e as [lvl []| | | |].
Qed.

Lemma minor_successes t : forallb minor t = true -> successes t = 0%nat.
Proof.
  unfold successes. induction t as [|e t IH]; simpl; [done|].
  intros [He Ht]%andb_prop. specialize (IH Ht).
  by destruct e as [lvl []| | | |].
Qed.

Lemma minor_reported t : forallb minor t = true -> reported t = [].
Proof.
  induction t as [|e t IH]; simpl; [done|].
  intros [He Ht]%andb_prop. rewrite (IH Ht).
  by destruct e as [lvl []| | | |].
Qed.

Lemma successes_app t1 t2 :
  successes (t1 ++ t2) = (successes t1 + successes t2)%nat.
Proof. unfold successes. by rewrite List.filter_app, length_app. Qed.

Lemma reported_app t1 t2 : reported (t1 ++ t2) = reported t1 ++ reported t2.
Proof. apply omap_app. Qed.

Lemma unremarkable_ret {A} (a : A) : unremarkable (ret a).
Proof. by intros w. Qed.

Lemma unremarkable_raise {A} e : unremarkable (@raise world event A e).
Proof. by intros w. Qed.

Lemma unremarkable_fresh : unremarkable fresh.
Proof. by intros w. Qed.

Lemma unremarkable_of_result {A} (r : result A) : unremarkable (of_result r).
Proof. destruct r; [apply unremarkable_ret|apply unremarkable_raise]. Qed.

Lemma unremarkable_emit e : minor e = true -> unremarkable (emit e).
Proof. intros He w. unfold emit, trace. simpl. by rewrite He. Qed.

Lemma unremarkable_bind {A B} (m : M A) (k : A -> M B) :
  unremarkable m -> (forall a, unremarkable (k a)) -> unremarkable (bind m k).
Proof.
  intros Hm Hk w. pose proof (Hm w) as Hs.
  destruct (m w) as [[[a|e] w1] t1] eqn:Hrun.
  - rewrite (bind_val _ _ _ _ _ _ Hrun), trace_mk, forallb_app.
    rewrite trace_mk in Hs. by rewrite Hs, (Hk a w1).
  - by rewrite (bind_exc _ _ _ _ _ _ Hrun).
Qed.

Lemma unremarkable_try {A} (m : M A) h :
  unremarkable m -> (forall e, unremarkable (h e)) ->
  unremarkable (try_except m h).
Proof.
  intros Hm Hh w. pose proof (Hm w) as Hs.
  destruct (m w) as [[[a|e] w1] t1] eqn:Hrun.
  - by rewrite (try_val _ _ _ _ _ _ Hrun).
  - rewrite (try_exc _ _ _ _ _ _ Hrun), trace_mk, forallb_app.
    rewrite trace_mk in Hs. by rewrite Hs, (Hh e w1).
Qed.

Ltac minor_step :=
  first [ apply unremarkable_ret | apply unremarkable_raise
        | apply unremarkable_fresh | apply unremarkable_of_result
        | apply unremarkable_emit; reflexivity
        | apply unremarkable_bind; [|intros ?]
        | apply unremarkable_try; [|intros ?]
        | progress unfold log
        | case_match ].
Ltac solve_minor := repeat minor_step.

Lemma never_raises_tick : never_raises fresh.
Proof. intros w. by exists (tick w). Qed.

Ltac returns_step :=
  first [ apply never_raises_ret | apply never_raises_tick
        | apply never_raises_emit
        | apply never_raises_try; intros ?
        | apply never_raises_bind; [|intros ?]
        | progress unfold log
        | case_match ].
Ltac solve_returns := repeat returns_step.

Section Pass.
Context (E : env) (cfg : config).

Lemma unremarkable_generate_message : unremarkable (generate_message E cfg).
Proof.
  unfold generate_message, generate_message_try, item, random_choice.
  solve_minor.
Qed.

Lemma unremarkable_attach_random_image :
  unremarkable (attach_random_image E cfg).
Proof.
  unfold attach_random_image, upload_media, os_path_getsize. solve_minor.
Qed.

Lemma never_raises_attach_random_image :
  never_raises (attach_random_image E cfg).
Proof. unfold attach_random_image, upload_media. solve_returns. Qed.

Lemma never_raises_generate_message :
  fallback_pool cfg <> [] -> never_raises (generate_message E cfg).
Proof.
  intros Hpool. unfold generate_message. apply never_raises_try. intros e.
  apply never_raises_bind; [solve_returns|intros _].
  intros w. destruct (random_choice_pool E _ w Hpool) as (m & -> & _).
  by exists m.
Qed.

(** With an empty fallback pool a failed generation is not caught. *)
Lemma generate_message_empty_pool w e w1 t1 :
  fallback_messages cfg = Some [] ->
  generate_message_try E cfg w = (Exc e, w1, t1) ->
  outcome (generate_message E cfg w) = Exc IndexError.
Proof.
  intros Hpool Htry. unfold generate_message.
  rewrite (try_exc _ _ _ _ _ _ Htry), outcome_mk.
  unfold fallback_pool. rewrite Hpool. done.
Qed.

End Pass.

(** X13, an empty fallback pool.  When ['fallback_messages'] is configured
    as an empty list and the generation fails, [random.choice] raises
    inside the handler: [generate_message] raises [IndexError], and the pass
    stops at the first user that has an id, before any request is sent and
    without a pause; the remaining users are not attempted. *)
Theorem empty_fallback_aborts (E : env) (cfg : config) (u : user_info)
    (rest : list user_info) (w w1 : world) (e : exn) (t1 : list event) :
  fallback_messages cfg = Some [] ->
  target_users cfg = u :: rest ->
  with_id u = true ->
  generate_message_try E cfg {| tick := S (tick w) |} = (Exc e, w1, t1) ->
  outcome (generate_message E cfg {| tick := S (tick w) |}) = Exc IndexError
  /\ let run := send_messages_to_all E cfg w in
     outcome run = Exc IndexError
     /\ sends (trace run) = [] /\ sleeps (trace run) = [].
Proof.
  intros Hpool Husers Hid Htry.
  pose proof (generate_message_empty_pool E cfg _ e w1 t1 Hpool Htry) as Hgen.
  split; [exact Hgen|]. intros run. subst run.
  pose proof (unremarkable_generate_message E cfg {| tick := S (tick w) |})
    as Hminor.
  destruct (generate_message E cfg {| tick := S (tick w) |})
    as [[res w2] t2] eqn:Hrun.
  rewrite outcome_mk in Hgen. subst res. rewrite trace_mk in Hminor.
  assert (fold_each (u :: rest) 0 (dispatch_user E cfg)
            {| tick := S (tick w) |} = (Exc IndexError, w2, t2)) as Hfold.
  { simpl. apply bind_exc. unfold dispatch_user.
    unfold with_id in Hid. rewrite Hid. simpl. by apply bind_exc. }
  unfold send_messages_to_all. rewrite Husers.
  erewrite bind_val by reflexivity. cbv beta.
  erewrite bind_val by reflexivity. cbv beta.
  erewrite bind_val by reflexivity. cbv beta.
  rewrite (bind_exc _ _ _ _ _ _ Hfold), !outcome_mk, !final_mk, !trace_mk.
  simpl. by rewrite (minor_sends _ Hminor), (minor_sleeps _ Hminor).
Qed.

Lemma empty_fallback_aborts_witness :
  outcome (send_messages_to_all E_limited (cfg_with (Some []) [erin; frank])
             start) = Exc IndexError
  /\ sends (trace (send_messages_to_all E_limited
                     (cfg_with (Some []) [erin; frank]) start)) = [].
Proof.
  destruct (empty_fallback_aborts E_limited (cfg_with (Some []) [erin; frank])
              erin [frank] start {| tick := 3 |} GenerationError
              [GenerateContent "say hello"] eq_refl eq_refl eq_refl eq_refl)
    as (_ & H1 & H2 & _).
  split; [exact H1|exact H2].
Defined.

(** *** The accounts of a pass *)

Section Accounting.
Context (E : env) (cfg : config).
Hypothesis Hpool : fallback_pool cfg <> [].

Lemma dispatch_user_run acc u w :
  exists (b : bool) w' t,
    dispatch_user E cfg acc u w = (Val (if b then acc + 1 else acc), w', t)
    /\ successes t = (if b then 1 else 0)%nat
    /\ reported t = []
    /\ (fun s => s.1.1) <$> sends t
       = (if with_id u && twitter_credentials cfg then [uid_of u] else [])
    /\ (b = true -> with_id u = true).
Proof.
  destruct (with_id u) eqn:Hid; unfold with_id in Hid.
  - destruct (never_raises_run _ w (never_raises_generate_message E cfg Hpool))
      as (msg & w1 & t1 & Hgen).
    pose proof (unremarkable_generate_message E cfg w) as Hm1.
    rewrite Hgen, trace_mk in Hm1.
    destruct (never_raises_run _ w1 (never_raises_attach_random_image E cfg))
      as (media & w2 & t2 & Hatt).
    pose proof (unremarkable_attach_random_image E cfg w1) as Hm2.
    rewrite Hatt, trace_mk in Hm2.
    destruct (send_dm_to_user_run E cfg (uid_of u) msg media w2)
      as (b & t3 & Hsend & Hb & Hs3 & _ & Hsu3 & Hr3).
    exists b. unfold dispatch_user. rewrite Hid. cbn [negb].
    rewrite (bind_val _ _ _ _ _ _ Hgen); cbv beta.
    rewrite (bind_val _ _ _ _ _ _ Hatt); cbv beta.
    change (default ""%string (user_id u)) with (uid_of u).
    rewrite (bind_val _ _ _ _ _ _ Hsend); cbv beta.
    unfold report, log, sleep.
    destruct b, (truthy_int media); unfold bind, emit, ret; cbn [fst snd];
      rewrite !outcome_mk, !final_mk, !trace_mk;
      (do 2 eexists; split; [reflexivity|]);
      rewrite !successes_app, !reported_app, !requests_app,
        (minor_successes _ Hm1), (minor_successes _ Hm2), Hsu3,
        (minor_reported _ Hm1), (minor_reported _ Hm2), Hr3,
        (minor_sends _ Hm1), (minor_sends _ Hm2), Hs3;
      (split; [done|]); (split; [done|]);
      (split; [destruct (twitter_credentials cfg); done|done]).
  - exists false, w, [Log Warning MissingUserId].
    unfold dispatch_user. rewrite Hid. cbn. by repeat split.
Qed.

Lemma pass_loop_run l acc w :
  exists (n : nat) w' t,
    fold_each l acc (dispatch_user E cfg) w = (Val (acc + Z.of_nat n), w', t)
    /\ successes t = n
    /\ reported t = []
    /\ (fun s => s.1.1) <$> sends t
       = uid_of <$> List.filter
                      (fun u => with_id u && twitter_credentials cfg) l
    /\ (n <= length (List.filter with_id l))%nat.
Proof.
  revert acc w. induction l as [|u l IH]; intros acc w.
  { exists 0%nat, w, []. simpl. unfold ret.
    replace (acc + Z.of_nat 0) with acc by lia. by repeat split. }
  destruct (dispatch_user_run acc u w)
    as (b & w1 & t1 & Hrun & Hsu & Hrep & Hs & Hb).
  destruct (IH (if b then acc + 1 else acc) w1)
    as (n & w2 & t2 & Hrest & Hsu' & Hrep' & Hs' & Hn).
  exists ((if b then 1 else 0) + n)%nat, w2, (t1 ++ t2).
  simpl. rewrite (bind_val _ _ _ _ _ _ Hrun), Hrest.
  rewrite outcome_mk, final_mk, trace_mk.
  replace (acc + Z.of_nat ((if b then 1 else 0) + n))
    with ((if b then acc + 1 else acc) + Z.of_nat n) by (destruct b; lia).
  split; [done|].
  rewrite successes_app, reported_app, requests_app, fmap_app, Hsu, Hsu', Hrep,
    Hrep', Hs, Hs'.
  split; [done|]. split; [done|]. split.
  - by destruct (with_id u && twitter_credentials cfg).
  - destruct b; [rewrite Hb by done; simpl; lia|].
    destruct (with_id u); simpl; lia.
Qed.

End Accounting.

(** X14, the accounts of a pass.  With a fallback pool that is not empty
    the pass returns.  Its summary line reports as successes exactly the
    number of per-user success lines, out of all configured target users,
    those without a user id included; the successes are at most the users
    that have an id; and, with the credentials present, one request is sent
    per user that has an id, in configuration order. *)
Theorem pass_accounting (E : env) (cfg : config) (w : world) :
  fallback_pool cfg <> [] ->
  let run := send_messages_to_all E cfg w in
  let users := target_users cfg in
  outcome run = Val tt
  /\ reported (trace run)
     = [(Z.of_nat (successes (trace run)), Z.of_nat (length users))]
  /\ (successes (trace run) <= length (List.filter with_id users))%nat
  /\ (fun s => s.1.1) <$> sends (trace run)
     = uid_of <$> List.filter
                    (fun u => with_id u && twitter_credentials cfg) users.
Proof.
  intros Hpool run users. subst run users.
  destruct (pass_loop_run E cfg Hpool (target_users cfg) 0
              {| tick := S (tick w) |})
    as (n & w1 & t & Hloop & Hsu & Hrep & Hs & Hn).
  unfold send_messages_to_all.
  erewrite bind_val by reflexivity. cbv beta.
  erewrite bind_val by reflexivity. cbv beta.
  erewrite bind_val by reflexivity. cbv beta.
  rewrite (bind_val _ _ _ _ _ _ Hloop). cbv beta.
  unfold log, bind, emit. cbn [fst snd].
  rewrite !outcome_mk, !trace_mk. cbn [app].
  split; [done|].
  change (Log Info (BatchStart ?x) :: Log Info (TargetCount ?y) :: ?rest)
    with ([Log Info (BatchStart x); Log Info (TargetCount y)] ++ rest).
  rewrite !successes_app, !reported_app, !requests_app, !fmap_app, Hsu, Hrep, Hs.
  cbn. rewrite Nat.add_0_r, app_nil_r. by repeat split.
Qed.

Lemma pass_accounting_witness :
  reported (trace (send_messages_to_all E_sizes
                     (cfg_with None [erin; nobody; frank]) start))
  = [(Z.of_nat (successes (trace (send_messages_to_all E_sizes
                                    (cfg_with None [erin; nobody; frank])
                                    start))), 3)].
Proof.
  apply (pass_accounting E_sizes (cfg_with None [erin; nobody; frank]) start).
  done.
Defined.

End SenderMore.

(** ** DM.py: the configuration manager *)

Module ConfigFacts.
Import DM ConfigManager RuntimeFacts DMFacts.

Lemma first_missing_none {V} (keys : list string) (m : gmap string V) :
  first_missing keys m = None <-> Forall (fun k => is_Some (m !! k)) keys.
Proof.
  induction keys as [|k keys IH]; simpl.
  - split; [constructor|done].
  - destruct (m !! k) as [v|] eqn:Hk.
    + rewrite IH. split.
      * intros H. constructor; [by rewrite Hk|done].
      * by intros [_ H]%Forall_cons.
    + split; [done|]. intros [[v Hv] _]%Forall_cons. congruence.
Qed.

Lemma check_field_none {V} field keys (section : option (gmap string V)) :
  check_field field keys section = None <->
  exists m, section = Some m /\ Forall (fun k => is_Some (m !! k)) keys.
Proof.
  unfold check_field. destruct section as [m|].
  - destruct (first_missing keys m) as [k|] eqn:Hk.
    + split; [done|]. intros (m' & [= <-] & Hall).
      apply first_missing_none in Hall. congruence.
    + split; [|done]. intros _. exists m. split; [done|].
      by apply first_missing_none.
  - split; [done|]. by intros (m & ? & _).
Qed.

(** X15, what [validate_config] accepts.  A document is accepted exactly
    when it has the credentials section with its four keys, the schedule
    section with ['interval_hours'], a recipients entry, and an API key
    other than the placeholder; only the API key is compared with a
    placeholder, and an empty recipient list is accepted.  A rejection logs
    one error line, an acceptance no error at all. *)
Theorem validate_config_accepts (doc : document) :
  ((validate_config doc).1 = true <->
   exists creds ss rs,
     api_credentials doc = Some creds
     /\ Forall (fun k => is_Some (creds !! k)) required_credentials
     /\ creds !! "api_key"%string <> Some placeholder_key
     /\ schedule_settings doc = Some ss
     /\ is_Some (ss !! "interval_hours"%string)
     /\ doc_recipients doc = Some rs)
  /\ ((validate_config doc).1 = false ->
      exists c, (validate_config doc).2 = [(Error, c)])
  /\ ((validate_config doc).1 = true ->
      (validate_config doc).2
      = match doc_recipients doc with
        | Some [] => [(Warning, NoRecipients)]
        | _ => []
        end).
Proof.
  unfold validate_config.
  destruct (check_field "api_credentials" _ _) as [c1|] eqn:H1.
  { split; [|split]; [|by eexists|done]. split; [done|].
    intros (creds & ss & rs & Hc & Hall & _).
    assert (check_field "api_credentials" required_credentials
              (api_credentials doc) = None) as Hn
      by (apply check_field_none; eauto).
    congruence. }
  apply check_field_none in H1 as (creds & Hc & Hall).
  destruct (check_field "schedule_settings" _ _) as [c2|] eqn:H2.
  { split; [|split]; [|by eexists|done]. split; [done|].
    intros (creds' & ss & rs & _ & _ & _ & Hs & Hi & _).
    assert (check_field "schedule_settings" ["interval_hours"%string]
              (schedule_settings doc) = None) as Hn.
    { apply check_field_none. exists ss. split; [done|]. by constructor. }
    congruence. }
  apply check_field_none in H2 as (ss & Hs & Hi).
  apply Forall_cons in Hi as [Hi _].
  destruct (doc_recipients doc) as [rs|] eqn:Hr.
  2:{ split; [|split]; [|by eexists|done]. split; [done|].
      by intros (? & ? & ? & _ & _ & _ & _ & _ & ?). }
  rewrite Hc. simpl. case_bool_decide as Hkey; simpl.
  - split; [|split]; [|by eexists|done]. split; [done|].
    intros (creds' & ? & ? & [= <-] & _ & Hne & _). done.
  - split; [|split]; [|done|].
    + split; [|done]. intros _. by exists creds, ss, rs.
    + intros _. destruct rs; by simpl.
Qed.

(** A document with the placeholder credentials of the template is
    rejected; with the API key set, the other credentials left as they are,
    it is accepted, and its empty recipient list is only warned about. *)
Lemma validate_config_accepts_witness :
  (validate_config keyed_document).1 = true
  /\ (validate_config keyed_document).2 = [(Warning, NoRecipients)]
  /\ (validate_config template_document).1 = false.
Proof.
  pose proof (validate_config_accepts keyed_document) as (H1 & _ & H2).
  assert ((validate_config keyed_document).1 = true) as Hok.
  { apply H1. do 3 eexists. split; [reflexivity|].
    split; [by repeat constructor|]. by repeat split. }
  split; [exact Hok|]. split; [exact (H2 Hok)|reflexivity].
Defined.

(** X16, adding a template.  After [add_message_template], a recipient
    without a non-empty inline list that uses the category gets the new
    messages, normalized, even when the category existed before; every
    recipient of another category, and every recipient with a non-empty
    inline list, gets what it got before; the recipients are unchanged. *)
Theorem template_added (category : string) (messages : list message)
    (cfg : config) :
  let cfg' := add_message_template category messages cfg in
  (forall r,
     truthy_list (custom_messages r) = false ->
     default "custom"%string (message_category r) = category ->
     get_messages_for_recipient cfg' r = normalize <$> messages)
  /\ (forall r,
        default "custom"%string (message_category r) <> category ->
        get_messages_for_recipient cfg' r = get_messages_for_recipient cfg r)
  /\ (forall r,
        truthy_list (custom_messages r) = true ->
        get_messages_for_recipient cfg' r = get_messages_for_recipient cfg r)
  /\ recipients cfg' = recipients cfg.
Proof.
  intros cfg'. subst cfg'. unfold get_messages_for_recipient. simpl.
  split; [|split; [|split]]; [| | |done].
  - intros r Hc <-. by rewrite Hc, lookup_insert_eq.
  - intros r Hne. destruct (truthy_list (custom_messages r)); [done|].
    by rewrite lookup_insert_ne.
  - intros r Hc. by rewrite Hc.
Qed.

Lemma template_added_witness :
  get_messages_for_recipient
    (add_message_template "greeting" [MStr "hi again"] cfg_templates)
    (with_category (Some "greeting"%string) None)
  = [MDict (Some "hi again"%string) None].
Proof.
  by apply (template_added "greeting" [MStr "hi again"] cfg_templates).
Defined.

(** X17, adding a recipient.  [add_recipient] raises [KeyError] on a
    document without a recipients entry.  Otherwise the new recipient is
    appended last, enabled, with the given id and an inline list that is
    empty when none was given; the messages of every recipient resolve as
    before; and a cycle on the new document attempts the recipients it
    attempted before, in the same order, and then the new one when it has a
    non-empty id and a message. *)
Theorem recipient_added (E : env) (uid uname category : string)
    (custom : option (list message)) (cfg : config) (w : world) :
  (recipients cfg = None ->
   add_recipient uid uname category custom cfg = Exc KeyError)
  /\ (forall rs,
        recipients cfg = Some rs ->
        let r := new_recipient uid uname category custom in
        exists cfg',
          add_recipient uid uname category custom cfg = Val cfg'
          /\ recipients cfg' = Some (rs ++ [r])
          /\ (forall r', get_messages_for_recipient cfg' r'
                         = get_messages_for_recipient cfg r')
          /\ attempted (trace (send_scheduled_messages E cfg' w))
             = (uid_of <$> List.filter (dispatchable cfg) rs)
               ++ (if dispatchable cfg r then [uid] else [])).
Proof.
  split.
  - intros Hn. unfold add_recipient. by rewrite Hn.
  - intros rs Hrs r. unfold add_recipient. rewrite Hrs.
    eexists. split; [reflexivity|].
    match goal with
    | |- context [send_scheduled_messages E ?c w] => set (cfg' := c)
    end.
    assert (forall r', dispatchable cfg' r' = dispatchable cfg r') as Hsame
      by done.
    split; [done|]. split; [done|].
    rewrite <- attempted_loud, cycle_loud, attempted_loud, loop_attempted.
    change (default [] (recipients cfg')) with (rs ++ [r]).
    rewrite (List.filter_ext _ _ Hsame), List.filter_app, fmap_app.
    f_equal. simpl. by destruct (dispatchable cfg r).
Qed.

Lemma recipient_added_witness :
  exists cfg',
    add_recipient "1010" "judy" "greeting" None cfg_templates = Exc KeyError
    /\ add_recipient "1010" "judy" "greeting" None (cfg_of false [alice])
       = Val cfg'
    /\ attempted (trace (send_scheduled_messages E_up cfg' fresh_world))
       = ["1001"%string; "1010"%string].
Proof.
  destruct (recipient_added E_up "1010" "judy" "greeting" None cfg_templates
              fresh_world) as [H1 _].
  destruct (recipient_added E_up "1010" "judy" "greeting" None
              (cfg_of false [alice]) fresh_world) as [_ H2].
  destruct (H2 [alice] eq_refl) as (cfg' & Hadd & _ & _ & Hatt).
  exists cfg'. split; [by apply H1|]. split; [exact Hadd|exact Hatt].
Defined.

End ConfigFacts.

(** ** image_helper.py: resizing *)

Module ImageFacts.
Import ImageHelper RuntimeFacts.

Lemma qualities_app t1 t2 : qualities (t1 ++ t2) = qualities t1 ++ qualities t2.
Proof. apply omap_app. Qed.

Lemma descending_succ q k : descending q (S k) = q :: descending (q - 5) k.
Proof.
  unfold descending. simpl. f_equal; [lia|].
  rewrite <- fmap_S_seq, <- list_fmap_compose. apply list_fmap_ext.
  intros i x _. simpl. lia.
Qed.

(** A file of at most [n] MB is not over a limit of [n] MB. *)
Lemma mb_within size n :
  size <= Z.pos n * (1024 * 1024) -> Qle_bool (mb size) (Z.pos n # 1) = true.
Proof.
  intros Hs. apply Qle_bool_iff. unfold mb, Qle, Qdiv, Qmult, Qinv, inject_Z.
  simpl. lia.
Qed.

Section Rounds.
Context (E : env).

Lemma getsize_run p w :
  os_path_getsize p w
  = (match disk w !! p with Some n => Val n | None => Exc OSError end, w, []).
Proof.
  unfold os_path_getsize, bind, get. simpl. by destruct (disk w !! p).
Qed.

Lemma save_run path ns q w :
  save E path ns q w
  = match save_api E (tick w) path ns q with
    | Val written =>
        (Val tt, {| disk := <[path := written]> (disk w);
                    tick := S (tick w) |}, [Saved path ns q])
    | Exc e => (Exc e, {| disk := disk w; tick := S (tick w) |}, [])
    end.
Proof.
  unfold save, bind, fresh, get, put, emit, of_result. simpl.
  by destruct (save_api E (tick w) path ns q).
Qed.

(** The saves of the loop, whether it ends or is cut by an exception. *)
Lemma shrink_rounds fuel img out limit cur q sc w :
  exists k : nat,
    qualities (trace (shrink E fuel img out limit cur q sc w))
    = descending q k
    /\ (k <= fuel)%nat
    /\ ((0 < k)%nat -> 5 * Z.of_nat k < q - 15).
Proof.
  revert cur q sc w. induction fuel as [|fuel IH]; intros cur q sc w; simpl.
  - exists 0%nat. destruct (over cur limit && (20 <? q)); simpl;
      repeat split; try done; lia.
  - destruct (over cur limit && (20 <? q)) eqn:Hc; simpl.
    2:{ exists 0%nat. repeat split; try done; lia. }
    apply andb_prop in Hc as [_ Hq%Z.ltb_lt].
    set (sc' := sc ++ [if over cur (limit * 2) then Times07 else Times09]).
    set (ns := (scaled E img.1 sc', scaled E img.2 sc')).
    erewrite bind_val by reflexivity. cbv beta.
    destruct (resize_api E (tick w) ns) as [[]|e].
    2:{ erewrite bind_exc by reflexivity. exists 0%nat.
        repeat split; try done; lia. }
    erewrite bind_val by reflexivity. cbv beta.
    pose proof (save_run out ns q {| disk := disk w; tick := S (tick w) |})
      as Hsave.
    destruct (save_api E _ out ns q) as [written|e]; simpl in Hsave.
    2:{ rewrite (bind_exc _ _ _ _ _ _ Hsave), !trace_mk. exists 0%nat.
        repeat split; try done; lia. }
    rewrite (bind_val _ _ _ _ _ _ Hsave). cbv beta.
    match goal with
    | |- context [bind (os_path_getsize out) _ ?w1] =>
        pose proof (getsize_run out w1) as Hsize
    end.
    simpl in Hsize. rewrite lookup_insert_eq in Hsize.
    rewrite (bind_val _ _ _ _ _ _ Hsize). cbv beta.
    erewrite bind_val by reflexivity. cbv beta.
    match goal with
    | |- context [shrink E fuel img out limit written (q - 5) sc' ?w1] =>
        destruct (IH written (q - 5) sc' w1) as (k & Hk & Hle & Hbound)
    end.
    exists (S k). rewrite !trace_mk, !qualities_app, Hk, descending_succ.
    split; [done|]. split; [lia|]. intros _.
    destruct k; [lia|]. specialize (Hbound ltac:(lia)). lia.
Qed.

(** With fuel for every quality above 20 the loop does not run out. *)
Lemma shrink_enough fuel img out limit cur q sc w :
  q - 20 <= 5 * Z.of_nat fuel ->
  outcome (shrink E fuel img out limit cur q sc w) <> Val None.
Proof.
  revert cur q sc w. induction fuel as [|fuel IH]; intros cur q sc w Hq;
    simpl.
  - destruct (Z.ltb_spec 20 q); [lia|]. by rewrite andb_false_r.
  - destruct (over cur limit && (20 <? q)) eqn:Hc; [|done].
    set (sc' := sc ++ [if over cur (limit * 2) then Times07 else Times09]).
    set (ns := (scaled E img.1 sc', scaled E img.2 sc')).
    erewrite bind_val by reflexivity. cbv beta.
    destruct (resize_api E (tick w) ns) as [[]|e].
    2:{ by erewrite bind_exc by reflexivity. }
    erewrite bind_val by reflexivity. cbv beta.
    pose proof (save_run out ns q {| disk := disk w; tick := S (tick w) |})
      as Hsave.
    destruct (save_api E _ out ns q) as [written|e]; simpl in Hsave.
    2:{ by rewrite (bind_exc _ _ _ _ _ _ Hsave). }
    rewrite (bind_val _ _ _ _ _ _ Hsave). cbv beta.
    match goal with
    | |- context [bind (os_path_getsize out) _ ?w1] =>
        pose proof (getsize_run out w1) as Hsize
    end.
    simpl in Hsize. rewrite lookup_insert_eq in Hsize.
    rewrite (bind_val _ _ _ _ _ _ Hsize). cbv beta.
    erewrite bind_val by reflexivity. cbv beta.
    rewrite !outcome_mk. apply IH. lia.
Qed.

(** When no save gets the file under the limit, the loop makes a round for
    every quality above 20 and returns with the file still over it. *)
Lemma shrink_stubborn n fuel img out limit cur sc w :
  never_small_enough E limit ->
  over cur limit = true ->
  (n <= fuel)%nat ->
  exists size w' t,
    shrink E fuel img out limit cur (20 + 5 * Z.of_nat n) sc w
    = (Val (Some size), w', t)
    /\ qualities t = descending (20 + 5 * Z.of_nat n) n
    /\ over size limit = true
    /\ ((0 < n)%nat -> disk w' !! out = Some size).
Proof.
  intros [Hresize Hsave]. revert fuel cur sc w.
  induction n as [|n IH]; intros fuel cur sc w Hover Hfuel.
  - exists cur, w, []. split; [|split; [done|split; [done|lia]]].
    destruct fuel; simpl; by rewrite andb_false_r.
  - destruct fuel as [|fuel]; [lia|].
    assert ((20 <? 20 + 5 * Z.of_nat (S n)) = true) as Hq
      by (apply Z.ltb_lt; lia).
    simpl shrink. rewrite Hover, Hq. cbn [andb].
    set (sc' := sc ++ [if over cur (limit * 2) then Times07 else Times09]).
    set (ns := (scaled E img.1 sc', scaled E img.2 sc')).
    erewrite bind_val by reflexivity. cbv beta.
    rewrite (Hresize (tick w) ns).
    erewrite bind_val by reflexivity. cbv beta.
    pose proof (save_run out ns (20 + 5 * Z.of_nat (S n))
                  {| disk := disk w; tick := S (tick w) |}) as Hrun.
    destruct (Hsave (S (tick w)) out ns (20 + 5 * Z.of_nat (S n)))
      as (written & Hw & Hbig).
    simpl in Hrun. rewrite Hw in Hrun.
    rewrite (bind_val _ _ _ _ _ _ Hrun). cbv beta.
    match goal with
    | |- context [bind (os_path_getsize out) _ ?w1] =>
        pose proof (getsize_run out w1) as Hsize
    end.
    simpl in Hsize. rewrite lookup_insert_eq in Hsize.
    rewrite (bind_val _ _ _ _ _ _ Hsize). cbv beta.
    erewrite bind_val by reflexivity. cbv beta.
    replace (20 + 5 * Z.of_nat (S n) - 5) with (20 + 5 * Z.of_nat n) by lia.
    match goal with
    | |- context [shrink E fuel img out limit written _ sc' ?w1] =>
        destruct (IH fuel written sc' w1 Hbig ltac:(lia))
          as (size & w' & t & Hsome & Hqs & Hbig' & Hdisk)
    end.
    rewrite Hsome, !outcome_mk, !final_mk, !trace_mk.
    exists size, w'. eexists. split; [reflexivity|].
    split.
    { rewrite !qualities_app, Hqs, descending_succ. simpl.
      by replace (20 + 5 * Z.of_nat (S n) - 5) with (20 + 5 * Z.of_nat n)
        by lia. }
    split; [done|]. intros _.
    destruct n as [|n]; [|apply Hdisk; lia].
    destruct fuel; simpl in Hsome; rewrite andb_false_r in Hsome;
      injection Hsome as <- <- _; simpl; by rewrite lookup_insert_eq.
Qed.

(** A call on a file within the limit: nothing is saved. *)
Lemma resize_fuel_within fuel input output limit w :
  (forall size, disk w !! input = Some size ->
                Qle_bool (mb size) limit = true) ->
  qualities (trace (resize_image_fuel E fuel input output limit w)) = []
  /\ disk (final (resize_image_fuel E fuel input output limit w)) = disk w.
Proof.
  intros Hsmall. unfold resize_image_fuel.
  erewrite bind_val by reflexivity. cbv beta.
  destruct (open_image E (tick w) input) as [img|e].
  2:{ by erewrite bind_exc by reflexivity. }
  erewrite bind_val by reflexivity. cbv beta.
  match goal with
  | |- context [bind (os_path_getsize input) _ ?w1] =>
      pose proof (getsize_run input w1) as Hsize
  end.
  simpl in Hsize.
  destruct (disk w !! input) as [size|] eqn:Hin.
  2:{ by rewrite (bind_exc _ _ _ _ _ _ Hsize). }
  rewrite (bind_val _ _ _ _ _ _ Hsize). cbv beta.
  by rewrite (Hsmall size eq_refl).
Qed.

(** *** Programs that leave small files alone *)

Lemma harmless_ret {A} (a : A) : harmless (ret a).
Proof. by intros w _. Qed.

Lemma harmless_fresh : harmless fresh.
Proof. by intros w _. Qed.

Lemma harmless_print l : harmless (print l).
Proof. by intros w _. Qed.

Lemma harmless_of_result {A} (r : result A) : harmless (of_result r).
Proof. destruct r; by intros w _. Qed.

Lemma harmless_getsize p : harmless (os_path_getsize p).
Proof. intros w _. rewrite getsize_run. by destruct (disk w !! p). Qed.

Lemma harmless_bind {A B} (m : M A) (k : A -> M B) :
  harmless m -> (forall a, harmless (k a)) -> harmless (bind m k).
Proof.
  intros Hm Hk w Hw. pose proof (Hm w Hw) as [Hq Hd].
  destruct (m w) as [[[a|e] w1] t1] eqn:Hrun.
  - rewrite (bind_val _ _ _ _ _ _ Hrun), trace_mk, final_mk, qualities_app.
    rewrite trace_mk in Hq. rewrite final_mk in Hd.
    assert (all_small w1) as Hw1 by (intros p s; rewrite Hd; apply Hw).
    destruct (Hk a w1 Hw1) as [Hq' Hd']. by rewrite Hq, Hq', Hd'.
  - by rewrite (bind_exc _ _ _ _ _ _ Hrun).
Qed.

Lemma harmless_for_each {A} (l : list A) (body : A -> M unit) :
  (forall x, harmless (body x)) -> harmless (for_each l body).
Proof.
  intros Hb. induction l as [|x l IH]; simpl.
  - apply harmless_ret.
  - apply harmless_bind; auto.
Qed.

(** The call of the batch: the limit is the default one, 5 MB. *)
Lemma harmless_resize_default p : harmless (resize_image E p None (5 # 1)).
Proof.
  intros w Hw. apply resize_fuel_within. intros size Hsize.
  apply (mb_within size 5). specialize (Hw p size Hsize). lia.
Qed.

Lemma harmless_batch_file limit p : harmless (batch_file E limit p).
Proof.
  unfold batch_file.
  destruct (existsb _ supported_formats); [|apply harmless_ret].
  apply harmless_bind; [apply harmless_getsize|]. intros size.
  destruct (over size limit); [|apply harmless_ret].
  apply harmless_bind; [apply harmless_print|]. intros _.
  apply harmless_bind; [apply harmless_resize_default|]. intros _.
  apply harmless_ret.
Qed.

End Rounds.

(** X18, image_helper.py resize_image: the loop ends by itself.  Whatever
    Pillow and the disk answer, the call makes at most fifteen saves, at the
    qualities 95, 90, 85, ... in this order, so no save is below quality
    25. *)
Theorem resize_rounds (E : env) input output limit w :
  let run := resize_image E input output limit w in
  outcome run <> Val None
  /\ exists k : nat,
       (k <= 15)%nat /\ qualities (trace run) = descending 95 k.
Proof.
  intros run. subst run. unfold resize_image, resize_image_fuel.
  set (out := if truthy_str output then default ""%string output
              else resized_name E input).
  erewrite bind_val by reflexivity. cbv beta.
  destruct (open_image E (tick w) input) as [img|e].
  2:{ erewrite bind_exc by reflexivity. split; [done|]. exists 0%nat. split; [lia|done]. }
  erewrite bind_val by reflexivity. cbv beta.
  match goal with
  | |- context [bind (os_path_getsize input) _ ?w1] =>
      pose proof (getsize_run input w1) as Hsize
  end.
  simpl in Hsize.
  destruct (disk w !! input) as [size|] eqn:Hin.
  2:{ rewrite (bind_exc _ _ _ _ _ _ Hsize). split; [done|]. exists 0%nat. split; [lia|done]. }
  rewrite (bind_val _ _ _ _ _ _ Hsize). cbv beta.
  destruct (Qle_bool (mb size) limit).
  { split; [done|]. exists 0%nat. split; [lia|done]. }
  match goal with
  | |- context [bind (shrink E 15 img out limit size 95 [])  _ ?w1] =>
      pose proof (shrink_enough E 15 img out limit size 95 [] w1
                    ltac:(lia)) as Hfuel;
      destruct (shrink_rounds E 15 img out limit size 95 [] w1)
        as (k & Hk & Hle & _);
      destruct (shrink E 15 img out limit size 95 [] w1)
        as [[[[final_size|]|e] w2] t2] eqn:Hrun
  end.
  - rewrite (bind_val _ _ _ _ _ _ Hrun). split; [done|].
    exists k. split; [lia|]. rewrite trace_mk in Hk.
    rewrite !trace_mk, !qualities_app, Hk. simpl. by rewrite app_nil_r.
  - by rewrite outcome_mk in Hfuel.
  - rewrite (bind_exc _ _ _ _ _ _ Hrun). split; [done|].
    exists k. split; [lia|]. by rewrite trace_mk in Hk.
Qed.

(** X19, image_helper.py resize_image: a file that is within the limit is
    left alone.  Nothing is saved and the disk is as before, so no output
    file appears; when the image opens, the call only prints that the file
    is small already. *)
Theorem resize_within_limit (E : env) input output limit w size :
  disk w !! input = Some size ->
  Qle_bool (mb size) limit = true ->
  let run := resize_image E input output limit w in
  qualities (trace run) = []
  /\ disk (final run) = disk w
  /\ (forall img, open_image E (tick w) input = Val img ->
                  outcome run = Val (Some tt)
                  /\ trace run = [Print (AlreadySmall size)]).
Proof.
  intros Hin Hsmall run. subst run.
  destruct (resize_fuel_within E 15 input output limit w) as [Hq Hd].
  { intros size' Hin'. by simplify_eq. }
  split; [exact Hq|]. split; [exact Hd|].
  intros img Himg. unfold resize_image, resize_image_fuel.
  erewrite bind_val by reflexivity. cbv beta. rewrite Himg.
  erewrite bind_val by reflexivity. cbv beta.
  match goal with
  | |- context [bind (os_path_getsize input) _ ?w1] =>
      pose proof (getsize_run input w1) as Hsize
  end.
  simpl in Hsize. rewrite Hin in Hsize.
  rewrite (bind_val _ _ _ _ _ _ Hsize). cbv beta.
  by rewrite Hsmall.
Qed.

Lemma resize_within_limit_witness :
  qualities (trace (resize_image E_stubborn "photos/a.jpg" None (5 # 1) shelf))
  = []
  /\ disk (final (resize_image E_stubborn "photos/a.jpg" None (5 # 1) shelf))
     = disk shelf
  /\ (forall img, open_image E_stubborn (tick shelf) "photos/a.jpg" = Val img ->
        outcome (resize_image E_stubborn "photos/a.jpg" None (5 # 1) shelf)
        = Val (Some tt)
        /\ trace (resize_image E_stubborn "photos/a.jpg" None (5 # 1) shelf)
           = [Print (AlreadySmall (3 * 1024 * 1024))]).
Proof.
  apply (resize_within_limit E_stubborn "photos/a.jpg" None (5 # 1) shelf
           (3 * 1024 * 1024)).
  - reflexivity.
  - reflexivity.
Defined.

(** X20, image_helper.py resize_image: the result is not always within the
    limit.  When every save leaves a file above the limit, the call makes
    all fifteen rounds, down to quality 25, then reports that the resize is
    complete and returns: the output file is on disk and still above the
    limit. *)
Theorem resize_gives_up (E : env) input output limit w img size :
  never_small_enough E limit ->
  open_image E (tick w) input = Val img ->
  disk w !! input = Some size ->
  over size limit = true ->
  let out := if truthy_str output then default ""%string output
             else resized_name E input in
  let run := resize_image E input output limit w in
  outcome run = Val (Some tt)
  /\ qualities (trace run) = descending 95 15
  /\ exists size',
       disk (final run) !! out = Some size'
       /\ over size' limit = true
       /\ last (trace run) = Some (Print (Finished out size')).
Proof.
  intros Hnever Himg Hin Hover out run. subst run.
  unfold resize_image, resize_image_fuel. fold out.
  erewrite bind_val by reflexivity. cbv beta. rewrite Himg.
  erewrite bind_val by reflexivity. cbv beta.
  match goal with
  | |- context [bind (os_path_getsize input) _ ?w1] =>
      pose proof (getsize_run input w1) as Hsize
  end.
  simpl in Hsize. rewrite Hin in Hsize.
  rewrite (bind_val _ _ _ _ _ _ Hsize). cbv beta.
  unfold over in Hover. apply negb_true_iff in Hover as Hle. rewrite Hle.
  match goal with
  | |- context [bind (shrink E 15 img out limit size 95 [])  _ ?w1] =>
      destruct (shrink_stubborn E 15 15 img out limit size [] w1 Hnever)
        as (size' & w' & t & Hrun & Hqs & Hbig & Hdisk);
        [by unfold over; rewrite Hle|lia|]
  end.
  change (20 + 5 * Z.of_nat 15) with 95 in Hrun, Hqs.
  rewrite (bind_val _ _ _ _ _ _ Hrun).
  split; [done|]. split.
  { rewrite !trace_mk, !qualities_app, Hqs. simpl. by rewrite ?app_nil_r. }
  exists size'. split; [apply Hdisk; lia|]. split; [done|].
  rewrite !trace_mk. simpl. by rewrite last_snoc.
Qed.

Lemma resize_gives_up_witness :
  outcome (resize_image E_stubborn "photos/a.jpg" None (5 # 1) heavy)
  = Val (Some tt)
  /\ qualities (trace (resize_image E_stubborn "photos/a.jpg" None (5 # 1)
                         heavy))
     = descending 95 15
  /\ exists size',
       disk (final (resize_image E_stubborn "photos/a.jpg" None (5 # 1)
                      heavy)) !! "photos/a_resized.jpg"%string = Some size'
       /\ over size' (5 # 1) = true
       /\ last (trace (resize_image E_stubborn "photos/a.jpg" None (5 # 1)
                         heavy))
          = Some (Print (Finished "photos/a_resized.jpg" size')).
Proof.
  apply (resize_gives_up E_stubborn "photos/a.jpg" None (5 # 1) heavy
           (4000, 3000) (12 * 1024 * 1024)).
  - split; [done|]. intros t path new_size quality.
    exists (9 * 1024 * 1024). by split.
  - reflexivity.
  - reflexivity.
  - reflexivity.
Defined.

(** X21, image_helper.py batch_resize_images: the limit given to the batch
    only selects the files that are announced; the resize is called with
    its own default of 5 MB.  So whatever limit the batch is given, on a
    disk whose files are all at most 5 MB it saves nothing and leaves the
    disk as it is. *)
Theorem batch_keeps_default_limit (E : env) directory limit w :
  all_small w ->
  let run := batch_resize_images E directory limit w in
  qualities (trace run) = [] /\ disk (final run) = disk w.
Proof.
  intros Hw run. subst run. revert w Hw.
  change (harmless (batch_resize_images E directory limit)).
  unfold batch_resize_images.
  apply harmless_bind; [apply harmless_fresh|]. intros t.
  apply harmless_bind; [apply harmless_of_result|]. intros files.
  apply harmless_for_each. intros p. apply harmless_batch_file.
Qed.

Lemma batch_keeps_default_limit_witness :
  targets (trace (batch_resize_images E_stubborn "photos" (2 # 1) shelf))
  = ["photos/a.jpg"%string]
  /\ qualities (trace (batch_resize_images E_stubborn "photos" (2 # 1) shelf))
     = []
  /\ disk (final (batch_resize_images E_stubborn "photos" (2 # 1) shelf))
     = disk shelf.
Proof.
  split; [reflexivity|].
  apply (batch_keeps_default_limit E_stubborn "photos" (2 # 1) shelf).
  intros p size Hp. unfold shelf in Hp. simpl in Hp.
  apply lookup_insert_Some in Hp as [[_ <-]|[_ Hp]]; [lia|].
  apply lookup_singleton_Some in Hp as [_ <-]. lia.
Defined.

(** *** Validating the images of a configuration *)

Lemma image_reports_app t1 t2 :
  reported (t1 ++ t2) = reported t1 ++ reported t2.
Proof. apply omap_app. Qed.

Lemma extend_nil d dir acc : extend d dir acc [] = acc.
Proof. destruct acc. unfold extend. simpl. by rewrite !app_nil_r. Qed.

Lemma extend_app d dir acc r1 r2 :
  extend d dir (extend d dir acc r1) r2 = extend d dir acc (r1 ++ r2).
Proof.
  unfold extend, found_of, missing_of. simpl.
  by rewrite omap_app, List.filter_app, <- !app_assoc.
Qed.

Lemma message_refs_flat label msgs :
  message_refs label msgs
  = flat_map (fun msg => match image_of msg with
                         | Some n => [(label, n)]
                         | None => []
                         end) msgs.
Proof.
  unfold message_refs. induction msgs as [|msg msgs IH]; csimpl; [done|].
  destruct (image_of msg); csimpl; by rewrite IH.
Qed.

(** No reference is missing exactly when all are present. *)
Lemma missing_none d dir refs :
  Nat.eqb (length (missing_of d dir refs)) 0 = forallb (present d dir) refs.
Proof.
  unfold missing_of. induction refs as [|ref refs IH]; simpl; [done|].
  destruct (present d dir ref); simpl; [exact IH|done].
Qed.

Lemma checks_ret dir acc : checks dir [] acc (ret acc).
Proof. intros w. exists []. by rewrite extend_nil. Qed.

Lemma check_image_checks dir label name acc :
  checks dir [(label, name)] acc (check_image dir label name acc).
Proof.
  intros w. unfold check_image, os_path_exists, os_path_getsize, print.
  unfold bind, get, ret, emit. simpl.
  unfold extend, found_of, missing_of, present. simpl.
  destruct (disk w !! path_join dir name) as [size|] eqn:Hp; simpl.
  - rewrite Hp. eexists. split; [by rewrite app_nil_r|reflexivity].
  - eexists. split; [by rewrite app_nil_r|reflexivity].
Qed.

Lemma fold_checks {A} dir (items : list A)
    (refs_of : A -> list (string * string)) (body : lists -> A -> M lists) :
  (forall acc x, checks dir (refs_of x) acc (body acc x)) ->
  forall acc, checks dir (flat_map refs_of items) acc
                (fold_each items acc body).
Proof.
  intros Hb. induction items as [|x items IH]; intros acc w; simpl.
  - apply checks_ret.
  - destruct (Hb acc x w) as (t1 & Hr1 & Hp1).
    destruct (IH (extend (disk w) dir acc (refs_of x)) w)
      as (t2 & Hr2 & Hp2).
    exists (t1 ++ t2). rewrite (bind_val _ _ _ _ _ _ Hr1), Hr2, extend_app.
    split; [done|]. by rewrite image_reports_app, Hp1, Hp2.
Qed.

Lemma check_messages_checks dir label msgs acc :
  checks dir (message_refs label msgs) acc
    (check_messages dir label msgs acc).
Proof.
  rewrite message_refs_flat. unfold check_messages.
  apply (fold_checks dir msgs
           (fun msg => match image_of msg with
                       | Some n => [(label, n)]
                       | None => []
                       end)).
  intros acc' msg. destruct (image_of msg).
  - apply check_image_checks.
  - apply checks_ret.
Qed.

Lemma check_recipient_checks dir acc r :
  checks dir (recipient_refs r) acc (check_recipient dir acc r).
Proof.
  unfold check_recipient, recipient_refs.
  destruct (DM.truthy_list (DM.custom_messages r)).
  - apply check_messages_checks.
  - apply checks_ret.
Qed.

(** The warning about large images reports no reference. *)
Lemma large_report_run (large : list (string * string * Z)) w :
  exists t,
    for_each large (fun x => print (Large x.1.1 x.1.2 x.2)) w = (Val tt, w, t)
    /\ reported t = [].
Proof.
  induction large as [|x large IH]; simpl.
  - by exists [].
  - destruct IH as (t & Hrun & Ht).
    erewrite bind_val by reflexivity. rewrite Hrun. eexists.
    split; [reflexivity|]. done.
Qed.

Lemma summarize_run acc w :
  exists t,
    summarize acc w = (Val (Returned (Nat.eqb (length acc.2) 0)), w, t)
    /\ reported t = [].
Proof.
  unfold summarize.
  erewrite bind_val by reflexivity. cbv beta.
  erewrite bind_val by reflexivity. cbv beta.
  erewrite bind_val by reflexivity. cbv beta.
  assert (exists t3,
            match List.filter (fun x => over x.2 (5 # 1)) acc.1 with
            | [] => ret tt
            | _ :: _ =>
                print LargeHeader ;;
                for_each (List.filter (fun x => over x.2 (5 # 1)) acc.1)
                  (fun x => print (Large x.1.1 x.1.2 x.2))
            end w = (Val tt, w, t3)
            /\ reported t3 = []) as (t3 & Hr3 & Hp3).
  { destruct (List.filter _ acc.1) as [|x large].
    - by exists [].
    - destruct (large_report_run (x :: large) w) as (t & Hrun & Ht).
      erewrite bind_val by reflexivity. rewrite Hrun. eexists.
      split; [reflexivity|]. done. }
  rewrite (bind_val _ _ _ _ _ _ Hr3). cbv beta.
  eexists. split; [reflexivity|].
  rewrite !trace_mk, !image_reports_app, Hp3. done.
Qed.

(** The second half of the validation, from the lists that the templates
    gave. *)
Lemma check_custom_messages_run dir config acc w :
  match recipients config with
  | Null => check_custom_messages dir config acc w = (Val TypeError, w, [])
  | _ =>
      exists t,
        check_custom_messages dir config acc w
        = (Val (Returned
                  (Nat.eqb
                     (length
                        (extend (disk w) dir acc
                           (flat_map recipient_refs
                              (listed (recipients config)))).2) 0)),
           w, t)
        /\ reported t = flat_map recipient_refs (listed (recipients config))
  end.
Proof.
  unfold check_custom_messages.
  assert (forall rs,
            exists t,
              (acc' <- fold_each rs acc (check_recipient dir) ;;
               summarize acc') w
              = (Val (Returned
                        (Nat.eqb
                           (length
                              (extend (disk w) dir acc
                                 (flat_map recipient_refs rs)).2) 0)),
                 w, t)
              /\ reported t = flat_map recipient_refs rs) as Hloop.
  { intros rs.
    destruct (fold_checks dir rs recipient_refs (check_recipient dir)
                (fun acc' r => check_recipient_checks dir acc' r) acc w)
      as (t1 & Hr1 & Hp1).
    destruct (summarize_run
                (extend (disk w) dir acc (flat_map recipient_refs rs)) w)
      as (t2 & Hr2 & Hp2).
    exists (t1 ++ t2). rewrite (bind_val _ _ _ _ _ _ Hr1), Hr2.
    split; [done|]. by rewrite image_reports_app, Hp1, Hp2, app_nil_r. }
  destruct (recipients config) as [| |rs]; simpl; [apply (Hloop [])|done|].
  apply Hloop.
Qed.

(** X22, image_helper.py validate_images_in_config: once the configuration
    is loaded, the call reports every image that the configuration refers
    to, once and in order (the templates, then the recipients' own
    messages), and returns [True] exactly when each of them is in the
    images directory; the size of an image has no part in the answer.  A
    [null] in place of the templates stops it with [AttributeError] before
    any report, a [null] in place of the recipients with [TypeError] once
    the images of the templates are reported.  In every case nothing on
    disk is changed. *)
Theorem validate_images_verdict (E : env) config_file images_dir w config :
  json_load E (tick w) config_file = Val config ->
  let run := validate_images_in_config E config_file images_dir w in
  disk (final run) = disk w
  /\ match message_templates config, recipients config with
     | Null, _ =>
         outcome run = Val AttributeError /\ reported (trace run) = []
     | _, Null =>
         outcome run = Val TypeError
         /\ reported (trace run) = template_references config
     | _, _ =>
         outcome run
         = Val (Returned (forallb (present (disk w) images_dir)
                            (references config)))
         /\ reported (trace run) = references config
     end.
Proof.
  intros Hload run. subst run. unfold validate_images_in_config.
  erewrite bind_val by reflexivity. cbv beta.
  erewrite bind_val by reflexivity. cbv beta. rewrite Hload.
  erewrite bind_val by reflexivity. cbv beta.
  set (w1 := {| disk := disk w; tick := S (tick w) |}).
  assert (forall ts,
            listed (message_templates config) = ts ->
            let run :=
              (acc <- fold_each ts (([], []) : lists)
                        (fun acc entry =>
                           check_messages images_dir entry.1 entry.2 acc) ;;
               check_custom_messages images_dir config acc) w1 in
            disk (final run) = disk w
            /\ match recipients config with
               | Null =>
                   outcome run = Val TypeError
                   /\ reported ([Print Validating] ++ [] ++ [] ++ trace run)
                      = template_references config
               | _ =>
                   outcome run
                   = Val (Returned (forallb (present (disk w) images_dir)
                                      (references config)))
                   /\ reported ([Print Validating] ++ [] ++ [] ++ trace run)
                      = references config
               end) as Hrest.
  { intros ts Hts run.
    destruct (fold_checks images_dir ts
                (fun entry => message_refs entry.1 entry.2)
                (fun acc entry =>
                   check_messages images_dir entry.1 entry.2 acc)
                (fun acc entry =>
                   check_messages_checks images_dir entry.1 entry.2 acc)
                ([], []) w1) as (t1 & Hr1 & Hp1).
    pose proof (check_custom_messages_run images_dir config
                  (extend (disk w1) images_dir ([], [])
                     (flat_map (fun entry => message_refs entry.1 entry.2)
                        ts)) w1) as Hcustom.
    subst run. rewrite (bind_val _ _ _ _ _ _ Hr1).
    unfold references, template_references. rewrite Hts.
    destruct (recipients config) as [| |rs].
    - destruct Hcustom as (t2 & -> & Hp2).
      rewrite !outcome_mk, !final_mk, !trace_mk. split; [done|].
      rewrite extend_app. split.
      + f_equal. f_equal. unfold extend. simpl. apply missing_none.
      + simpl. by rewrite image_reports_app, Hp1, Hp2.
    - rewrite Hcustom, !outcome_mk, !final_mk, !trace_mk.
      split; [done|]. split; [done|]. simpl. by rewrite app_nil_r.
    - destruct Hcustom as (t2 & -> & Hp2).
      rewrite !outcome_mk, !final_mk, !trace_mk. split; [done|].
      rewrite extend_app. split.
      + f_equal. f_equal. unfold extend. simpl. apply missing_none.
      + simpl. by rewrite image_reports_app, Hp1, Hp2. }
  destruct (message_templates config) as [| |ts] eqn:Hts; cbn [get_or].
  - destruct (Hrest [] eq_refl) as [Hd Hr].
    rewrite !outcome_mk, !final_mk, !trace_mk. split; [exact Hd|].
    by destruct (recipients config).
  - by rewrite !outcome_mk, !final_mk, !trace_mk.
  - destruct (Hrest ts eq_refl) as [Hd Hr].
    rewrite !outcome_mk, !final_mk, !trace_mk. split; [exact Hd|].
    by destruct (recipients config).
Qed.

(** A large image does not fail the validation, a missing one does; a
    [null] in place of the recipients stops the call. *)
Lemma validate_images_verdict_witness :
  outcome (validate_images_in_config E_album "config.json" "images"
             full_album) = Val (Returned true)
  /\ outcome (validate_images_in_config E_album "config.json" "images"
                partial_album) = Val (Returned false)
  /\ reported (trace (validate_images_in_config E_album "config.json"
                        "images" partial_album))
     = [("greeting", "morning.jpg"); ("greeting", "sun.png");
        ("user:bob", "special.png")]%string
  /\ outcome (validate_images_in_config E_album "other.json" "images"
                full_album) = Val TypeError.
Proof.
  destruct (validate_images_verdict E_album "config.json" "images"
              full_album album eq_refl) as (_ & H1 & _).
  destruct (validate_images_verdict E_album "config.json" "images"
              partial_album album eq_refl) as (_ & H2 & H3).
  destruct (validate_images_verdict E_album "other.json" "images"
              full_album
              {| message_templates := Given []; recipients := Null |}
              eq_refl) as (_ & H4 & _).
  split; [exact H1|]. split; [exact H2|]. split; [exact H3|exact H4].
Defined.

End ImageFacts.

(** ** DM.py: validating an image *)

Module MediaFacts.
Import MediaManager RuntimeFacts.

Lemma supported_extension x :
  existsb (String.eqb x) supported_formats = true <-> x ∈ supported_formats.
Proof.
  rewrite existsb_exists, list_elem_of_In. split.
  - by intros (y & Hy & ->%String.eqb_eq).
  - intros Hx. exists x. split; [done|apply String.eqb_refl].
Qed.

(** X23, DM.py MediaManager.validate_image: the answer is [True] exactly
    when the file is there at both looks, its size is within the limit (the
    limit included) and its extension is one of the five supported ones;
    then nothing is logged.  A file that is missing at the first look is
    refused without a line.  Unlike the scheduler's upload, the function
    has no handler: when the file goes away between the two looks, the
    [OSError] of the size reading escapes; it raises in no other case. *)
Theorem validate_image_verdict (E : DM.env) (extension_of : string -> string)
    path limit w :
  let run := validate_image E extension_of path limit w in
  (outcome run = Val true <->
     is_Some (DM.files E (tick w) !! path)
     /\ (exists size, DM.files E (S (tick w)) !! path = Some size
                      /\ ImageHelper.over size limit = false)
     /\ extension_of path ∈ supported_formats)
  /\ (outcome run = Val true -> trace run = [])
  /\ (DM.files E (tick w) !! path = None ->
      outcome run = Val false /\ trace run = [])
  /\ (forall e, outcome run = Exc e <->
        e = OSError
        /\ is_Some (DM.files E (tick w) !! path)
        /\ DM.files E (S (tick w)) !! path = None).
Proof.
  intros run. subst run.
  unfold validate_image, os_path_exists, os_path_getsize.
  set (ok := existsb (String.eqb (extension_of path)) supported_formats).
  assert (ok = true <-> extension_of path ∈ supported_formats) as Hext
    by apply supported_extension.
  clearbody ok.
  unfold bind, fresh, emit, ret, raise. simpl.
  destruct (DM.files E (tick w) !! path) as [z|] eqn:Hex; simpl.
  2:{ split; [|split; [|split]]; try done.
      - split; [done|]. by intros [[? ?] _].
      - intros e. split; [done|]. by intros (_ & [? ?] & _). }
  destruct (DM.files E (S (tick w)) !! path) as [size|] eqn:Hsz; simpl.
  2:{ split; [|split; [|split]]; try done.
      - split; [done|]. by intros (_ & (? & ? & _) & _).
      - intros e. split.
        + intros [= <-]. split; [done|]. split; [by eexists|done].
        + by intros (-> & _). }
  change (DM.Qgt_bool (inject_Z size / inject_Z (1024 * 1024)) limit)
    with (ImageHelper.over size limit).
  destruct (ImageHelper.over size limit) eqn:Hbig; simpl.
  { split; [|split; [|split]]; try done.
    - split; [done|]. intros (_ & (size' & [= <-] & Hok) & _). congruence.
    - intros e. split; [done|]. by intros (_ & _ & ?). }
  destruct ok; simpl.
  - split; [|split; [|split]]; try done.
    + split; [|done]. intros _. split; [by eexists|].
      split; [by exists size|by apply Hext].
    + intros e. split; [done|]. by intros (_ & _ & ?).
  - split; [|split; [|split]]; try done.
    + split; [done|]. intros (_ & _ & Hin%Hext). congruence.
    + intros e. split; [done|]. by intros (_ & _ & ?).
Qed.

(** X24, DM.py MediaManager.validate_image and
    TwitterDMScheduler.upload_media: an image that the validation accepts
    is offered to the gateway.  On a disk that does not change, with a
    validation limit that is not above the scheduler's ceiling, an accepted
    path passes the scheduler's own checks: the upload is requested once,
    and its answer alone decides the media id.  *)
Theorem validated_image_is_offered (E : DM.env)
    (extension_of : string -> string) (cfg : DM.config) path limit w w' fs :
  (forall t, DM.files E t = fs) ->
  (limit <= DM.max_size_mb cfg)%Q ->
  outcome (validate_image E extension_of path limit w) = Val true ->
  let run := DM.upload_media E cfg path w' in
  DMObs.uploads (trace run) = [path]
  /\ outcome run
     = Val (match DM.media_upload_api E (S (S (DM.tick w'))) path with
            | Val media_id => Some media_id
            | Exc _ => None
            end).
Proof.
  intros Hfs Hlimit Hok run. subst run.
  assert (exists size, fs !! path = Some size
                       /\ Qle_bool (ImageHelper.mb size) limit = true)
    as (size & Hsize & Hle).
  { revert Hok. unfold validate_image, os_path_exists, os_path_getsize.
    unfold bind, fresh, emit, ret, raise. simpl. rewrite !Hfs.
    destruct (fs !! path) as [size|] eqn:Hsize; simpl; [|done].
    rewrite !Hfs, Hsize. simpl.
    unfold DM.Qgt_bool. fold (ImageHelper.mb size).
    destruct (Qle_bool (ImageHelper.mb size) limit) eqn:Hle; simpl;
      [|done].
    intros _. by exists size. }
  assert (Qle_bool (ImageHelper.mb size) (DM.max_size_mb cfg) = true)
    as Hle'.
  { apply Qle_bool_iff. apply Qle_bool_iff in Hle.
    by apply (Qle_trans _ limit). }
  unfold DM.upload_media, DM.os_path_exists, DM.os_path_getsize, DM.log.
  unfold of_result, try_except, bind, DM.fresh, emit, ret, raise. simpl.
  rewrite !Hfs, Hsize. simpl. rewrite !Hfs, Hsize. simpl.
  change (DM.Qgt_bool _ _)
    with (negb (Qle_bool (ImageHelper.mb size) (DM.max_size_mb cfg))).
  rewrite Hle'. simpl.
  by destruct (DM.media_upload_api E (S (S (DM.tick w'))) path).
Qed.

(** A file of exactly 5 MB is accepted by the validation and uploaded by
    the scheduler. *)
Lemma validated_image_is_offered_witness :
  DMObs.uploads
    (trace (DM.upload_media DMObs.E_edge (DM.cfg_of false [])
              "images/edge.png" DM.fresh_world))
  = ["images/edge.png"%string]
  /\ outcome (DM.upload_media DMObs.E_edge (DM.cfg_of false [])
                "images/edge.png" DM.fresh_world)
     = Val (Some "m7"%string).
Proof.
  apply (validated_image_is_offered DMObs.E_edge ext3 (DM.cfg_of false [])
           "images/edge.png" (5 # 1) {| tick := 0 |} DM.fresh_world
           (DM.files DMObs.E_edge 0)).
  - reflexivity.
  - vm_compute. discriminate.
  - reflexivity.
Defined.

End MediaFacts.

(** ** dm_sender.py: validating the configuration *)

Module SenderConfigFacts.
Import SenderConfig RuntimeFacts.

Section Validating.
Context (path_exists : nat -> string -> bool)
        (makedirs : nat -> string -> result unit).

Lemma never_raises_step : never_raises fresh.
Proof. intros w. by eexists. Qed.

Lemma never_raises_log lvl l : never_raises (log lvl l).
Proof. apply never_raises_emit. Qed.

(** The guard in front of [d[key]] keeps the subscript from raising. *)
Lemma never_raises_unset d key : never_raises (unset d key).
Proof.
  unfold unset. destruct (d !! key) as [[|c v]|]; simpl.
  - apply never_raises_ret.
  - apply never_raises_bind; intros; apply never_raises_ret.
  - apply never_raises_ret.
Qed.

Lemma never_raises_check_user user : never_raises (check_user user).
Proof.
  unfold check_user. apply never_raises_bind.
  - destruct (Sender.user_id user) as [[|c v]|]; simpl.
    + apply never_raises_ret.
    + apply never_raises_bind; intros; apply never_raises_ret.
    + apply never_raises_ret.
  - intros []; [apply never_raises_log|apply never_raises_ret].
Qed.

Lemma never_raises_folder (settings : image_section) :
  never_raises
    (if default false (enabled settings) then
       ex <- os_path_exists path_exists
               (default "./images"%string (folder_path settings)) ;;
       if negb ex then
         log Warning
           (FolderMissing (default "./images"%string
                             (folder_path settings))) ;;
         try_except
           (t <- fresh ;;
            emit (MakeDirs (default "./images"%string
                              (folder_path settings))) ;;
            of_result (makedirs t (default "./images"%string
                                     (folder_path settings))) ;;
            log Info (FolderCreated (default "./images"%string
                                       (folder_path settings))))
           (fun e => log Error (FolderFailed e))
       else ret tt
     else ret tt).
Proof.
  destruct (default false (enabled settings)); [|apply never_raises_ret].
  apply never_raises_bind.
  { apply never_raises_bind; [apply never_raises_step|].
    intros; apply never_raises_ret. }
  intros []; simpl; [apply never_raises_ret|].
  apply never_raises_bind; [apply never_raises_log|]. intros _.
  apply never_raises_try. intros e. apply never_raises_log.
Qed.

Lemma concludes_bind {A} (m : M A) (k : A -> M verdict) :
  never_raises m -> (forall a, concludes (k a)) -> concludes (bind m k).
Proof.
  intros Hm Hk w. destruct (never_raises_run m w Hm) as (a & w1 & t1 & Hrun).
  rewrite (bind_val _ _ _ _ _ _ Hrun), outcome_mk, trace_mk.
  destruct (Hk a w1) as [Ho Hl]. split; [done|].
  by rewrite last_app, Hl.
Qed.

End Validating.

(** X25, dm_sender.py validate_config: only a missing section stops the
    start.  The call raises [ValueError] exactly when one of the sections
    ['twitter'], ['gemini'], ['target_users'] is absent, naming the absent
    ones in this order, and then it has logged nothing.  With the three
    sections there it returns, whatever they hold: placeholder
    credentials, sample user ids, an empty user list and a folder that
    cannot be created are logged but never refused, no subscript raises,
    and the last line says that the validation is complete. *)
Theorem sender_validation_verdict (path_exists : nat -> string -> bool)
    (makedirs : nat -> string -> result unit) (config : document) w :
  let run := validate_config path_exists makedirs config w in
  let missing :=
    List.filter (fun section => negb (has_section config section))
      required_sections in
  (missing = [] <->
   is_Some (twitter config) /\ is_Some (gemini config)
   /\ is_Some (target_users config))
  /\ (missing = [] ->
      outcome run = Val Validated
      /\ last (trace run) = Some (Log Info ValidationDone))
  /\ (missing <> [] -> run = (Val (ValueError missing), w, [])).
Proof.
  intros run missing. subst run missing. unfold validate_config.
  generalize twitter_keys. intros keys.
  destruct (twitter config) as [tw|] eqn:Htw;
    destruct (gemini config) as [gm|] eqn:Hgm;
    destruct (target_users config) as [users|] eqn:Hus;
    unfold has_section; rewrite Htw, Hgm, Hus; simpl.
  2-8: split; [|split]; [|done|done];
       split; [done|]; intros (H1 & H2 & H3);
       by (destruct H1 || destruct H2 || destruct H3).
  split; [|split]; [|intros _|done].
  { split; [|done]. intros _. by repeat split. }
  apply concludes_bind.
  { apply never_raises_for_each. intros key.
    apply never_raises_bind; [apply never_raises_ret|]. intros d.
    apply never_raises_bind; [apply never_raises_unset|].
    intros []; [apply never_raises_log|apply never_raises_ret]. }
  intros _. apply concludes_bind; [apply never_raises_ret|]. intros d.
  apply concludes_bind; [apply never_raises_unset|]. intros b.
  apply concludes_bind.
  { destruct b; [apply never_raises_log|apply never_raises_ret]. }
  intros _. apply concludes_bind; [apply never_raises_ret|]. intros us.
  apply concludes_bind.
  { destruct us; [apply never_raises_log|].
    apply never_raises_for_each, never_raises_check_user. }
  intros _. apply concludes_bind; [apply never_raises_folder|].
  intros _ w'. done.
Qed.

(** The example file as it is shipped passes the validation; a document
    without the ['gemini'] section does not. *)
Lemma sender_validation_verdict_witness :
  outcome (validate_config (fun _ _ => false) (fun _ _ => Exc OSError)
             untouched_example {| tick := 0 |}) = Val Validated
  /\ validate_config (fun _ _ => false) (fun _ _ => Exc OSError)
       no_gemini {| tick := 0 |}
     = (Val (ValueError ["gemini"%string]), {| tick := 0 |}, []).
Proof.
  destruct (sender_validation_verdict (fun _ _ => false)
              (fun _ _ => Exc OSError) untouched_example {| tick := 0 |})
    as (_ & H1 & _).
  destruct (sender_validation_verdict (fun _ _ => false)
              (fun _ _ => Exc OSError) no_gemini {| tick := 0 |})
    as (_ & _ & H2).
  split; [by apply H1|by apply H2].
Defined.

End SenderConfigFacts.
